(** * ipfs-cid-hoarder: the publisher, the pinger, the file CID source and
    the DB client, embedded in Rocq.

    Go values are modelled as the code has them: [int] and [time.Duration]
    as [Z] (nanoseconds), [time.Time] as [Z] (nanoseconds on the monotonic
    clock), strings as [string], Go maps as [gmap], slices as a backing
    array in a store together with a length, pointers as addresses in a
    store.  Calls into the DHT host, the clock and the libraries that parse
    CIDs, peer IDs, durations and multiaddresses are the methods of a class
    that the definitions of a section take. *)

From Stdlib Require Import ZArith List Bool Lia.
From stdpp Require Import gmap strings list fin_maps.

Local Open Scope Z_scope.

(** ** The [models] package *)

Module Models.

Definition PeerID := string.
Definition Time := Z.
Definition Duration := Z.

(** A CID is only ever looked at through [c.Hash().B58String()], its key
    form; the model identifies the CID with that string. *)
Definition Cid := string.

Definition B58String (c : Cid) : string := c.

(** Modelled from the spec: models.PeerInfo is not under src/.  "PeerID +
    snapshot of multiaddresses + observed user-agent string at discovery
    time". *)
Record PeerInfo := NewPeerInfo {
  pi_ID : PeerID;
  pi_MultiAddrs : list string;
  pi_UserAgent : string;
}.

(** [peer.AddrInfo] of go-libp2p: a peer ID with its addresses. *)
Record AddrInfo := mkAddrInfo {
  ai_ID : PeerID;
  ai_Addrs : list string;
}.

(** Modelled from the spec: PeerInfo.GetAddrInfo is not under src/.  The
    peer's ID with its snapshot of multiaddresses. *)
Definition GetAddrInfo (p : PeerInfo) : AddrInfo :=
  mkAddrInfo (pi_ID p) (pi_MultiAddrs p).

(** Modelled from the spec: models.PRPingResults is not under src/.  "(CID,
    holder PeerID, round, query time, query duration, Active flag,
    HasRecords flag, ConnError tag)". *)
Record PRPingResults := mkPRPingResults {
  pr_Cid : Cid;
  pr_PeerID : PeerID;
  pr_Round : Z;
  pr_PublicationTime : Time;
  pr_FetchTime : Time;
  pr_FetchDuration : Duration;
  pr_Active : bool;
  pr_HasRecords : bool;
  pr_RecordsWithMAddrs : bool;
  pr_ConnError : string;
}.

(** Modelled from the spec: models.NewPRPingResults is not under src/.  The
    pinger calls it with eight arguments, the publisher with ten, the fields
    of [mkPRPingResults]. *)
Definition NewPRPingResults (c : Cid) (p : PeerID) (round : Z)
    (fetchTime : Time) (fetchDuration : Duration)
    (active hasRecords : bool) (connError : string) : PRPingResults :=
  mkPRPingResults c p round 0 fetchTime fetchDuration active hasRecords
    false connError.

(** Modelled from the spec: models.CidFetchResults is not under src/.  One
    per (CID, round); the fields are those the pinger and the publisher
    assign. *)
Record CidFetchResults := mkCidFetchResults {
  fr_Cid : Cid;
  fr_Round : Z;
  fr_StartTime : Time;
  fr_FinishTime : Time;
  fr_IsRetrievable : bool;
  fr_TotalHops : Z;
  fr_HopsToClosest : Z;
  fr_HopsTreeDepth : Z;
  fr_MinHopsToClosest : Z;
  fr_FindProvDuration : Duration;
  fr_GetClosePeersDuration : Duration;
  fr_ClosestPeers : list PeerID;
  fr_PRPingResults : list PRPingResults;
  fr_K : Z;
}.

(** Modelled from the spec: models.NewCidFetchResults is not under src/.
    "Open a fresh CidFetchResults at the current instant". *)
Definition NewCidFetchResults (c : Cid) (start : Time) (round k : Z)
  : CidFetchResults :=
  mkCidFetchResults c round start 0 false 0 0 0 0 0 0 [] [] k.

(** Modelled from the spec: CidFetchResults.AddPRPingResults is not under
    src/.  "PRPingResults (list, one per PR holder)". *)
Definition AddPRPingResults (f : CidFetchResults) (r : PRPingResults)
  : CidFetchResults :=
  mkCidFetchResults (fr_Cid f) (fr_Round f) (fr_StartTime f)
    (fr_FinishTime f) (fr_IsRetrievable f) (fr_TotalHops f)
    (fr_HopsToClosest f) (fr_HopsTreeDepth f) (fr_MinHopsToClosest f)
    (fr_FindProvDuration f) (fr_GetClosePeersDuration f)
    (fr_ClosestPeers f) (fr_PRPingResults f ++ [r]) (fr_K f).

(** Modelled from the spec: CidFetchResults.AddClosestPeer is not under
    src/.  "ClosestPeers (set of PeerIDs)". *)
Definition AddClosestPeer (f : CidFetchResults) (p : PeerID)
  : CidFetchResults :=
  mkCidFetchResults (fr_Cid f) (fr_Round f) (fr_StartTime f)
    (fr_FinishTime f) (fr_IsRetrievable f) (fr_TotalHops f)
    (fr_HopsToClosest f) (fr_HopsTreeDepth f) (fr_MinHopsToClosest f)
    (fr_FindProvDuration f) (fr_GetClosePeersDuration f)
    (fr_ClosestPeers f ++ [p]) (fr_PRPingResults f) (fr_K f).

(** Assignments to single fields of a [*CidFetchResults]. *)
Definition set_FinishTime (t : Time) (f : CidFetchResults) :=
  mkCidFetchResults (fr_Cid f) (fr_Round f) (fr_StartTime f)
    t (fr_IsRetrievable f) (fr_TotalHops f)
    (fr_HopsToClosest f) (fr_HopsTreeDepth f) (fr_MinHopsToClosest f)
    (fr_FindProvDuration f) (fr_GetClosePeersDuration f)
    (fr_ClosestPeers f) (fr_PRPingResults f) (fr_K f).

Definition set_FindProv (d : Duration) (retrievable : bool)
    (f : CidFetchResults) :=
  mkCidFetchResults (fr_Cid f) (fr_Round f) (fr_StartTime f)
    (fr_FinishTime f) retrievable (fr_TotalHops f)
    (fr_HopsToClosest f) (fr_HopsTreeDepth f) (fr_MinHopsToClosest f)
    d (fr_GetClosePeersDuration f)
    (fr_ClosestPeers f) (fr_PRPingResults f) (fr_K f).

Definition set_ClosePeers (total toClosest : Z) (d : Duration)
    (f : CidFetchResults) :=
  mkCidFetchResults (fr_Cid f) (fr_Round f) (fr_StartTime f)
    (fr_FinishTime f) (fr_IsRetrievable f) total
    toClosest (fr_HopsTreeDepth f) (fr_MinHopsToClosest f)
    (fr_FindProvDuration f) d
    (fr_ClosestPeers f) (fr_PRPingResults f) (fr_K f).

Definition set_LookupMetrics (total depth minHops : Z)
    (f : CidFetchResults) :=
  mkCidFetchResults (fr_Cid f) (fr_Round f) (fr_StartTime f)
    (fr_FinishTime f) (fr_IsRetrievable f) total
    (fr_HopsToClosest f) depth minHops
    (fr_FindProvDuration f) (fr_GetClosePeersDuration f)
    (fr_ClosestPeers f) (fr_PRPingResults f) (fr_K f).

(** Modelled from the spec: models.CidInfo is not under src/.  "One per
    tracked CID", with the attributes of the spec's data model. *)
Record CidInfo := mkCidInfo {
  CID : Cid;
  Creator : PeerID;
  K : Z;
  ProvideOp : string;
  ReqInterval : Duration;
  StudyDuration : Duration;
  PublishTime : Time;
  ProvideTime : Duration;
  PRHolders : list PeerInfo;
  PingCounter : Z;
  NextPing : Time;
  PRFetchResults : list CidFetchResults;
}.

(** Modelled from the spec: models.NewCidInfo is not under src/.
    "Construct CidInfo with empty PRHolders". *)
Definition NewCidInfo (id : Cid) (k : Z) (reqInt studyDur : Duration)
    (provOp : string) (creator : PeerID) : CidInfo :=
  mkCidInfo id creator k provOp reqInt studyDur 0 0 [] 0 0 [].

(** Modelled from the spec: CidInfo.GetPingCounter is not under src/.
    "PingCounter (rounds completed)". *)
Definition GetPingCounter (c : CidInfo) : Z := PingCounter c.

Definition set_PRHolders (hs : list PeerInfo) (c : CidInfo) : CidInfo :=
  mkCidInfo (CID c) (Creator c) (K c) (ProvideOp c) (ReqInterval c)
    (StudyDuration c) (PublishTime c) (ProvideTime c) hs
    (PingCounter c) (NextPing c) (PRFetchResults c).

Definition set_PingCounter (n : Z) (c : CidInfo) : CidInfo :=
  mkCidInfo (CID c) (Creator c) (K c) (ProvideOp c) (ReqInterval c)
    (StudyDuration c) (PublishTime c) (ProvideTime c) (PRHolders c)
    n (NextPing c) (PRFetchResults c).

Definition set_NextPing (t : Time) (c : CidInfo) : CidInfo :=
  mkCidInfo (CID c) (Creator c) (K c) (ProvideOp c) (ReqInterval c)
    (StudyDuration c) (PublishTime c) (ProvideTime c) (PRHolders c)
    (PingCounter c) t (PRFetchResults c).

(** Modelled from the spec: CidInfo.AddPRHolder is not under src/.
    "PRHolders is append-only during round 0". *)
Definition AddPRHolder (c : CidInfo) (p : PeerInfo) : CidInfo :=
  set_PRHolders (PRHolders c ++ [p]) c.

(** Modelled from the spec: CidInfo.IncreasePingCounter is not under src/.
    "increment its counter". *)
Definition IncreasePingCounter (c : CidInfo) : CidInfo :=
  set_PingCounter (PingCounter c + 1) c.

(** Modelled from the spec: AddPublicationTime, AddProvideTime and
    AddPRFetchResults of CidInfo are not under src/.  "Finalize CidInfo
    (publication time, provide time, attach round-0 fetch result)". *)
Definition AddPublicationTime (t : Time) (c : CidInfo) : CidInfo :=
  mkCidInfo (CID c) (Creator c) (K c) (ProvideOp c) (ReqInterval c)
    (StudyDuration c) t (ProvideTime c) (PRHolders c)
    (PingCounter c) (NextPing c) (PRFetchResults c).

Definition AddProvideTime (d : Duration) (c : CidInfo) : CidInfo :=
  mkCidInfo (CID c) (Creator c) (K c) (ProvideOp c) (ReqInterval c)
    (StudyDuration c) (PublishTime c) d (PRHolders c)
    (PingCounter c) (NextPing c) (PRFetchResults c).

Definition AddPRFetchResults (f : CidFetchResults) (c : CidInfo) : CidInfo :=
  mkCidInfo (CID c) (Creator c) (K c) (ProvideOp c) (ReqInterval c)
    (StudyDuration c) (PublishTime c) (ProvideTime c) (PRHolders c)
    (PingCounter c) (NextPing c) (PRFetchResults c ++ [f]).

End Models.

(** ** The CID pinger: queue, orchestrator, workers and holder probes *)

Module Pinger.
Import Models.

Definition DialTimeout : Duration := 20 * 1000000000.
Definition minIterTime : Duration := 500 * 1000000.
Definition maxDialAttempts : nat := 3.
Definition dialGraceTime : Duration := 10 * 1000000000.

(** *** The store

    The queue holds [*models.CidInfo] pointers in a slice.  A pointer is an
    address in [objs]; an address without an object is the nil pointer.  A
    slice is a backing array (an address in [arrays]) and a length; two
    slice headers on one array see each other's writes.  The array is
    modelled up to the slots that have been written; spare capacity
    behind them is never read. *)

Definition ptr := nat.

Record Slice := mkSlice { sl_arr : nat; sl_len : nat }.

Record Store := mkStore {
  arrays : gmap nat (list ptr);
  next_arr : nat;
  objs : gmap ptr CidInfo;
}.

Definition arrayOf (s : Store) (a : nat) : list ptr :=
  default [] (arrays s !! a).

(** The elements of a slice: the first [sl_len] slots of its array. *)
Definition sliceElems (s : Store) (sl : Slice) : list ptr :=
  take (sl_len sl) (arrayOf s (sl_arr sl)).

(** [make([]*models.CidInfo, 0)]: a new, empty array. *)
Definition makeSlice (s : Store) : Store * Slice :=
  (mkStore (<[next_arr s := []]> (arrays s)) (S (next_arr s)) (objs s),
   mkSlice (next_arr s) 0).

Definition setArray (a : nat) (l : list ptr) (s : Store) : Store :=
  mkStore (<[a := l]> (arrays s)) (next_arr s) (objs s).

Definition setObj (p : ptr) (c : CidInfo) (s : Store) : Store :=
  mkStore (arrays s) (next_arr s) (<[p := c]> (objs s)).

(** [append(sl, p)]: the slot after the slice's length is written, in
    place when the array already has it (left over from a removal), and
    the array grows by that slot otherwise. *)
Definition appendSlice (s : Store) (sl : Slice) (p : ptr) : Store * Slice :=
  let arr := arrayOf s (sl_arr sl) in
  let arr' := if decide (sl_len sl < length arr)%nat
              then <[sl_len sl := p]> arr
              else take (sl_len sl) arr ++ [p] in
  (setArray (sl_arr sl) arr' s, mkSlice (sl_arr sl) (S (sl_len sl))).

(** [append(sl[:item], sl[item+1:]...)]: the elements behind [item] move
    one slot down inside the same array; the slot that held the last
    element keeps it, and the slice is one shorter. *)
Definition deleteAt (s : Store) (sl : Slice) (item : nat) : Store * Slice :=
  let arr := arrayOf s (sl_arr sl) in
  let arr' := take item arr ++ drop (S item) (take (sl_len sl) arr)
                ++ drop (sl_len sl - 1) arr in
  (setArray (sl_arr sl) arr' s, mkSlice (sl_arr sl) (sl_len sl - 1)).

(** *** cidQueue *)

Record cidQueue := mkQueue {
  cidMap : gmap string ptr;
  cidArray : Slice;
}.

Definition newCidQueue (s : Store) : Store * cidQueue :=
  let '(s', sl) := makeSlice s in (s', mkQueue ∅ sl).

Definition Len (q : cidQueue) : nat := sl_len (cidArray q).

Definition isCidAlready (q : cidQueue) (c : string) : bool :=
  bool_decide (is_Some (cidMap q !! c)).

Definition getCid (q : cidQueue) (cStr : string) : option ptr :=
  cidMap q !! cStr.

(** [addCid]: [None] is the nil dereference of [c.CID] on a nil pointer. *)
Definition addCid (c : ptr) (sq : Store * cidQueue)
  : option (Store * cidQueue) :=
  let '(s, q) := sq in
  match objs s !! c with
  | None => None
  | Some ci =>
      let '(s', sl) := appendSlice s (cidArray q) c in
      Some (s', mkQueue (<[B58String (CID ci) := c]> (cidMap q)) sl)
  end.

(** The search loop of [removeCid]: the index of the first element whose
    key is [cStr]; [Some None] is [item == -1]; [None] is a nil
    dereference. *)
Fixpoint findCid (s : Store) (cStr : string) (elems : list ptr)
    (idx : nat) : option (option nat) :=
  match elems with
  | [] => Some None
  | p :: rest =>
      match objs s !! p with
      | None => None
      | Some c =>
          if String.eqb (B58String (CID c)) cStr then Some (Some idx)
          else findCid s cStr rest (S idx)
      end
  end.

Definition removeCid (cStr : string) (sq : Store * cidQueue)
  : option (Store * cidQueue) :=
  let '(s, q) := sq in
  let m := delete cStr (cidMap q) in
  if decide (Len q = 1%nat) then
    let '(s', sl) := makeSlice s in Some (s', mkQueue m sl)
  else
    match findCid s cStr (sliceElems s (cidArray q)) 0 with
    | None => None
    | Some None => Some (s, mkQueue m (cidArray q))
    | Some (Some item) =>
        let '(s', sl) := deleteAt s (cidArray q) item in
        Some (s', mkQueue m sl)
    end.

Arguments removeCid : simpl never.

(** The pointers the queue holds, in order. *)
Definition queueElems (sq : Store * cidQueue) : list ptr :=
  sliceElems sq.1 (cidArray sq.2).


(** *** The orchestrator's pass over the queue

    One execution of the [for _, c := range p.cidQ.cidArray] loop of the
    ping orchestrator.  [range] evaluates the slice once: the loop runs over
    the array and the length the queue had when the loop started, and reads
    slot [i] of that array in its [i]-th iteration, whatever [removeCid] has
    done to the queue's slice since.  [IncreasePingCounter] is the method of
    [models.CidInfo]; [clock i] is what [time.Now()] returns in the [i]-th
    iteration and [cancelled i] whether [p.ctx.Err()] is non-nil there. *)

Record PingerState := mkPinger {
  store : Store;
  cidQ : cidQueue;
  pingTaskC : list ptr;
}.

Inductive ScanExit := RangeDone | NotInTime | Shutdown | NilDeref.

Section Orchestrator.

Variable IncreasePingCounter : CidInfo -> CidInfo.
Variable rounds : Z.
Variable clock : nat -> Time.
Variable cancelled : nat -> bool.

(** [time.Since(c.NextPing) < time.Duration(0)] *)
Definition notInTime (now : Time) (c : CidInfo) : bool :=
  now - NextPing c <? 0.

Fixpoint scanRange (arr : nat) (rem i : nat) (st : PingerState)
  : ScanExit * PingerState :=
  match rem with
  | O => (RangeDone, st)
  | S rem' =>
      if cancelled i then (Shutdown, st) else
      match arrayOf (store st) arr !! i with
      | None => (NilDeref, st)
      | Some c =>
          match objs (store st) !! c with
          | None => (NilDeref, st)
          | Some ci =>
              let cStr := B58String (CID ci) in
              if notInTime (clock i) ci then (NotInTime, st) else
              let ci' := IncreasePingCounter ci in
              let s1 := setObj c ci' (store st) in
              let tasks := pingTaskC st ++ [c] in
              if rounds <=? GetPingCounter ci' then
                match removeCid cStr (s1, cidQ st) with
                | None => (NilDeref, mkPinger s1 (cidQ st) tasks)
                | Some (s2, q2) =>
                    scanRange arr rem' (S i) (mkPinger s2 q2 tasks)
                end
              else scanRange arr rem' (S i) (mkPinger s1 (cidQ st) tasks)
          end
      end
  end.

Definition orchestratorPass (st : PingerState) : ScanExit * PingerState :=
  scanRange (sl_arr (cidArray (cidQ st))) (Len (cidQ st)) 0 st.

End Orchestrator.

(** What the pass is meant to send to the task channel, in the words of its
    comments: the CIDs of the list, in order, up to the first whose time
    has not come. *)
Fixpoint duePrefix (clock : nat -> Time) (os : gmap ptr CidInfo) (i : nat)
    (ps : list ptr) : list ptr :=
  match ps with
  | [] => []
  | p :: ps' =>
      match os !! p with
      | Some c =>
          if notInTime (clock i) c then []
          else p :: duePrefix clock os (S i) ps'
      | None => []
      end
  end.

(** A queue built by [newCidQueue] and [addCid] over the given objects. *)
Definition storeOf (cs : list CidInfo) : Store :=
  mkStore ∅ 0 (list_to_map (imap (fun i c => (i, c)) cs)).

Fixpoint addAll (ps : list ptr) (sq : Store * cidQueue)
  : option (Store * cidQueue) :=
  match ps with
  | [] => Some sq
  | p :: ps' => match addCid p sq with
                | None => None
                | Some sq' => addAll ps' sq'
                end
  end.

Definition queueOf (cs : list CidInfo) : option (Store * cidQueue) :=
  addAll (seq 0 (length cs)) (newCidQueue (storeOf cs)).

Definition exCid (key : string) (counter : Z) (next : Time) : CidInfo :=
  mkCidInfo key "creator" 20 "standard" 1000 0 0 0 [] counter next [].

(** *** Contexts

    [context.Context] as the pinger uses it: a chain of cancellable and
    deadline-carrying contexts over the background context.  A context is
    done when its own cancel function was called or its deadline has passed,
    or when its parent is done. *)

Inductive Context :=
| Background
| WithCancel (parent : Context) (id : nat)
| WithDeadline (parent : Context) (d : Time).

(** [context.WithTimeout(parent, timeout)] called at [now]. *)
Definition WithTimeout (parent : Context) (now : Time) (timeout : Duration)
  : Context :=
  WithDeadline parent (now + timeout).

Fixpoint ctxDone (cancels : nat -> bool) (now : Time) (ctx : Context) : bool :=
  match ctx with
  | Background => false
  | WithCancel parent id => cancels id || ctxDone cancels now parent
  | WithDeadline parent d => (d <=? now) || ctxDone cancels now parent
  end.

(** [ctx.Deadline()]: the earliest deadline on the chain. *)
Fixpoint Deadline (ctx : Context) : option Time :=
  match ctx with
  | Background => None
  | WithCancel parent _ => Deadline parent
  | WithDeadline parent d =>
      match Deadline parent with
      | Some d' => Some (Z.min d d')
      | None => Some d
      end
  end.

(** *** Probing a PR holder

    The host, the DHT and the clock are the world [W]: every call takes the
    world and returns it changed.  Errors are their messages. *)

(** What the pinger calls on its host ([p2p.Host] and its DHT), the clock,
    and what it uses of package [p2p]: the classifier of connection errors
    and its tags. *)
Class Host (W : Type) := {
  Now : W -> Time;
  Connect : Context -> AddrInfo -> W -> option string * W;
  GetProvidersFromPeer :
    Context -> PeerID -> Cid -> W -> (list AddrInfo * option string) * W;
  ClosePeer : PeerID -> W -> option string * W;
  LookupForProviders :
    Context -> Cid -> W -> (list AddrInfo * option string) * W;
  GetClosestPeers :
    Context -> Cid -> W -> (list PeerID * (Z * Z) * option string) * W;
  ParseConError : string -> string;
  DialErrorConnectionRefused : string;
  DialErrorStreamReset : string;
  NoConnError : string;
}.

Section Probe.

Context {W : Type} {host : Host W}.

(** [for _, paddrs := range provs { if paddrs.ID == c.Creator {...} }] *)
Definition hasCreator (c : CidInfo) (provs : list AddrInfo) : bool :=
  existsb (fun pa => String.eqb (ai_ID pa) (Creator c)) provs.

(** The dial loop, [rem] iterations before [att] reaches
    [maxDialAttempts].  The result is [active], [hasRecords], [connError]. *)
Fixpoint dialLoop (rootCtx pingCtx : Context) (c : CidInfo) (pAddr : AddrInfo)
    (rem : nat) (connError : string) (w : W)
  : (bool * bool * string) * W :=
  match rem with
  | O => ((false, false, connError), w)
  | S rem' =>
      let '(err, w1) := Connect pingCtx pAddr w in
      match err with
      | Some e =>
          let connError := ParseConError e in
          if negb (String.eqb connError DialErrorConnectionRefused)
             && negb (String.eqb connError DialErrorStreamReset)
          then ((false, false, connError), w1)
          else dialLoop rootCtx pingCtx c pAddr rem' connError w1
      | None =>
          let '((provs, _), w2) :=
            GetProvidersFromPeer rootCtx (ai_ID pAddr) (CID c) w1 in
          let '(_, w3) := ClosePeer (ai_ID pAddr) w2 in
          ((true, hasCreator c provs, NoConnError), w3)
      end
  end.

Definition PingPRHolder (rootCtx : Context) (c : CidInfo) (round : Z)
    (pAddr : AddrInfo) (w : W) : PRPingResults * W :=
  let pingCtx := WithTimeout rootCtx (Now w) DialTimeout in
  let tstart := Now w in
  let '((active, hasRecords, connError), w') :=
    dialLoop rootCtx pingCtx c pAddr maxDialAttempts EmptyString w in
  let fetchTime := Now w' - tstart in
  (NewPRPingResults (CID c) (ai_ID pAddr) round tstart fetchTime
     active hasRecords connError, w').

(** *** A pinger worker's round

    The body of [case c, ok := <-p.pingTaskC] in a worker, for a task that
    was received.  The lookups and the holder probes run in goroutines
    joined by [wg.Wait()]; the model runs them one after the other, the
    holders in the order of [c.PRHolders]. *)

Fixpoint pingHolders (rootCtx : Context) (c : CidInfo) (round : Z)
    (holders : list PeerInfo) (res : CidFetchResults) (w : W)
  : CidFetchResults * W :=
  match holders with
  | [] => (res, w)
  | h :: hs =>
      let '(pingRes, w1) := PingPRHolder rootCtx c round (GetAddrInfo h) w in
      pingHolders rootCtx c round hs (AddPRPingResults res pingRes) w1
  end.

Definition fetchRound (rootCtx : Context) (c : CidInfo) (w : W)
  : CidFetchResults * W :=
  let pingCounter := GetPingCounter c in
  let res := NewCidFetchResults (CID c) (Now w) pingCounter 0 in
  let t := Now w in
  let '((providers, _), w1) := LookupForProviders rootCtx (CID c) w in
  let res := set_FindProv (Now w1 - t) (hasCreator c providers) res in
  let t := Now w1 in
  let '((closestPeers, (total, toClosest), _), w2) :=
    GetClosestPeers rootCtx (CID c) w1 in
  let res := set_ClosePeers total toClosest (Now w2 - t) res in
  let res := fold_left AddClosestPeer closestPeers res in
  let '(res, w3) := pingHolders rootCtx c pingCounter (PRHolders c) res w2 in
  (set_FinishTime (Now w3) res, w3).

(** What a worker shares with the rest of the process: the pinger's state,
    the channel of the DB client that takes fetch results, and the world. *)
Record WorkerState := mkWorker {
  pinger : PingerState;
  fetchResultC : list CidFetchResults;
  world : W;
}.

(** One turn of a worker's loop that receives a task: the task leaves the
    channel, the round runs on the object it points to, and the result goes
    to the DB client.  [None] when the channel is empty or the pointer is
    nil. *)
Definition workerRound (rootCtx : Context) (st : WorkerState)
  : option WorkerState :=
  match pingTaskC (pinger st) with
  | [] => None
  | c :: tasks =>
      match objs (store (pinger st)) !! c with
      | None => None
      | Some ci =>
          let '(res, w') := fetchRound rootCtx ci (world st) in
          Some (mkWorker
                  (mkPinger (store (pinger st)) (cidQ (pinger st)) tasks)
                  (fetchResultC st ++ [res]) w')
      end
  end.

End Probe.

(** *** The calls a host receives

    What a host sees of a probe are the calls of [Connect] made on it.  A
    host with a journal is a host that, besides doing what the host does,
    writes down every call of [Connect] it receives: the context and the
    address it was handed, the time the call started and what it returned.
    The journal is part of the world, and only [Connect] writes to it. *)

Record DialAttempt := mkDial {
  da_ctx : Context;
  da_addr : AddrInfo;
  da_start : Time;
  da_err : option string;
}.

Definition journalConnect {W : Type} {host : Host W} (ctx : Context)
    (pAddr : AddrInfo) (wj : W * list DialAttempt)
  : option string * (W * list DialAttempt) :=
  let '(err, w') := Connect ctx pAddr wj.1 in
  (err, (w', wj.2 ++ [mkDial ctx pAddr (Now wj.1) err])).

Definition withJournal {W : Type} (host : Host W)
  : Host (W * list DialAttempt) := {|
  Now := fun wj => Now wj.1;
  Connect := journalConnect;
  GetProvidersFromPeer := fun ctx p c wj =>
    let '(r, w') := GetProvidersFromPeer ctx p c wj.1 in (r, (w', wj.2));
  ClosePeer := fun p wj =>
    let '(r, w') := ClosePeer p wj.1 in (r, (w', wj.2));
  LookupForProviders := fun ctx c wj =>
    let '(r, w') := LookupForProviders ctx c wj.1 in (r, (w', wj.2));
  GetClosestPeers := fun ctx c wj =>
    let '(r, w') := GetClosestPeers ctx c wj.1 in (r, (w', wj.2));
  ParseConError := ParseConError;
  DialErrorConnectionRefused := DialErrorConnectionRefused;
  DialErrorStreamReset := DialErrorStreamReset;
  NoConnError := NoConnError;
|}.

Section Journal.

Context {W : Type} {host : Host W}.

(** The dial attempts of a probe: the calls of [Connect] the host receives
    while [PingPRHolder] runs on it from the world [w]. *)
Definition dialAttempts (rootCtx : Context) (c : CidInfo) (round : Z)
    (pAddr : AddrInfo) (w : W) : list DialAttempt :=
  (PingPRHolder (host := withJournal host) rootCtx c round pAddr (w, [])).2.2.

(** The attempt failed and its error was classified as "connection refused"
    or as "stream reset". *)
Definition retryable (a : DialAttempt) : Prop :=
  exists e, da_err a = Some e /\
    (ParseConError e = DialErrorConnectionRefused \/
     ParseConError e = DialErrorStreamReset).

End Journal.

(** A scripted host for examples.  Each [Connect] takes the next entry of
    the script: how long the dial lasts and what it returns; a dial that
    would outlast the deadline of its context ends at the deadline with the
    context's error.  With the script used up, [Connect] succeeds at once.
    The two lookups last [fk_lookup] each and find nothing. *)
Record Fake := mkFake {
  fk_now : Time;
  fk_dials : list (Duration * option string);
  fk_lookup : Duration;
}.

Definition fakeConnect (ctx : Context) (_ : AddrInfo) (w : Fake)
  : option string * Fake :=
  match fk_dials w with
  | [] => (None, w)
  | (d, e) :: rest =>
      match Deadline ctx with
      | Some dl =>
          if dl <? fk_now w + d
          then (Some "context deadline exceeded",
                mkFake (Z.max dl (fk_now w)) rest (fk_lookup w))
          else (e, mkFake (fk_now w + d) rest (fk_lookup w))
      | None => (e, mkFake (fk_now w + d) rest (fk_lookup w))
      end
  end.

Definition fakeGetProvidersFromPeer (_ : Context) (_ : PeerID) (_ : Cid)
    (w : Fake) : (list AddrInfo * option string) * Fake :=
  (([], None), w).

Definition fakeClosePeer (_ : PeerID) (w : Fake) : option string * Fake :=
  (None, w).

Definition fakeLookupForProviders (_ : Context) (_ : Cid) (w : Fake)
  : (list AddrInfo * option string) * Fake :=
  (([], None), mkFake (fk_now w + fk_lookup w) (fk_dials w) (fk_lookup w)).

Definition fakeGetClosestPeers (_ : Context) (_ : Cid) (w : Fake)
  : (list PeerID * (Z * Z) * option string) * Fake :=
  (([], (0, 0), None),
   mkFake (fk_now w + fk_lookup w) (fk_dials w) (fk_lookup w)).

(** The scripted host; its errors are their own tags. *)
#[export] Instance fakeHost : Host Fake := {|
  Now := fk_now;
  Connect := fakeConnect;
  GetProvidersFromPeer := fakeGetProvidersFromPeer;
  ClosePeer := fakeClosePeer;
  LookupForProviders := fakeLookupForProviders;
  GetClosestPeers := fakeGetClosestPeers;
  ParseConError := fun e => e;
  DialErrorConnectionRefused := "connection refused";
  DialErrorStreamReset := "stream reset";
  NoConnError := "none";
|}.

Definition fakeDialAttempts (rootCtx : Context) (c : CidInfo)
    (pAddr : AddrInfo) (w : Fake) : list DialAttempt :=
  dialAttempts rootCtx c 1 pAddr w.

Definition fakeWorkerRound (rootCtx : Context) (st : WorkerState (W := Fake))
  : option WorkerState :=
  workerRound rootCtx st.

Definition second : Duration := 1000000000.

(** A holder that refuses the first dial after 15 s and accepts the second
    after 1 s. *)
Definition slowRefusal : Fake :=
  mkFake 0 [(15 * second, Some "connection refused"); (1 * second, None)] 0.

(** A holder that refuses the first dial after 15 s and would accept the
    second after 10 s. *)
Definition slowAccept : Fake :=
  mkFake 0 [(15 * second, Some "connection refused"); (10 * second, None)] 0.

Definition holderAddr : AddrInfo :=
  mkAddrInfo "holder" ["/ip4/10.0.0.1/tcp/4001"].


(** A concrete queue: three CIDs added to a new queue, in the order a, b,
    c.  All are due at time 10 and one ping away from [rounds = 1]. *)
Definition threeCids : list CidInfo :=
  [exCid "a" 0 5; exCid "b" 0 6; exCid "c" 0 7].

Definition threeStore : Store :=
  mkStore {[ 0%nat := [0; 1; 2]%nat ]} 1
    (list_to_map [(0%nat, exCid "a" 0 5); (1%nat, exCid "b" 0 6);
                  (2%nat, exCid "c" 0 7)]).

Definition threeQueue : cidQueue :=
  mkQueue (list_to_map [("a", 0%nat); ("b", 1%nat); ("c", 2%nat)])
    (mkSlice 0 3).

Definition oneStore : Store :=
  mkStore {[ 0%nat := [0%nat] ]} 1 {[ 0%nat := exCid "a" 0 5 ]}.

Definition oneQueue : cidQueue :=
  mkQueue {[ "a" := 0%nat ]} (mkSlice 0 1).

(** A CID with a request interval of 60 s that is due at 1 s, in a queue
    of its own; the lookups of its round last 5 s each. *)
Definition dueCid : CidInfo :=
  mkCidInfo "a" "creator" 20 "standard" (60 * second) 0 0 0 [] 0 0 [].

Definition dueState : WorkerState (W := Fake) :=
  mkWorker
    (mkPinger (mkStore {[ 0%nat := [0%nat] ]} 1 {[ 0%nat := dueCid ]})
       (mkQueue {[ "a" := 0%nat ]} (mkSlice 0 1)) [])
    [] (mkFake (1 * second) [] (5 * second)).

(** One pass of the orchestrator at the time of the world, then one round
    of a worker: the result sent to the DB client and the CidInfo after the
    round. *)
Definition passThenRound (inc : CidInfo -> CidInfo) (rounds : Z)
    (st : WorkerState (W := Fake)) : option (CidFetchResults * CidInfo) :=
  let '(_, p) := orchestratorPass inc rounds (fun _ => fk_now (world st))
                   (fun _ => false) (pinger st) in
  match fakeWorkerRound Background
          (mkWorker p (fetchResultC st) (world st)) with
  | None => None
  | Some st' =>
      match last (fetchResultC st'), objs (store (pinger st')) !! 0%nat with
      | Some res, Some ci => Some (res, ci)
      | _, _ => None
      end
  end.

(** [x] is [y] up to one tick of the orchestrator. *)
Definition withinTick (x y : Time) : Prop :=
  y - minIterTime <= x <= y + minIterTime.

(** An [IncreasePingCounter] that also moves NextPing on by ReqInterval. *)
Definition incAndReschedule (c : CidInfo) : CidInfo :=
  set_NextPing (NextPing c + ReqInterval c) (Models.IncreasePingCounter c).

(** *** Properties of the queue *)

Lemma findCid_bounds (s : Store) (k : string) (elems : list ptr)
    (i0 item : nat) :
  findCid s k elems i0 = Some (Some item) ->
  (i0 <= item < i0 + length elems)%nat.
Proof.
  revert i0; induction elems as [|p rest IH]; intros i0 H; simpl in H.
  - discriminate.
  - destruct (objs s !! p) as [c|]; [|discriminate].
    destruct (String.eqb _ _).
    + injection H as <-. simpl; lia.
    + apply IH in H. simpl; lia.
Qed.

(** After [append(sl[:item], sl[item+1:]...)] every slot holds what it held
    before or what the slot behind it held. *)
Lemma deleteAt_slots (arr : list ptr) (len item j : nat) (x : ptr) :
  (item < length (take len arr))%nat ->
  (take item arr ++ drop (S item) (take len arr) ++ drop (len - 1) arr)
    !! j = Some x ->
  arr !! j = Some x \/ arr !! S j = Some x.
Proof.
  intros Hitem H.
  rewrite length_take in Hitem.
  destruct (decide (j < item)%nat) as [Hj|Hj].
  - rewrite lookup_app_l in H by (rewrite length_take; lia).
    rewrite lookup_take_lt in H by lia. by left.
  - rewrite lookup_app_r in H by (rewrite length_take; lia).
    rewrite length_take in H.
    replace (item `min` length arr)%nat with item in H by lia.
    destruct (decide (j - item < length (drop (S item) (take len arr)))%nat)
      as [Hm|Hm].
    + rewrite lookup_app_l in H by done.
      rewrite lookup_drop in H.
      rewrite length_drop, length_take in Hm.
      rewrite lookup_take_lt in H by lia.
      right. rewrite <- H. f_equal. lia.
    + rewrite lookup_app_r in H by lia.
      rewrite length_drop, length_take in Hm, H.
      rewrite lookup_drop in H.
      destruct (decide (len <= length arr)%nat).
      * left. rewrite <- H. f_equal. lia.
      * apply lookup_lt_Some in H. lia.
Qed.

Lemma arrayOf_setArray (s : Store) (a b : nat) (l : list ptr) :
  arrayOf (setArray a l s) b = if decide (a = b) then l else arrayOf s b.
Proof.
  unfold arrayOf, setArray; simpl. rewrite lookup_insert.
  by destruct (decide (a = b)).
Qed.

Lemma arrayOf_setArray_objs (s : Store) (p : ptr) (c : CidInfo) (a : nat) :
  arrayOf (setObj p c s) a = arrayOf s a.
Proof. reflexivity. Qed.

Lemma removeCid_objs (k : string) (s s' : Store) (q q' : cidQueue) :
  removeCid k (s, q) = Some (s', q') -> objs s' = objs s.
Proof.
  unfold removeCid. destruct (decide (Len q = 1%nat)).
  - intros [= <- _]. done.
  - destruct (findCid _ _ _ _) as [[item|]|]; intros [= <- _]; done.
Qed.

Lemma removeCid_next_arr (k : string) (s s' : Store) (q q' : cidQueue) :
  removeCid k (s, q) = Some (s', q') -> (next_arr s <= next_arr s')%nat.
Proof.
  unfold removeCid. destruct (decide (Len q = 1%nat)).
  - intros [= <- _]. simpl. lia.
  - destruct (findCid _ _ _ _) as [[item|]|]; intros [= <- _]; simpl; lia.
Qed.

(** [removeCid] moves elements of an existing array only towards its
    front. *)
Lemma removeCid_slots (k : string) (s s' : Store) (q q' : cidQueue)
    (arr j : nat) (x : ptr) :
  (arr < next_arr s)%nat ->
  removeCid k (s, q) = Some (s', q') ->
  arrayOf s' arr !! j = Some x ->
  arrayOf s arr !! j = Some x \/ arrayOf s arr !! S j = Some x.
Proof.
  intros Harr. unfold removeCid. destruct (decide (Len q = 1%nat)).
  - intros [= <- _]. unfold arrayOf; simpl.
    rewrite lookup_insert_ne by lia. by left.
  - destruct (findCid _ _ _ _) as [[item|]|] eqn:Hfind; intros [= <- _].
    + rewrite arrayOf_setArray. destruct (decide _) as [<-|]; [|by left].
      apply deleteAt_slots. apply findCid_bounds in Hfind.
      unfold sliceElems in Hfind. lia.
    + by left.
Qed.

Lemma elem_of_drop_lookup (l : list ptr) (i j : nat) (x : ptr) :
  l !! j = Some x -> (i <= j)%nat -> x ∈ drop i l.
Proof.
  intros H Hij. apply list_elem_of_lookup. exists (j - i)%nat.
  rewrite lookup_drop. rewrite <- H. f_equal. lia.
Qed.

Example threeQueue_built : queueOf threeCids = Some (threeStore, threeQueue).
Proof. vm_compute. reflexivity. Qed.

Example oneQueue_built : queueOf [exCid "a" 0 5] = Some (oneStore, oneQueue).
Proof. vm_compute. reflexivity. Qed.

(** C10.  On a queue whose cidArray holds exactly one element, removeCid(k)
    empties cidArray for every key k, matching or not, and deletes from
    cidMap the entry of k only; so for a key that is not the element's, the
    element stays in cidMap and is gone from cidArray. *)
Theorem removeCid_one_element (s : Store) (q : cidQueue) (k : string)
    (p : ptr) :
  Len q = 1%nat ->
  queueElems (s, q) = [p] ->
  exists s' q',
    removeCid k (s, q) = Some (s', q') /\
    queueElems (s', q') = [] /\
    cidMap q' = delete k (cidMap q) /\
    forall c, objs s !! p = Some c -> B58String (CID c) <> k ->
      cidMap q !! B58String (CID c) = Some p ->
      cidMap q' !! B58String (CID c) = Some p /\ p ∉ queueElems (s', q').
Proof.
  intros Hlen Helems. unfold removeCid.
  destruct (decide (Len q = 1%nat)) as [_|Hne]; [|done].
  eexists _, _. split; [reflexivity|].
  split; [reflexivity|]. split; [reflexivity|].
  intros c Hc Hk Hmap. simpl. split.
  - rewrite lookup_delete_ne by done. exact Hmap.
  - unfold queueElems; simpl. apply not_elem_of_nil.
Qed.

Lemma removeCid_one_element_witness :
  removeCid "b" (oneStore, oneQueue)
    = Some (mkStore (<[1%nat := []]> (arrays oneStore)) 2 (objs oneStore),
            mkQueue {[ "a" := 0%nat ]} (mkSlice 1 0))
  /\ exists s' q',
    removeCid "b" (oneStore, oneQueue) = Some (s', q') /\
    queueElems (s', q') = [] /\
    cidMap q' = delete "b" (cidMap oneQueue) /\
    forall c, objs oneStore !! 0%nat = Some c -> B58String (CID c) <> "b" ->
      cidMap oneQueue !! B58String (CID c) = Some 0%nat ->
      cidMap q' !! B58String (CID c) = Some 0%nat
      /\ 0%nat ∉ queueElems (s', q').
Proof.
  split; [vm_compute; reflexivity|].
  apply (removeCid_one_element oneStore oneQueue "b" 0%nat);
    vm_compute; reflexivity.
Defined.

(** *** Properties of the orchestrator's pass *)

(** A pass from slot [i] on touches only the pointers that the array holds
    in slot [i] or behind it: no other pointer is sent to the task channel
    and no other object changes. *)
Lemma scanRange_tail (inc : CidInfo -> CidInfo) (rounds : Z)
    (clock : nat -> Time) (cancelled : nat -> bool) (arr rem : nat) :
  forall (i : nat) (st : PingerState) (e : ScanExit) (st' : PingerState),
  (arr < next_arr (store st))%nat ->
  scanRange inc rounds clock cancelled arr rem i st = (e, st') ->
  forall p, p ∉ drop i (arrayOf (store st) arr) ->
    (p ∈ pingTaskC st' -> p ∈ pingTaskC st) /\
    objs (store st') !! p = objs (store st) !! p.
Proof.
  induction rem as [|rem IH]; intros i st e st' Harr H p Hp; simpl in H.
  { injection H as _ <-. done. }
  destruct (cancelled i); [injection H as _ <-; done|].
  destruct (arrayOf (store st) arr !! i) as [c|] eqn:Hslot;
    [|injection H as _ <-; done].
  destruct (objs (store st) !! c) as [ci|] eqn:Hobj;
    [|injection H as _ <-; done].
  destruct (notInTime (clock i) ci); [injection H as _ <-; done|].
  assert (Hpc : p <> c).
  { intros ->. apply Hp. eapply elem_of_drop_lookup; [exact Hslot|lia]. }
  assert (Htasks : p ∈ pingTaskC st ++ [c] -> p ∈ pingTaskC st).
  { rewrite elem_of_app, list_elem_of_singleton. intros [?|?]; done. }
  destruct (rounds <=? GetPingCounter (inc ci)).
  - destruct (removeCid _ _) as [[s2 q2]|] eqn:Hrm.
    + apply IH with (p := p) in H.
      * destruct H as [H1 H2]; simpl in H1, H2. split; [tauto|].
        rewrite H2, (removeCid_objs _ _ _ _ _ Hrm). simpl.
        by rewrite lookup_insert_ne.
      * simpl. apply removeCid_next_arr in Hrm. simpl in Hrm. lia.
      * simpl. intros Hin. apply list_elem_of_lookup in Hin as [j Hj].
        rewrite lookup_drop in Hj.
        assert (Harr' : (arr < next_arr (setObj c (inc ci) (store st)))%nat)
          by exact Harr.
        eapply removeCid_slots in Hj; [|exact Harr'|exact Hrm].
        apply Hp. destruct Hj as [Hj|Hj];
          (eapply elem_of_drop_lookup; [exact Hj|lia]).
    + injection H as _ <-. simpl. split; [done|].
      by rewrite lookup_insert_ne.
  - apply IH with (p := p) in H.
    + destruct H as [H1 H2]; simpl in H1, H2. split; [tauto|].
      rewrite H2. by rewrite lookup_insert_ne.
    + done.
    + simpl. intros Hin. apply Hp.
      apply list_elem_of_lookup in Hin as [j Hj]. rewrite lookup_drop in Hj.
      eapply elem_of_drop_lookup; [exact Hj|lia].
Qed.

Lemma scanRange_S (inc : CidInfo -> CidInfo) (rounds : Z)
    (clock : nat -> Time) (cancelled : nat -> bool) (arr rem i : nat)
    (st : PingerState) :
  scanRange inc rounds clock cancelled arr (S rem) i st =
    if cancelled i then (Shutdown, st) else
    match arrayOf (store st) arr !! i with
    | None => (NilDeref, st)
    | Some c =>
        match objs (store st) !! c with
        | None => (NilDeref, st)
        | Some ci =>
            if notInTime (clock i) ci then (NotInTime, st) else
            let s1 := setObj c (inc ci) (store st) in
            let tasks := pingTaskC st ++ [c] in
            if rounds <=? GetPingCounter (inc ci) then
              match removeCid (B58String (CID ci)) (s1, cidQ st) with
              | None => (NilDeref, mkPinger s1 (cidQ st) tasks)
              | Some (s2, q2) =>
                  scanRange inc rounds clock cancelled arr rem (S i)
                    (mkPinger s2 q2 tasks)
              end
            else scanRange inc rounds clock cancelled arr rem (S i)
                   (mkPinger s1 (cidQ st) tasks)
        end
    end.
Proof. reflexivity. Qed.

Lemma duePrefix_insert (clock : nat -> Time) (os : gmap ptr CidInfo)
    (p : ptr) (c : CidInfo) (ps : list ptr) :
  forall i, p ∉ ps ->
  duePrefix clock (<[p := c]> os) i ps = duePrefix clock os i ps.
Proof.
  induction ps as [|q ps IH]; intros i Hp; [done|].
  apply not_elem_of_cons in Hp as [Hpq Hp]. simpl.
  rewrite lookup_insert_ne by done.
  destruct (os !! q); [|done]. destruct (notInTime _ _); [done|].
  by rewrite IH.
Qed.

(** A pass in which no CID reaches [rounds], over distinct pointers and
    with the context alive, sends to the task channel the CIDs from slot [i]
    on, in order, up to the first whose time has not come, and leaves the
    queue as it is. *)
Lemma scanRange_no_removal (inc : CidInfo -> CidInfo) (rounds : Z)
    (clock : nat -> Time) (cancelled : nat -> bool) (arr rem : nat) :
  forall (i : nat) (st : PingerState),
  (forall j, cancelled j = false) ->
  NoDup (take rem (drop i (arrayOf (store st) arr))) ->
  (forall p c, p ∈ take rem (drop i (arrayOf (store st) arr)) ->
     objs (store st) !! p = Some c -> GetPingCounter (inc c) < rounds) ->
  let st' := (scanRange inc rounds clock cancelled arr rem i st).2 in
  pingTaskC st'
    = pingTaskC st
      ++ duePrefix clock (objs (store st)) i
           (take rem (drop i (arrayOf (store st) arr))) /\
  cidQ st' = cidQ st /\
  arrays (store st') = arrays (store st).
Proof.
  induction rem as [|rem IH]; intros i st Hctx Hnd Hlow; cbn zeta.
  { simpl. by rewrite app_nil_r. }
  rewrite scanRange_S, Hctx.
  destruct (arrayOf (store st) arr !! i) as [p|] eqn:Hslot.
  2: { apply lookup_ge_None in Hslot. rewrite drop_ge by lia.
       simpl. by rewrite app_nil_r. }
  rewrite (drop_S _ _ _ Hslot) in Hnd, Hlow |- *.
  rewrite firstn_cons in Hnd, Hlow |- *.
  apply NoDup_cons in Hnd as [Hp Hnd]. cbn [duePrefix].
  destruct (objs (store st) !! p) as [c|] eqn:Hobj;
    [|simpl; by rewrite app_nil_r].
  destruct (notInTime (clock i) c); [simpl; by rewrite app_nil_r|].
  cbn zeta.
  assert (Hc : GetPingCounter (inc c) < rounds).
  { eapply Hlow; [|exact Hobj]. apply elem_of_cons. by left. }
  apply Z.leb_gt in Hc. rewrite Hc.
  specialize (IH (S i) (mkPinger (setObj p (inc c) (store st)) (cidQ st)
                          (pingTaskC st ++ [p])) Hctx).
  cbn zeta in IH. cbn [store cidQ pingTaskC] in IH.
  rewrite !arrayOf_setArray_objs in IH.
  destruct IH as (Htasks & Hq & Harr).
  - exact Hnd.
  - intros q cq Hq Hcq. simpl in Hcq.
    rewrite lookup_insert_ne in Hcq by (intros ->; done).
    eapply Hlow; [|exact Hcq]. apply elem_of_cons. by right.
  - rewrite Htasks, Hq, Harr. simpl.
    rewrite duePrefix_insert by done. rewrite <- app_assoc. done.
Qed.

(** Removing the key of the first of three elements: the two behind it move
    down and the last slot keeps its pointer. *)
Lemma removeCid_front (k : string) (s : Store) (q : cidQueue)
    (pa pb pc : ptr) (a : CidInfo) :
  Len q = 3%nat ->
  arrayOf s (sl_arr (cidArray q)) = [pa; pb; pc] ->
  objs s !! pa = Some a ->
  B58String (CID a) = k ->
  removeCid k (s, q)
    = Some (setArray (sl_arr (cidArray q)) [pb; pc; pc] s,
            mkQueue (delete k (cidMap q)) (mkSlice (sl_arr (cidArray q)) 2)).
Proof.
  intros Hlen Harr Ha Hk. unfold removeCid.
  destruct (decide (Len q = 1%nat)) as [Hone|_]; [rewrite Hlen in Hone; done|].
  unfold sliceElems, deleteAt. unfold Len in Hlen. rewrite Hlen, Harr.
  cbn [take findCid]. rewrite Ha, Hk, String.eqb_refl. reflexivity.
Qed.

(** C6, at the input where the code departs from it.  The queue holds a, b,
    c in this order; a is due and its ping reaches [rounds], so [removeCid]
    takes it out of the slice the loop is ranging over.  The element b
    moves into the slot the loop has just left: the pass never sends b to
    the task channel and never increments its counter, whether b is due or
    not. *)
Theorem orchestratorPass_skips_after_removal (inc : CidInfo -> CidInfo)
    (rounds : Z) (clock : nat -> Time) (cancelled : nat -> bool)
    (s : Store) (q : cidQueue) (pa pb pc : ptr) (a : CidInfo)
    (tasks : list ptr) (e : ScanExit) (st' : PingerState) :
  (sl_arr (cidArray q) < next_arr s)%nat ->
  Len q = 3%nat ->
  arrayOf s (sl_arr (cidArray q)) = [pa; pb; pc] ->
  pb <> pa -> pb <> pc ->
  objs s !! pa = Some a ->
  CID (inc a) = CID a ->
  cancelled 0%nat = false ->
  notInTime (clock 0%nat) a = false ->
  rounds <= GetPingCounter (inc a) ->
  orchestratorPass inc rounds clock cancelled (mkPinger s q tasks)
    = (e, st') ->
  (pb ∈ pingTaskC st' -> pb ∈ tasks) /\
  objs (store st') !! pb = objs s !! pb.
Proof.
  intros Hnext Hlen Harr Hba Hbc Ha Hcid Hcancel Hdue Hrounds.
  unfold orchestratorPass. cbn [store cidQ pingTaskC]. rewrite Hlen.
  rewrite scanRange_S. cbn [store cidQ pingTaskC].
  rewrite Hcancel, Harr. cbn [lookup list_lookup]. rewrite Ha, Hdue.
  apply Z.leb_le in Hrounds. rewrite Hrounds.
  rewrite (removeCid_front _ _ _ pa pb pc (inc a)); try done.
  2: { simpl. apply lookup_insert_eq. }
  intros H. eapply scanRange_tail with (p := pb) in H.
  - destruct H as [H1 H2]; simpl in H1, H2. split.
    + intros Hin. apply H1 in Hin.
      rewrite elem_of_app, list_elem_of_singleton in Hin.
      destruct Hin; done.
    + rewrite H2. by rewrite lookup_insert_ne.
  - simpl. exact Hnext.
  - cbn [store]. rewrite arrayOf_setArray. rewrite decide_True by done.
    simpl. rewrite !elem_of_cons. intros [?|[?|?%elem_of_nil]]; done.
Qed.

Example orchestratorPass_three_due :
  let r := orchestratorPass Models.IncreasePingCounter 1 (fun _ => 10)
             (fun _ => false) (mkPinger threeStore threeQueue []) in
  r.1 = RangeDone /\
  pingTaskC r.2 = [0; 2; 2]%nat /\
  queueElems (store r.2, cidQ r.2) = [] /\
  PingCounter <$> objs (store r.2) !! 1%nat = Some 0 /\
  notInTime 10 (exCid "b" 0 6) = false.
Proof. vm_compute. repeat split; reflexivity. Qed.

Lemma orchestratorPass_skips_witness :
  let r := orchestratorPass Models.IncreasePingCounter 1 (fun _ => 10)
             (fun _ => false) (mkPinger threeStore threeQueue []) in
  notInTime 10 (exCid "b" 0 6) = false /\
  (1%nat ∈ pingTaskC r.2 -> 1%nat ∈ @nil ptr) /\
  objs (store r.2) !! 1%nat = objs threeStore !! 1%nat.
Proof.
  split; [reflexivity|].
  apply (orchestratorPass_skips_after_removal Models.IncreasePingCounter 1
           (fun _ => 10) (fun _ => false) threeStore threeQueue
           0%nat 1%nat 2%nat (exCid "a" 0 5) []
           (orchestratorPass Models.IncreasePingCounter 1 (fun _ => 10)
              (fun _ => false) (mkPinger threeStore threeQueue [])).1);
    try (vm_compute; first [reflexivity | lia | discriminate]).
  all: try (vm_compute; intros H; discriminate H).
  all: try apply surjective_pairing.
Defined.

(** *** Properties of the holder probe and of the worker *)

Section DialFacts.

Context {W : Type} {host : Host W}.

(** On a host with a journal the dial loop does what it does on the host
    itself, and the journal grows by the calls of [Connect] the loop makes:
    at most [rem], at least one when [rem] is positive, each with
    [pingCtx] and [pAddr], each but the last retryable; and the loop's
    result is read off the last of them. *)
Lemma dialLoop_journal (rootCtx pingCtx : Context) (c : CidInfo)
    (pAddr : AddrInfo) (rem : nat) :
  forall (connError : string) (w : W) (l : list DialAttempt),
  exists log,
    dialLoop (host := withJournal host) rootCtx pingCtx c pAddr rem
        connError (w, l)
      = ((dialLoop rootCtx pingCtx c pAddr rem connError w).1,
         ((dialLoop rootCtx pingCtx c pAddr rem connError w).2, l ++ log)) /\
    (length log <= rem)%nat /\
    ((0 < rem)%nat -> (0 < length log)%nat) /\
    Forall (fun a => da_ctx a = pingCtx /\ da_addr a = pAddr) log /\
    (forall i a, log !! i = Some a ->
       (is_Some (log !! S i) <-> (S i < rem)%nat /\ retryable a)) /\
    ((dialLoop rootCtx pingCtx c pAddr rem connError w).1.1.2 = true ->
     (dialLoop rootCtx pingCtx c pAddr rem connError w).1.1.1 = true) /\
    match last log with
    | Some a =>
        (dialLoop rootCtx pingCtx c pAddr rem connError w).1.1.1
          = match da_err a with None => true | Some _ => false end /\
        (dialLoop rootCtx pingCtx c pAddr rem connError w).1.2
          = match da_err a with
            | None => NoConnError
            | Some e => ParseConError e
            end
    | None =>
        (dialLoop rootCtx pingCtx c pAddr rem connError w).1.1.1 = false /\
        (dialLoop rootCtx pingCtx c pAddr rem connError w).1.2 = connError
    end.
Proof.
  induction rem as [|rem IH]; intros connError w l.
  { exists []. simpl. rewrite app_nil_r. repeat split; try lia; try done. }
  cbn [dialLoop].
  change (Connect (Host := withJournal host) pingCtx pAddr (w, l))
    with (journalConnect pingCtx pAddr (w, l)).
  unfold journalConnect. cbn [fst snd].
  destruct (Connect pingCtx pAddr w) as [[e|] w1].
  - change (ParseConError (Host := withJournal host) e)
      with (ParseConError e).
    change (DialErrorConnectionRefused (Host := withJournal host))
      with (DialErrorConnectionRefused (Host := host)).
    change (DialErrorStreamReset (Host := withJournal host))
      with (DialErrorStreamReset (Host := host)).
    destruct (negb _ && negb _) eqn:Hbreak.
    + exists [mkDial pingCtx pAddr (Now w) (Some e)]. cbn [fst snd].
      split; [reflexivity|]. simpl. split; [lia|]. split; [lia|].
      split; [by repeat constructor|]. split; [|done].
      intros [|i] a Ha; [|done]. injection Ha as <-. split.
      * intros [? ?]; done.
      * intros [_ (e' & [= <-] & Hr)]. exfalso.
        apply andb_true_iff in Hbreak as [H1 H2].
        apply negb_true_iff, String.eqb_neq in H1, H2. tauto.
    + destruct (IH (ParseConError e) w1
                  (l ++ [mkDial pingCtx pAddr (Now w) (Some e)]))
        as (log & Heq & Hlen & Hpos & Hctx & Hnext & Hrec & Hlast).
      exists (mkDial pingCtx pAddr (Now w) (Some e) :: log).
      rewrite Heq, <- app_assoc. split; [reflexivity|].
      simpl. split; [lia|]. split; [lia|].
      split; [by constructor|]. split; [|split; [exact Hrec|]].
      * intros [|i] a Ha.
        -- injection Ha as <-. simpl. rewrite lookup_lt_is_Some. split.
           ++ intros Hl. split; [lia|]. exists e. split; [done|].
              apply andb_false_iff in Hbreak as [H|H];
                apply negb_false_iff, String.eqb_eq in H; tauto.
           ++ intros [Hl _]. apply Hpos. lia.
        -- simpl in Ha |- *. rewrite (Hnext i a Ha). split; intros [? ?];
             (split; [lia|done]).
      * rewrite last_cons.
        destruct (last log); [exact Hlast|]. simpl. exact Hlast.
  - change (GetProvidersFromPeer (Host := withJournal host) rootCtx
              (ai_ID pAddr) (CID c)
              (w1, l ++ [mkDial pingCtx pAddr (Now w) None]))
      with (let '(r, w') :=
              GetProvidersFromPeer rootCtx (ai_ID pAddr) (CID c) w1 in
            (r, (w', l ++ [mkDial pingCtx pAddr (Now w) None]))).
    destruct (GetProvidersFromPeer rootCtx (ai_ID pAddr) (CID c) w1)
      as [[provs ?] w2].
    change (ClosePeer (Host := withJournal host) (ai_ID pAddr)
              (w2, l ++ [mkDial pingCtx pAddr (Now w) None]))
      with (let '(r, w') := ClosePeer (ai_ID pAddr) w2 in
            (r, (w', l ++ [mkDial pingCtx pAddr (Now w) None]))).
    destruct (ClosePeer (ai_ID pAddr) w2) as [? w3].
    exists [mkDial pingCtx pAddr (Now w) None]. cbn [fst snd].
    split; [reflexivity|]. simpl. split; [lia|]. split; [lia|].
    split; [by repeat constructor|]. split; [|done].
    intros [|i] a Ha; [|done]. injection Ha as <-. split.
    + intros [? ?]; done.
    + intros [_ (e' & He & _)]. done.
Qed.

(** A probe on a host with a journal: the result and the world are those of
    the probe on the host, and the journal is that of the dial loop. *)
Lemma PingPRHolder_journal (rootCtx : Context) (c : CidInfo) (round : Z)
    (pAddr : AddrInfo) (w : W) :
  let pingCtx := WithTimeout rootCtx (Now w) DialTimeout in
  let r := dialLoop rootCtx pingCtx c pAddr maxDialAttempts EmptyString w in
  let log := dialAttempts rootCtx c round pAddr w in
  PingPRHolder rootCtx c round pAddr w
    = (NewPRPingResults (CID c) (ai_ID pAddr) round (Now w)
         (Now r.2 - Now w) r.1.1.1 r.1.1.2 r.1.2, r.2) /\
  (1 <= length log <= maxDialAttempts)%nat /\
  Forall (fun a => da_ctx a = pingCtx /\ da_addr a = pAddr) log /\
  (forall i a, log !! i = Some a ->
     (is_Some (log !! S i) <-> (S i < maxDialAttempts)%nat /\ retryable a)) /\
  (r.1.1.2 = true -> r.1.1.1 = true) /\
  exists a, last log = Some a /\
    r.1.1.1 = match da_err a with None => true | Some _ => false end /\
    r.1.2 = match da_err a with
            | None => NoConnError
            | Some e => ParseConError e
            end.
Proof.
  cbn zeta. unfold dialAttempts, PingPRHolder.
  change (Now (Host := withJournal host) (w, [])) with (Now w).
  destruct (dialLoop_journal rootCtx
              (WithTimeout rootCtx (Now w) DialTimeout) c pAddr
              maxDialAttempts EmptyString w [])
    as (log & Heq & Hlen & Hpos & Hctx & Hnext & Hrec & Hlast).
  rewrite Heq.
  destruct (dialLoop rootCtx _ c pAddr maxDialAttempts EmptyString w)
    as [[[active hasRecords] connError] w'].
  cbn [fst snd app] in *.
  split; [reflexivity|].
  assert (0 < length log)%nat as Hl by (apply Hpos; unfold maxDialAttempts; lia).
  split; [lia|]. split; [exact Hctx|]. split; [exact Hnext|].
  split; [exact Hrec|].
  destruct (last log) as [a|] eqn:Ha.
  - exists a. done.
  - apply last_None in Ha. subst log. simpl in Hl. lia.
Qed.

(** C5.  A probe makes at least one and at most maxDialAttempts (3) dial
    attempts, counted as the calls of [Connect] that the host receives; an
    attempt is followed by another one exactly when it failed with an error
    classified as "connection refused" or "stream reset" and the bound is
    not reached: an attempt that succeeded, or failed with any other error,
    is the last. *)
Theorem PingPRHolder_dial_attempts (rootCtx : Context) (c : CidInfo)
    (round : Z) (pAddr : AddrInfo) (w : W) :
  let log := dialAttempts rootCtx c round pAddr w in
  (1 <= length log <= 3)%nat /\
  Forall (fun a => da_addr a = pAddr) log /\
  forall i a, log !! i = Some a ->
    (is_Some (log !! S i) <-> (S i < 3)%nat /\ retryable a).
Proof.
  cbn zeta.
  destruct (PingPRHolder_journal rootCtx c round pAddr w)
    as (_ & Hlen & Hctx & Hnext & _).
  split; [exact Hlen|]. split; [|exact Hnext].
  eapply Forall_impl; [exact Hctx|]. by intros a [_ ?].
Qed.

(** C4, as the code has it.  Every call of [Connect] that the host receives
    during a probe is handed the same context: the one made before the
    attempt loop by [context.WithTimeout(p.ctx, DialTimeout)].  Its deadline
    is 20 s after the start of the probe, whatever time the attempt starts
    at, and it is done whenever the root context is done. *)
Theorem PingPRHolder_one_dial_context (rootCtx : Context) (c : CidInfo)
    (round : Z) (pAddr : AddrInfo) (w : W) :
  let pingCtx := WithDeadline rootCtx (Now w + 20 * 1000000000) in
  Forall (fun a => da_ctx a = pingCtx) (dialAttempts rootCtx c round pAddr w)
  /\ forall cancels now,
       ctxDone cancels now rootCtx = true ->
       ctxDone cancels now pingCtx = true.
Proof.
  cbn zeta. split.
  - destruct (PingPRHolder_journal rootCtx c round pAddr w)
      as (_ & _ & Hctx & _).
    eapply Forall_impl; [exact Hctx|]. by intros a [? _].
  - intros cancels now H. simpl. rewrite H. apply orb_true_r.
Qed.

End DialFacts.

Section WorkerFacts.

Context {W : Type} {host : Host W}.

Lemma fetchRound_FinishTime (rootCtx : Context) (c : CidInfo) (w : W) :
  fr_FinishTime (fetchRound rootCtx c w).1 = Now (fetchRound rootCtx c w).2.
Proof.
  unfold fetchRound.
  destruct (LookupForProviders rootCtx (CID c) w) as [[providers ?] w1].
  destruct (GetClosestPeers rootCtx (CID c) w1)
    as [[[closestPeers [total toClosest]] ?] w2].
  destruct (pingHolders _ _ _ _ _ _) as [res w3].
  reflexivity.
Qed.

(** C3, as the code has it.  A worker's round takes the task from the
    channel, sets the round's FinishTime to the clock at the end of the
    round and hands the result to the DB client; it writes nothing to the
    CidInfo: NextPing (like every other field) is what it was when the task
    was received. *)
Theorem workerRound_keeps_NextPing (rootCtx : Context)
    (st st' : WorkerState) :
  workerRound rootCtx st = Some st' ->
  exists c tasks ci res,
    pingTaskC (pinger st) = c :: tasks /\
    objs (store (pinger st)) !! c = Some ci /\
    fetchResultC st' = fetchResultC st ++ [res] /\
    fr_FinishTime res = Now (world st') /\
    store (pinger st') = store (pinger st) /\
    NextPing <$> objs (store (pinger st')) !! c = Some (NextPing ci).
Proof.
  unfold workerRound.
  destruct (pingTaskC (pinger st)) as [|c tasks]; [done|].
  destruct (objs (store (pinger st)) !! c) as [ci|] eqn:Hobj; [|done].
  pose proof (fetchRound_FinishTime rootCtx ci (world st)) as Hfin.
  destruct (fetchRound rootCtx ci (world st)) as [res w'].
  intros [= <-]. exists c, tasks, ci, res. simpl in *.
  rewrite Hobj. done.
Qed.

End WorkerFacts.

(** C4 as stated fails.  A holder refuses the first dial after 15 s: the
    second call of [Connect] starts at 15 s under the deadline of 20 s made
    for the first, not under one of its own at 35 s; and with the root
    context cancelled the context of the dial is done at once.  When the
    second dial needs 10 s to connect it is cut off at 20 s, after 5 s, and
    the probe reports the holder as not active. *)
Lemma PingPRHolder_dial_deadline_shared :
  (exists a,
     fakeDialAttempts (WithCancel Background 0) (exCid "a" 1 0) holderAddr
       slowRefusal !! 1%nat = Some a /\
     da_start a = 15 * second /\
     Deadline (da_ctx a) = Some (20 * second) /\
     Deadline (da_ctx a) <> Some (da_start a + DialTimeout) /\
     ctxDone (fun _ => false) (da_start a) (da_ctx a) = false /\
     ctxDone (fun _ => true) (da_start a) (da_ctx a) = true) /\
  (exists a r w',
     fakeDialAttempts (WithCancel Background 0) (exCid "a" 1 0) holderAddr
       slowAccept = [mkDial (WithDeadline (WithCancel Background 0)
                               (20 * second))
                       holderAddr 0 (Some "connection refused"); a] /\
     da_start a = 15 * second /\
     da_start a + 10 * second < da_start a + DialTimeout /\
     da_err a = Some "context deadline exceeded" /\
     PingPRHolder (WithCancel Background 0) (exCid "a" 1 0) 1 holderAddr
       slowAccept = (r, w') /\
     pr_Active r = false /\
     pr_ConnError r = "context deadline exceeded" /\
     pr_FetchDuration r = 20 * second).
Proof.
  split.
  - eexists. split; [vm_compute; reflexivity|].
    vm_compute. repeat split; try reflexivity. intros H; discriminate H.
  - eexists _, _, _. split; [vm_compute; reflexivity|].
    split; [vm_compute; reflexivity|].
    split; [vm_compute; reflexivity|].
    split; [vm_compute; reflexivity|].
    split; [vm_compute; reflexivity|].
    vm_compute. repeat split; reflexivity.
Qed.

(** A holder that resets the stream, refuses, and resets again: three
    attempts and no fourth.  A holder that is unreachable: one attempt. *)
Example dial_attempts_examples :
  da_err <$> fakeDialAttempts Background (exCid "a" 1 0) holderAddr
               (mkFake 0 [(second, Some "stream reset");
                          (second, Some "connection refused");
                          (second, Some "stream reset");
                          (second, None)] 0)
    = [Some "stream reset"; Some "connection refused"; Some "stream reset"]
  /\
  da_err <$> fakeDialAttempts Background (exCid "a" 1 0) holderAddr
               (mkFake 0 [(second, Some "no route to host");
                          (second, None)] 0)
    = [Some "no route to host"].
Proof. split; vm_compute; reflexivity. Qed.

Lemma PingPRHolder_dial_attempts_witness :
  let log := fakeDialAttempts (WithCancel Background 0) (exCid "a" 1 0)
               holderAddr slowRefusal in
  (1 <= length log <= 3)%nat /\
  Forall (fun a => da_addr a = holderAddr) log /\
  forall i a, log !! i = Some a ->
    (is_Some (log !! S i) <-> (S i < 3)%nat /\ retryable a).
Proof.
  apply (PingPRHolder_dial_attempts (WithCancel Background 0)
           (exCid "a" 1 0) 1 holderAddr slowRefusal).
Defined.

(** C3 as stated fails.  The round of [dueCid] starts at 1 s and commits at
    11 s; NextPing after it is not 71 s up to a tick: it is what the
    orchestrator left before the round started, 0 s when
    [IncreasePingCounter] only counts, and 60 s when it also adds
    ReqInterval to NextPing. *)
Lemma NextPing_not_from_FinishTime :
  (exists res ci,
     passThenRound Models.IncreasePingCounter 3 dueState = Some (res, ci) /\
     fr_FinishTime res = 11 * second /\ ReqInterval ci = 60 * second /\
     NextPing ci = 0 /\
     ~ withinTick (NextPing ci) (fr_FinishTime res + ReqInterval ci)) /\
  (exists res ci,
     passThenRound incAndReschedule 3 dueState = Some (res, ci) /\
     fr_FinishTime res = 11 * second /\ ReqInterval ci = 60 * second /\
     NextPing ci = 60 * second /\
     ~ withinTick (NextPing ci) (fr_FinishTime res + ReqInterval ci)).
Proof.
  split; eexists _, _; (split; [vm_compute; reflexivity|]);
    unfold withinTick, minIterTime, second; simpl; repeat split; lia.
Qed.

Lemma workerRound_keeps_NextPing_witness :
  let st := mkWorker
              (mkPinger (store (pinger dueState)) (cidQ (pinger dueState))
                 [0%nat])
              [] (world dueState) in
  exists st', fakeWorkerRound Background st = Some st' /\
  exists c tasks ci res,
    pingTaskC (pinger st) = c :: tasks /\
    objs (store (pinger st)) !! c = Some ci /\
    fetchResultC st' = fetchResultC st ++ [res] /\
    fr_FinishTime res = Now (world st') /\
    store (pinger st') = store (pinger st) /\
    NextPing <$> objs (store (pinger st')) !! c = Some (NextPing ci).
Proof.
  cbn zeta. eexists. split; [vm_compute; reflexivity|].
  apply (workerRound_keeps_NextPing Background).
  vm_compute. reflexivity.
Defined.


(** *** The queue: insert, lookup and removal *)

(** The object behind [p] has the key [k], or has another key. *)
Definition hasKey (s : Store) (k : string) (p : ptr) : Prop :=
  exists c, objs s !! p = Some c /\ B58String (CID c) = k.

Definition lacksKey (s : Store) (k : string) (p : ptr) : Prop :=
  exists c, objs s !! p = Some c /\ B58String (CID c) <> k.

(** [append] puts the element behind the elements of the slice, whether it
    writes into the array in place or grows it. *)
Lemma sliceElems_appendSlice (s : Store) (sl : Slice) (p : ptr) :
  sliceElems (appendSlice s sl p).1 (appendSlice s sl p).2
    = sliceElems s sl ++ [p].
Proof.
  unfold sliceElems, appendSlice. cbn [fst snd sl_arr sl_len].
  rewrite arrayOf_setArray, decide_True by done.
  destruct (decide (sl_len sl < length (arrayOf s (sl_arr sl)))%nat)
    as [Hlt|Hge].
  - rewrite (take_S_r _ _ p) by (by apply list_lookup_insert_eq).
    by rewrite take_insert_ge by lia.
  - rewrite (take_ge (take _ _ ++ _))
      by (rewrite length_app, length_take; simpl; lia).
    done.
Qed.

Lemma addCid_Some (s : Store) (q : cidQueue) (p : ptr) (ci : CidInfo) :
  objs s !! p = Some ci ->
  addCid p (s, q)
    = Some ((appendSlice s (cidArray q) p).1,
            mkQueue (<[B58String (CID ci) := p]> (cidMap q))
              (appendSlice s (cidArray q) p).2).
Proof. intros H. unfold addCid. rewrite H. reflexivity. Qed.

(** The elements the slice has after [append(sl[:item], sl[item+1:]...)]. *)
Lemma sliceElems_deleteAt (s : Store) (sl : Slice) (item : nat) :
  (item < length (sliceElems s sl))%nat ->
  sliceElems (deleteAt s sl item).1 (deleteAt s sl item).2
    = take item (sliceElems s sl) ++ drop (S item) (sliceElems s sl).
Proof.
  unfold sliceElems, deleteAt. cbn [fst snd sl_arr sl_len].
  rewrite arrayOf_setArray, decide_True by done.
  set (arr := arrayOf s (sl_arr sl)). set (len := sl_len sl).
  rewrite length_take. intros Hitem.
  rewrite take_take. replace (item `min` len)%nat with item by lia.
  rewrite app_assoc.
  destruct (decide (len <= length arr)%nat) as [Hle|Hgt].
  - apply take_app_length'.
    rewrite length_app, length_take, length_drop, length_take. lia.
  - rewrite (drop_ge arr) by lia. rewrite app_nil_r.
    apply take_ge.
    rewrite length_app, length_take, length_drop, length_take. lia.
Qed.

Lemma findCid_no_match (s : Store) (k : string) (l : list ptr) :
  forall i0, Forall (lacksKey s k) l -> findCid s k l i0 = Some None.
Proof.
  induction l as [|p l IH]; intros i0 H; [done|].
  apply Forall_cons in H as [(c & Hc & Hk) H]. simpl. rewrite Hc.
  apply String.eqb_neq in Hk. rewrite Hk. by apply IH.
Qed.

Lemma findCid_first_match (s : Store) (k : string) (l1 l2 : list ptr)
    (p : ptr) :
  forall i0, Forall (lacksKey s k) l1 -> hasKey s k p ->
  findCid s k (l1 ++ p :: l2) i0 = Some (Some (i0 + length l1)%nat).
Proof.
  induction l1 as [|p1 l1 IH]; intros i0 H (c & Hc & Hk); simpl.
  - rewrite Hc. apply String.eqb_eq in Hk. rewrite Hk.
    do 2 f_equal. lia.
  - apply Forall_cons in H as [(c1 & Hc1 & Hk1) H]. rewrite Hc1.
    apply String.eqb_neq in Hk1. rewrite Hk1.
    rewrite IH by (done || by exists c). do 2 f_equal. lia.
Qed.

(** A list of pointers to objects has no element with the key, or splits at
    the first that has it. *)
Lemma first_with_key (s : Store) (k : string) (l : list ptr) :
  Forall (fun p => is_Some (objs s !! p)) l ->
  Forall (lacksKey s k) l \/
  exists l1 p l2, l = l1 ++ p :: l2 /\ Forall (lacksKey s k) l1 /\
                  hasKey s k p.
Proof.
  induction l as [|p l IH]; intros H; [by left|].
  apply Forall_cons in H as [[c Hc] H].
  destruct (decide (B58String (CID c) = k)) as [Hk|Hk].
  - right. exists [], p, l. split; [done|]. split; [done|]. by exists c.
  - destruct (IH H) as [Hnone|(l1 & p' & l2 & -> & Hl1 & Hp')].
    + left. constructor; [by exists c|done].
    + right. exists (p :: l1), p', l2. split; [done|].
      split; [|done]. constructor; [by exists c|done].
Qed.

(** What [removeCid] does to a queue whose length is not one, in the two
    cases of its search. *)
Lemma removeCid_no_match (k : string) (s : Store) (q : cidQueue) :
  Len q <> 1%nat ->
  Forall (lacksKey s k) (queueElems (s, q)) ->
  removeCid k (s, q) = Some (s, mkQueue (delete k (cidMap q)) (cidArray q)).
Proof.
  intros Hlen Hnone. unfold removeCid.
  rewrite decide_False by done.
  unfold queueElems in Hnone; cbn [fst snd] in Hnone.
  by rewrite (findCid_no_match _ _ _ 0%nat Hnone).
Qed.

Lemma removeCid_match (k : string) (s : Store) (q : cidQueue)
    (l1 l2 : list ptr) (p : ptr) :
  Len q <> 1%nat ->
  queueElems (s, q) = l1 ++ p :: l2 ->
  Forall (lacksKey s k) l1 -> hasKey s k p ->
  exists s' q',
    removeCid k (s, q) = Some (s', q') /\
    cidMap q' = delete k (cidMap q) /\
    objs s' = objs s /\
    Len q' = (Len q - 1)%nat /\
    queueElems (s', q') = l1 ++ l2.
Proof.
  intros Hlen Hsplit Hl1 Hp. unfold removeCid.
  rewrite decide_False by done.
  unfold queueElems in Hsplit; cbn [fst snd] in Hsplit.
  rewrite Hsplit, (findCid_first_match _ _ _ _ _ 0%nat Hl1 Hp). cbn [Nat.add].
  pose proof (sliceElems_deleteAt s (cidArray q) (length l1)) as Hdel.
  rewrite Hsplit in Hdel.
  destruct (deleteAt s (cidArray q) (length l1)) as [s' sl] eqn:E.
  eexists _, _. split; [reflexivity|]. split; [reflexivity|].
  split; [by injection E as <- _|].
  split; [by injection E as _ <-|].
  unfold queueElems; cbn [fst snd cidArray] in Hdel |- *.
  rewrite Hdel by (rewrite length_app; simpl; lia).
  rewrite take_app_length. f_equal.
  rewrite cons_middle, app_assoc.
  apply drop_app_length'. rewrite length_app. simpl. lia.
Qed.

(** X1.  [addCid] of a pointer to a CidInfo registers the pointer under the
    key of the CID and puts it behind the elements of the array: [getCid]
    and [isCidAlready] find it under that key, every other key resolves as
    before, the length grows by one and no CidInfo changes. *)
Theorem addCid_then_getCid (s : Store) (q : cidQueue) (p : ptr)
    (ci : CidInfo) :
  objs s !! p = Some ci ->
  exists s' q',
    addCid p (s, q) = Some (s', q') /\
    getCid q' (B58String (CID ci)) = Some p /\
    isCidAlready q' (B58String (CID ci)) = true /\
    (forall k, k <> B58String (CID ci) -> getCid q' k = getCid q k) /\
    Len q' = S (Len q) /\
    queueElems (s', q') = queueElems (s, q) ++ [p] /\
    objs s' = objs s.
Proof.
  intros Hp. eexists _, _. split; [by apply addCid_Some|].
  unfold getCid, isCidAlready; cbn [cidMap].
  rewrite lookup_insert_eq. split; [done|].
  split; [by apply bool_decide_eq_true_2|].
  split; [intros k Hk; by rewrite lookup_insert_ne|].
  split; [reflexivity|]. split; [|reflexivity].
  apply sliceElems_appendSlice.
Qed.

Lemma addCid_then_getCid_witness :
  exists s' q',
    addCid 1%nat (setObj 1%nat (exCid "b" 0 6) oneStore, oneQueue)
      = Some (s', q') /\
    getCid q' "b" = Some 1%nat /\
    isCidAlready q' "b" = true /\
    (forall k, k <> "b" -> getCid q' k = getCid oneQueue k) /\
    Len q' = 2%nat /\
    queueElems (s', q') = [0; 1]%nat /\
    objs s' = objs (setObj 1%nat (exCid "b" 0 6) oneStore).
Proof.
  apply (addCid_then_getCid (setObj 1%nat (exCid "b" 0 6) oneStore) oneQueue
           1%nat (exCid "b" 0 6)).
  vm_compute. reflexivity.
Defined.

(** X2.  On a queue whose length is not one and whose elements all point to
    a CidInfo, [removeCid k] deletes the key from the map, changes no
    CidInfo, and takes out of the array the first element whose key is [k],
    keeping the others in their order; when no element has the key the
    array stays as it is. *)
Theorem removeCid_removes_first_match (k : string) (s : Store)
    (q : cidQueue) :
  Len q <> 1%nat ->
  Forall (fun p => is_Some (objs s !! p)) (queueElems (s, q)) ->
  exists s' q',
    removeCid k (s, q) = Some (s', q') /\
    cidMap q' = delete k (cidMap q) /\
    objs s' = objs s /\
    ((Forall (lacksKey s k) (queueElems (s, q)) /\
      queueElems (s', q') = queueElems (s, q))
     \/
     (exists l1 p l2,
        queueElems (s, q) = l1 ++ p :: l2 /\
        Forall (lacksKey s k) l1 /\ hasKey s k p /\
        queueElems (s', q') = l1 ++ l2)).
Proof.
  intros Hlen Hobjs.
  destruct (first_with_key s k _ Hobjs) as [Hnone|(l1 & p & l2 & E & Hl1 & Hp)].
  - eexists _, _. split; [by apply removeCid_no_match|].
    split; [reflexivity|]. split; [reflexivity|]. left. by split.
  - destruct (removeCid_match k s q l1 l2 p Hlen E Hl1 Hp)
      as (s' & q' & Hrm & Hmap & Hob & _ & Hel).
    exists s', q'. split; [done|]. split; [done|]. split; [done|].
    right. by exists l1, p, l2.
Qed.

Lemma removeCid_removes_first_match_witness :
  exists s' q',
    removeCid "b" (threeStore, threeQueue) = Some (s', q') /\
    cidMap q' = delete "b" (cidMap threeQueue) /\
    objs s' = objs threeStore /\
    ((Forall (lacksKey threeStore "b") (queueElems (threeStore, threeQueue)) /\
      queueElems (s', q') = queueElems (threeStore, threeQueue))
     \/
     (exists l1 p l2,
        queueElems (threeStore, threeQueue) = l1 ++ p :: l2 /\
        Forall (lacksKey threeStore "b") l1 /\ hasKey threeStore "b" p /\
        queueElems (s', q') = l1 ++ l2)).
Proof.
  apply (removeCid_removes_first_match "b" threeStore threeQueue).
  - vm_compute. lia.
  - repeat constructor; vm_compute; eauto.
Defined.

(** X3.  Adding a CidInfo whose key no element of the queue has, and then
    removing that key, gives back the elements the queue had, in their
    order, and a map without the key; this also holds when the queue was
    empty, where [removeCid] takes its branch for a queue of length one. *)
Theorem removeCid_after_addCid (s : Store) (q : cidQueue) (p : ptr)
    (ci : CidInfo) :
  objs s !! p = Some ci ->
  Forall (lacksKey s (B58String (CID ci))) (queueElems (s, q)) ->
  exists sq1 s2 q2,
    addCid p (s, q) = Some sq1 /\
    removeCid (B58String (CID ci)) sq1 = Some (s2, q2) /\
    queueElems (s2, q2) = queueElems (s, q) /\
    cidMap q2 = delete (B58String (CID ci)) (cidMap q) /\
    objs s2 = objs s.
Proof.
  intros Hp Hfresh. eexists. rewrite (addCid_Some _ _ _ _ Hp).
  set (s1 := (appendSlice s (cidArray q) p).1).
  set (q1 := mkQueue (<[B58String (CID ci) := p]> (cidMap q))
               (appendSlice s (cidArray q) p).2).
  assert (Hel : queueElems (s1, q1) = queueElems (s, q) ++ [p])
    by apply sliceElems_appendSlice.
  destruct (decide (Len q1 = 1%nat)) as [Hone|Hmany].
  - (* the queue was empty *)
    assert (Hq : queueElems (s, q) = []).
    { unfold queueElems, sliceElems. cbn [fst snd].
      unfold q1, Len in Hone. cbn in Hone.
      replace (sl_len (cidArray q)) with 0%nat by lia. done. }
    eexists _, _. split; [reflexivity|].
    unfold removeCid. rewrite decide_True by done. cbn.
    split; [reflexivity|]. split; [by rewrite Hq|].
    split; [by rewrite delete_insert_eq|done].
  - destruct (removeCid_match (B58String (CID ci)) s1 q1
                (queueElems (s, q)) [] p Hmany Hel)
      as (s2 & q2 & Hrm & Hmap & Hob & _ & Hel2).
    + eapply Forall_impl; [exact Hfresh|]. intros x (c & Hc & Hk).
      exists c. by split.
    + exists ci. by split.
    + exists s2, q2. split; [reflexivity|]. split; [exact Hrm|].
      split; [by rewrite Hel2, app_nil_r|].
      split; [by rewrite Hmap; unfold q1; cbn; rewrite delete_insert_eq|].
      by rewrite Hob.
Qed.

Lemma removeCid_after_addCid_witness :
  exists sq1 s2 q2,
    addCid 3%nat (setObj 3%nat (exCid "d" 0 8) threeStore, threeQueue)
      = Some sq1 /\
    removeCid "d" sq1 = Some (s2, q2) /\
    queueElems (s2, q2) = [0; 1; 2]%nat /\
    cidMap q2 = delete "d" (cidMap threeQueue) /\
    objs s2 = objs (setObj 3%nat (exCid "d" 0 8) threeStore).
Proof.
  apply (removeCid_after_addCid (setObj 3%nat (exCid "d" 0 8) threeStore)
           threeQueue 3%nat (exCid "d" 0 8)).
  - vm_compute. reflexivity.
  - repeat constructor; eexists; (split; [vm_compute; reflexivity|]);
      vm_compute; discriminate.
Defined.

(** *** sort.Interface on the queue *)

(** [q.cidArray[i]]; [None] is the panic for an index out of range. *)
Definition elemAt (sq : Store * cidQueue) (i : nat) : option ptr :=
  if decide (i < Len sq.2)%nat
  then arrayOf sq.1 (sl_arr (cidArray sq.2)) !! i
  else None.

(** [Swap]: both operands are read, then slot [i] and slot [j] are
    written. *)
Definition Swap (i j : nat) (sq : Store * cidQueue)
  : option (Store * cidQueue) :=
  match elemAt sq i, elemAt sq j with
  | Some pi, Some pj =>
      let a := sl_arr (cidArray sq.2) in
      Some (setArray a (<[j := pi]> (<[i := pj]> (arrayOf sq.1 a))) sq.1,
            sq.2)
  | _, _ => None
  end.

(** [Less]: [None] is a panic, for an index out of range or a nil
    pointer. *)
Definition Less (i j : nat) (sq : Store * cidQueue) : option bool :=
  match elemAt sq i, elemAt sq j with
  | Some pi, Some pj =>
      match objs sq.1 !! pi, objs sq.1 !! pj with
      | Some ci, Some cj => Some (NextPing ci <? NextPing cj)
      | _, _ => None
      end
  | _, _ => None
  end.

(** The calls of [Swap] that a run of [sort.Sort] makes, in order. *)
Fixpoint swaps (ijs : list (nat * nat)) (sq : Store * cidQueue)
  : option (Store * cidQueue) :=
  match ijs with
  | [] => Some sq
  | (i, j) :: rest =>
      match Swap i j sq with
      | None => None
      | Some sq' => swaps rest sq'
      end
  end.

(** The order [sortCidList] is there to establish: no element is [Less]
    than one in front of it. *)
Definition sortedByLess (sq : Store * cidQueue) : Prop :=
  forall i j, (i <= j < Len sq.2)%nat -> Less j i sq = Some false.

Lemma insert_head_Permutation (l : list ptr) :
  forall (j : nat) (x y : ptr),
  l !! j = Some y -> y :: <[j := x]> l ≡ₚ x :: l.
Proof.
  induction l as [|b l IH]; intros [|j] x y H; try done; simpl in H |- *.
  - injection H as ->. apply perm_swap.
  - rewrite perm_swap. rewrite (IH j x y H). apply perm_swap.
Qed.

Lemma insert_swap_Permutation (l : list ptr) :
  forall (i j : nat) (x y : ptr),
  l !! i = Some x -> l !! j = Some y ->
  <[j := x]> (<[i := y]> l) ≡ₚ l.
Proof.
  induction l as [|a l IH]; intros [|i] [|j] x y Hi Hj; try done;
    simpl in Hi, Hj |- *.
  - by injection Hi as ->.
  - injection Hi as ->. by apply insert_head_Permutation.
  - injection Hj as ->. by apply insert_head_Permutation.
  - f_equiv. by apply IH.
Qed.

Lemma elemAt_Some (sq : Store * cidQueue) (i : nat) (p : ptr) :
  elemAt sq i = Some p <-> queueElems sq !! i = Some p.
Proof.
  unfold elemAt, queueElems, sliceElems, Len.
  destruct (decide (i < sl_len (cidArray sq.2))%nat) as [Hlt|Hge].
  - by rewrite lookup_take_lt.
  - split; [done|]. intros H%lookup_lt_Some. rewrite length_take in H. lia.
Qed.

Lemma Swap_elems (i j : nat) (sq sq' : Store * cidQueue) :
  Swap i j sq = Some sq' ->
  exists pi pj,
    queueElems sq !! i = Some pi /\ queueElems sq !! j = Some pj /\
    queueElems sq' = <[j := pi]> (<[i := pj]> (queueElems sq)) /\
    sq'.2 = sq.2 /\ objs sq'.1 = objs sq.1.
Proof.
  unfold Swap.
  destruct (elemAt sq i) as [pi|] eqn:Hi; [|done].
  destruct (elemAt sq j) as [pj|] eqn:Hj; [|done].
  intros [= <-]. exists pi, pj.
  assert (Hli : (i < Len sq.2)%nat).
  { unfold elemAt in Hi. by destruct (decide (i < Len sq.2)%nat). }
  assert (Hlj : (j < Len sq.2)%nat).
  { unfold elemAt in Hj. by destruct (decide (j < Len sq.2)%nat). }
  apply elemAt_Some in Hi, Hj. split; [done|]. split; [done|].
  split; [|done].
  unfold queueElems, sliceElems. cbn [fst snd].
  rewrite arrayOf_setArray, decide_True by done.
  unfold Len in Hli, Hlj. by rewrite !take_insert_lt by done.
Qed.

(** X4.  Whatever calls of [Swap] a sort makes, if none of them panics the
    array of the queue holds the same pointers as before, each as often as
    before, and the length of the queue, its map and every CidInfo are
    unchanged: sorting reorders the array and nothing else. *)
Theorem swaps_Permutation (ijs : list (nat * nat)) :
  forall sq sq' : Store * cidQueue,
  swaps ijs sq = Some sq' ->
  queueElems sq' ≡ₚ queueElems sq /\
  sq'.2 = sq.2 /\ objs sq'.1 = objs sq.1.
Proof.
  induction ijs as [|[i j] rest IH]; intros sq sq' H; simpl in H.
  - by injection H as <-.
  - destruct (Swap i j sq) as [sq1|] eqn:Hswap; [|done].
    apply Swap_elems in Hswap as (pi & pj & Hi & Hj & Hel & Hq & Hob).
    destruct (IH _ _ H) as (Hperm & Hq' & Hob').
    split; [|split; congruence].
    rewrite Hperm, Hel. by apply insert_swap_Permutation.
Qed.

Lemma swaps_Permutation_witness :
  exists sq',
    swaps [(0, 2); (1, 2)]%nat (threeStore, threeQueue) = Some sq' /\
    queueElems sq' = [2; 0; 1]%nat /\
    queueElems sq' ≡ₚ queueElems (threeStore, threeQueue) /\
    sq'.2 = threeQueue /\ objs sq'.1 = objs threeStore.
Proof.
  eexists. split; [vm_compute; reflexivity|].
  split; [vm_compute; reflexivity|].
  apply (swaps_Permutation [(0, 2); (1, 2)]%nat (threeStore, threeQueue)).
  vm_compute. reflexivity.
Defined.

(** *** A pass of the orchestrator that removes nothing *)

(** The CidInfo behind [p] is due at [now]: its time for the next ping has
    come. *)
Definition isDue (now : Time) (os : gmap ptr CidInfo) (p : ptr) : bool :=
  match os !! p with
  | Some c => negb (notInTime now c)
  | None => false
  end.

Lemma duePrefix_subset (clock : nat -> Time) (os : gmap ptr CidInfo)
    (ps : list ptr) :
  forall i p, p ∈ duePrefix clock os i ps -> p ∈ ps.
Proof.
  induction ps as [|q ps IH]; intros i p H; simpl in H; [done|].
  destruct (os !! q); [|by apply elem_of_nil in H].
  destruct (notInTime _ _); [by apply elem_of_nil in H|].
  apply elem_of_cons in H as [->|H]; [by left|].
  right. by eapply IH.
Qed.

(** Closes a goal about a pass that sends nothing. *)
Ltac nothing_due :=
  let q := fresh "q" in
  let Hin := fresh "Hin" in
  intros q; cbn [snd duePrefix];
  destruct (decide _) as [Hin|_]; [by apply elem_of_nil in Hin|done].

(** The objects after such a pass: the counter method was applied once to
    every CidInfo that was sent, and to no other. *)
Lemma scanRange_no_removal_objs (inc : CidInfo -> CidInfo) (rounds : Z)
    (clock : nat -> Time) (cancelled : nat -> bool) (arr rem : nat) :
  forall (i : nat) (st : PingerState),
  (forall j, cancelled j = false) ->
  NoDup (take rem (drop i (arrayOf (store st) arr))) ->
  (forall p c, p ∈ take rem (drop i (arrayOf (store st) arr)) ->
     objs (store st) !! p = Some c -> GetPingCounter (inc c) < rounds) ->
  let st' := (scanRange inc rounds clock cancelled arr rem i st).2 in
  forall p,
    objs (store st') !! p
      = if decide (p ∈ duePrefix clock (objs (store st)) i
                         (take rem (drop i (arrayOf (store st) arr))))
        then inc <$> objs (store st) !! p
        else objs (store st) !! p.
Proof.
  induction rem as [|rem IH]; intros i st Hctx Hnd Hlow; cbn zeta.
  { cbn [scanRange firstn]. nothing_due. }
  rewrite scanRange_S, Hctx.
  destruct (arrayOf (store st) arr !! i) as [p|] eqn:Hslot.
  2: { apply lookup_ge_None in Hslot. rewrite drop_ge by lia.
       cbn [firstn]. nothing_due. }
  rewrite (drop_S _ _ _ Hslot) in Hnd, Hlow |- *.
  rewrite firstn_cons in Hnd, Hlow |- *.
  apply NoDup_cons in Hnd as [Hp Hnd]. cbn [duePrefix].
  destruct (objs (store st) !! p) as [c|] eqn:Hobj; [|nothing_due].
  destruct (notInTime (clock i) c); [nothing_due|].
  cbn zeta.
  assert (Hc : GetPingCounter (inc c) < rounds).
  { eapply Hlow; [|exact Hobj]. apply elem_of_cons. by left. }
  apply Z.leb_gt in Hc. rewrite Hc.
  specialize (IH (S i) (mkPinger (setObj p (inc c) (store st)) (cidQ st)
                          (pingTaskC st ++ [p])) Hctx).
  cbn zeta in IH. cbn [store cidQ pingTaskC] in IH.
  rewrite !arrayOf_setArray_objs in IH.
  intros q. rewrite IH; clear IH.
  - simpl. rewrite duePrefix_insert by done.
    destruct (decide (q = p)) as [->|Hqp].
    + rewrite decide_False.
      2: { intros Hin%duePrefix_subset. done. }
      rewrite decide_True by (apply elem_of_cons; by left).
      by rewrite lookup_insert_eq, Hobj.
    + rewrite lookup_insert_ne by done.
      destruct (decide (q ∈ duePrefix _ _ _ _)) as [Hin|Hout].
      * rewrite decide_True by (apply elem_of_cons; by right). done.
      * rewrite decide_False; [done|].
        intros [?|?]%elem_of_cons; done.
  - exact Hnd.
  - intros q' cq Hq Hcq. simpl in Hcq.
    rewrite lookup_insert_ne in Hcq by (intros ->; done).
    eapply Hlow; [|exact Hcq]. apply elem_of_cons. by right.
Qed.

(** X5.  A pass of the orchestrator over a queue of distinct pointers, with
    the context alive and no CID reaching [rounds] in it, sends to the task
    channel the CIDs of the queue in order, up to the first that is not due
    when the loop reaches it; it applies IncreasePingCounter once to each
    CidInfo it sends and to no other, and leaves the queue as it is. *)
Theorem orchestratorPass_sends_due_prefix (inc : CidInfo -> CidInfo)
    (rounds : Z) (clock : nat -> Time) (cancelled : nat -> bool)
    (st : PingerState) :
  (forall j, cancelled j = false) ->
  NoDup (queueElems (store st, cidQ st)) ->
  (forall p c, p ∈ queueElems (store st, cidQ st) ->
     objs (store st) !! p = Some c -> GetPingCounter (inc c) < rounds) ->
  let due := duePrefix clock (objs (store st)) 0
               (queueElems (store st, cidQ st)) in
  let st' := (orchestratorPass inc rounds clock cancelled st).2 in
  pingTaskC st' = pingTaskC st ++ due /\
  cidQ st' = cidQ st /\
  queueElems (store st', cidQ st') = queueElems (store st, cidQ st) /\
  forall p, objs (store st') !! p
            = if decide (p ∈ due) then inc <$> objs (store st) !! p
              else objs (store st) !! p.
Proof.
  intros Hctx Hnd Hlow. cbn zeta. unfold orchestratorPass.
  pose proof (scanRange_no_removal inc rounds clock cancelled
                (sl_arr (cidArray (cidQ st))) (Len (cidQ st)) 0 st
                Hctx Hnd Hlow) as (Htasks & Hq & Harr).
  pose proof (scanRange_no_removal_objs inc rounds clock cancelled
                (sl_arr (cidArray (cidQ st))) (Len (cidQ st)) 0 st
                Hctx Hnd Hlow) as Hobjs.
  cbn zeta in Hobjs.
  split; [exact Htasks|]. split; [exact Hq|]. split; [|exact Hobjs].
  unfold queueElems, sliceElems, arrayOf. cbn [fst snd].
  by rewrite Hq, Harr.
Qed.

Lemma duePrefix_not_due (now : Time) (os : gmap ptr CidInfo)
    (ps : list ptr) :
  Forall (fun p => isDue now os p = false) ps ->
  List.filter (isDue now os) ps = [].
Proof.
  induction 1 as [|p ps Hp _ IH]; [done|]. simpl. by rewrite Hp.
Qed.

(** In a list ordered by NextPing the CIDs that are due at one time are a
    prefix: the first that is not due has only such behind it. *)
Lemma duePrefix_sorted (now : Time) (os : gmap ptr CidInfo) (ps : list ptr) :
  forall i0,
  (forall a b pa pb ca cb, (a <= b)%nat ->
     ps !! a = Some pa -> ps !! b = Some pb ->
     os !! pa = Some ca -> os !! pb = Some cb ->
     NextPing ca <= NextPing cb) ->
  Forall (fun p => is_Some (os !! p)) ps ->
  duePrefix (fun _ => now) os i0 ps = List.filter (isDue now os) ps.
Proof.
  induction ps as [|p ps IH]; intros i0 Hsorted Hobjs; [done|].
  apply Forall_cons in Hobjs as [[c Hc] Hobjs].
  cbn [duePrefix List.filter]. unfold isDue at 1. rewrite Hc.
  destruct (notInTime now c) eqn:Hdue; cbn [negb].
  - symmetry. apply duePrefix_not_due.
    apply Forall_lookup. intros b q Hq.
    destruct (proj1 (Forall_lookup _ _) Hobjs b q Hq) as [cq Hcq].
    unfold isDue. rewrite Hcq.
    pose proof (Hsorted 0%nat (S b) p q c cq ltac:(lia) eq_refl Hq Hc Hcq).
    unfold notInTime in *. apply Z.ltb_lt in Hdue.
    apply negb_false_iff, Z.ltb_lt. lia.
  - f_equal. apply IH; [|done].
    intros a b pa pb ca cb Hab Ha Hb. apply (Hsorted (S a) (S b)); [lia|done..].
Qed.

Lemma sortedByLess_elems (sq : Store * cidQueue) :
  sortedByLess sq ->
  (forall a b pa pb ca cb, (a <= b)%nat ->
     queueElems sq !! a = Some pa -> queueElems sq !! b = Some pb ->
     objs sq.1 !! pa = Some ca -> objs sq.1 !! pb = Some cb ->
     NextPing ca <= NextPing cb) /\
  Forall (fun p => is_Some (objs sq.1 !! p)) (queueElems sq).
Proof.
  intros Hsorted.
  assert (Hlen : forall b p, queueElems sq !! b = Some p -> (b < Len sq.2)%nat).
  { intros b p H%lookup_lt_Some. unfold queueElems, sliceElems in H.
    rewrite length_take in H. unfold Len. lia. }
  split.
  - intros a b pa pb ca cb Hab Ha Hb Hca Hcb.
    specialize (Hsorted a b (conj Hab (Hlen _ _ Hb))).
    unfold Less in Hsorted.
    apply elemAt_Some in Ha, Hb. rewrite Ha, Hb, Hca, Hcb in Hsorted.
    injection Hsorted as H. apply Z.ltb_ge in H. exact H.
  - apply Forall_lookup. intros b p Hb.
    specialize (Hsorted b b (conj (Nat.le_refl b) (Hlen _ _ Hb))).
    unfold Less in Hsorted. apply elemAt_Some in Hb. rewrite Hb in Hsorted.
    by destruct (objs sq.1 !! p).
Qed.

(** X6.  When the queue is in the order [sortCidList] sorts it into (no
    element is [Less] than one in front of it), a pass at one instant over
    distinct pointers, with the context alive and no CID reaching [rounds],
    sends every CID of the queue that is due at that instant, in the order
    of the queue, and no other: the [break] at the first CID that is not due
    leaves no due CID behind. *)
Theorem orchestratorPass_sorted_sends_all_due (inc : CidInfo -> CidInfo)
    (rounds : Z) (now : Time) (cancelled : nat -> bool) (st : PingerState) :
  sortedByLess (store st, cidQ st) ->
  (forall j, cancelled j = false) ->
  NoDup (queueElems (store st, cidQ st)) ->
  (forall p c, p ∈ queueElems (store st, cidQ st) ->
     objs (store st) !! p = Some c -> GetPingCounter (inc c) < rounds) ->
  pingTaskC (orchestratorPass inc rounds (fun _ => now) cancelled st).2
    = pingTaskC st
      ++ List.filter (isDue now (objs (store st)))
           (queueElems (store st, cidQ st)).
Proof.
  intros Hsorted Hctx Hnd Hlow.
  destruct (sortedByLess_elems _ Hsorted) as [Hord Hobjs].
  unfold orchestratorPass.
  pose proof (scanRange_no_removal inc rounds (fun _ => now) cancelled
                (sl_arr (cidArray (cidQ st))) (Len (cidQ st)) 0 st
                Hctx Hnd Hlow) as (Htasks & _ & _).
  rewrite Htasks. f_equal.
  by apply (duePrefix_sorted now (objs (store st)) _ 0%nat).
Qed.

(** Splits a goal about an element of a concrete list into one goal for each
    element. *)
Ltac each_element H :=
  repeat (apply elem_of_cons in H as [->|H]);
  [..|by apply elem_of_nil in H].

(** A pass over a, b, c (due at 5, 6 and 7) whose clock shows 5 in its first
    two iterations and 9 afterwards: b is not due when the loop reaches it,
    and c, which would be due at 9, is not looked at. *)
Lemma orchestratorPass_sends_due_prefix_witness :
  let st := mkPinger threeStore threeQueue [] in
  let clock := fun i : nat => if (i <? 2)%nat then 5 else 9 in
  let due := duePrefix clock (objs (store st)) 0
               (queueElems (store st, cidQ st)) in
  let st' := (orchestratorPass Models.IncreasePingCounter 3 clock
                (fun _ => false) st).2 in
  due = [0%nat] /\
  pingTaskC st' = pingTaskC st ++ due /\
  cidQ st' = cidQ st /\
  queueElems (store st', cidQ st') = queueElems (store st, cidQ st) /\
  forall p, objs (store st') !! p
            = if decide (p ∈ due)
              then Models.IncreasePingCounter <$> objs (store st) !! p
              else objs (store st) !! p.
Proof.
  cbn zeta. split; [vm_compute; reflexivity|].
  apply (orchestratorPass_sends_due_prefix Models.IncreasePingCounter 3
           (fun i : nat => if (i <? 2)%nat then 5 else 9) (fun _ => false)
           (mkPinger threeStore threeQueue [])).
  - reflexivity.
  - compute_done.
  - intros p c Hin Hc.
    change (p ∈ [0; 1; 2]%nat) in Hin.
    each_element Hin; vm_compute in Hc; injection Hc as <-;
      vm_compute; reflexivity.
Defined.

(** The same queue at the instant 6: a and b are due and are sent, c is
    not. *)
Lemma orchestratorPass_sorted_sends_all_due_witness :
  let st := mkPinger threeStore threeQueue [] in
  List.filter (isDue 6 (objs (store st))) (queueElems (store st, cidQ st))
    = [0; 1]%nat /\
  pingTaskC (orchestratorPass Models.IncreasePingCounter 3 (fun _ => 6)
               (fun _ => false) st).2
    = pingTaskC st
      ++ List.filter (isDue 6 (objs (store st)))
           (queueElems (store st, cidQ st)).
Proof.
  cbn zeta. split; [vm_compute; reflexivity|].
  apply (orchestratorPass_sorted_sends_all_due Models.IncreasePingCounter 3
           6 (fun _ => false) (mkPinger threeStore threeQueue [])).
  - intros i j Hij. change (i <= j < 3)%nat in Hij.
    destruct i as [|[|[|i]]], j as [|[|[|j]]]; try lia;
      vm_compute; reflexivity.
  - reflexivity.
  - compute_done.
  - intros p c Hin Hc.
    change (p ∈ [0; 1; 2]%nat) in Hin.
    each_element Hin; vm_compute in Hc; injection Hc as <-;
      vm_compute; reflexivity.
Defined.

(** *** AddCidInfo

    [p.init] and the values sent on [p.initC], the channel the orchestrator
    waits on before its first pass. *)

Record InitState := mkInit {
  init : bool;
  initC : nat;
}.

Definition AddCidInfo (c : ptr) (st : InitState * (Store * cidQueue))
  : option (InitState * (Store * cidQueue)) :=
  let i := if init st.1 then st.1 else mkInit true (S (initC st.1)) in
  match addCid c st.2 with
  | None => None
  | Some sq => Some (i, sq)
  end.

(** The calls of [AddCidInfo] for a list of CIDs, in order. *)
Fixpoint AddCidInfos (cs : list ptr) (st : InitState * (Store * cidQueue))
  : option (InitState * (Store * cidQueue)) :=
  match cs with
  | [] => Some st
  | c :: rest =>
      match AddCidInfo c st with
      | None => None
      | Some st' => AddCidInfos rest st'
      end
  end.

(** X7.  Calls of [AddCidInfo] for pointers to CidInfos put them behind the
    elements of the queue in the order of the calls, and send on [initC]
    once in all: the first call on a pinger that is not initialised sends
    and sets [init], and no later call sends. *)
Theorem AddCidInfo_signals_once (cs : list ptr) :
  forall st : InitState * (Store * cidQueue),
  Forall (fun c => is_Some (objs st.2.1 !! c)) cs ->
  exists st',
    AddCidInfos cs st = Some st' /\
    queueElems st'.2 = queueElems st.2 ++ cs /\
    init st'.1 = (init st.1 || negb (bool_decide (cs = []))) /\
    initC st'.1
      = (if init st.1 || bool_decide (cs = []) then initC st.1
         else S (initC st.1)) /\
    objs st'.2.1 = objs st.2.1.
Proof.
  induction cs as [|c cs IH]; intros [[b n] [s q]] Hcs; cbn [fst snd] in *.
  - eexists. split; [reflexivity|]. cbn.
    rewrite app_nil_r, !orb_true_r, orb_false_r. done.
  - apply Forall_cons in Hcs as [[ci Hc] Hcs].
    cbn [AddCidInfos]. unfold AddCidInfo. cbn [fst snd].
    rewrite (addCid_Some _ _ _ _ Hc).
    set (sq1 := ((appendSlice s (cidArray q) c).1,
                 mkQueue (<[B58String (CID ci) := c]> (cidMap q))
                   (appendSlice s (cidArray q) c).2)).
    assert (Hel1 : queueElems sq1 = queueElems (s, q) ++ [c])
      by apply sliceElems_appendSlice.
    rewrite (bool_decide_eq_false_2 (c :: cs = [])) by done.
    destruct b; cbn [init initC negb orb].
    + destruct (IH (mkInit true n, sq1) Hcs)
        as (st' & Hrun & Hel & Hinit & HinitC & Hobjs).
      exists st'. split; [exact Hrun|]. cbn [fst snd init initC orb] in *.
      by rewrite Hel, Hel1, <- app_assoc.
    + destruct (IH (mkInit true (S n), sq1) Hcs)
        as (st' & Hrun & Hel & Hinit & HinitC & Hobjs).
      exists st'. split; [exact Hrun|]. cbn [fst snd init initC orb] in *.
      by rewrite Hel, Hel1, <- app_assoc.
Qed.

Lemma AddCidInfo_signals_once_witness :
  exists st',
    AddCidInfos [0; 1; 2]%nat
      (mkInit false 0, newCidQueue (storeOf threeCids)) = Some st' /\
    queueElems st'.2 = [] ++ [0; 1; 2]%nat /\
    init st'.1 = true /\
    initC st'.1 = 1%nat /\
    objs st'.2.1 = objs (storeOf threeCids).
Proof.
  apply (AddCidInfo_signals_once [0; 1; 2]%nat
           (mkInit false 0, newCidQueue (storeOf threeCids))).
  repeat constructor; vm_compute; eauto.
Defined.

(** *** What a probe reports *)

Section ProbeResult.

Context {W : Type} {host : Host W}.

(** X9.  The result of a probe is made from the last call of [Connect] that
    the host received during the probe: it is Active exactly when that call
    connected; its ConnError is the tag for no error then, and the
    classification of that call's error otherwise; it has HasRecords only
    when it is Active; and it carries the CID, the holder's ID, the round,
    the start of the probe and the time the probe took. *)
Theorem PingPRHolder_result (rootCtx : Context) (c : CidInfo) (round : Z)
    (pAddr : AddrInfo) (w : W) :
  exists active hasRecords connError w' a,
    PingPRHolder rootCtx c round pAddr w
      = (NewPRPingResults (CID c) (ai_ID pAddr) round (Now w)
           (Now w' - Now w) active hasRecords connError, w') /\
    last (dialAttempts rootCtx c round pAddr w) = Some a /\
    active = match da_err a with None => true | Some _ => false end /\
    connError = match da_err a with
                | None => NoConnError
                | Some e => ParseConError e
                end /\
    (hasRecords = true -> active = true).
Proof.
  destruct (PingPRHolder_journal rootCtx c round pAddr w)
    as (Heq & _ & _ & _ & Hrec & a & Ha & Hact & Herr).
  cbn zeta in *.
  destruct (dialLoop rootCtx _ c pAddr maxDialAttempts EmptyString w)
    as [[[active hasRecords] connError] w'].
  cbn [fst snd] in *.
  exists active, hasRecords, connError, w', a. done.
Qed.

End ProbeResult.

(** *** The end of [Run]: the workers, the task channel and the done flag

    [Run] waits for the orchestrator, sets [pingOrcDoneFlag], waits for the
    workers and then closes [pingTaskC].  A worker reads the flag at the top
    of its loop only; in its [select] it waits for a task, for the channel
    to be closed, or for the root context.  The goroutines are modelled by
    their moves, run in any order. *)

(** Where a worker is: at the top of its loop, blocked in its [select],
    running a round, or returned. *)
Inductive Worker := AtLoopTop | InWorkerSelect | Pinging | WorkerReturned.

(** Where [Run] is: in [pingOrchWG.Wait()], in [pingerWG.Wait()], or past
    [close(p.pingTaskC)]. *)
Inductive RunPc := WaitOrchestrator | WaitPingers | TaskCClosed.

Record RunState := mkRun {
  workers : list Worker;
  queuedTasks : nat;
  orchestratorDone : bool;
  pingOrcDoneFlag : bool;
  rootCancelled : bool;
  runPc : RunPc;
}.

(** [Run] with [n] workers started and an empty task channel. *)
Definition startRun (n : nat) : RunState :=
  mkRun (replicate n AtLoopTop) 0 false false false WaitOrchestrator.

Inductive RunAction :=
| OrchSend                    (* the orchestrator sends a task *)
| OrchReturn                  (* the orchestrator returns *)
| SetDoneFlag                 (* Run: pingOrcDoneFlag = true *)
| CloseTaskC                  (* Run: close(p.pingTaskC) *)
| WorkerCheck (i : nat)       (* worker i tests the flag and len(pingTaskC) *)
| WorkerRecv (i : nat)        (* worker i receives a task *)
| WorkerRecvClosed (i : nat)  (* worker i receives from the closed channel *)
| WorkerFinish (i : nat)      (* worker i ends its round *)
| WorkerCtx (i : nat)         (* worker i sees ctx.Done() *)
| CancelRoot.                 (* the root context is cancelled *)

Definition setWorker (i : nat) (x : Worker) (st : RunState) : RunState :=
  mkRun (<[i := x]> (workers st)) (queuedTasks st) (orchestratorDone st)
    (pingOrcDoneFlag st) (rootCancelled st) (runPc st).

Definition allReturned (st : RunState) : bool :=
  forallb (fun x => match x with WorkerReturned => true | _ => false end)
    (workers st).

(** One move; [None] when the move is not enabled.  The task channel has
    room for as many tasks as there are workers. *)
Definition runStep (a : RunAction) (st : RunState) : option RunState :=
  match a with
  | OrchSend =>
      if negb (orchestratorDone st)
         && (queuedTasks st <? length (workers st))%nat
      then Some (mkRun (workers st) (S (queuedTasks st))
                   (orchestratorDone st) (pingOrcDoneFlag st)
                   (rootCancelled st) (runPc st))
      else None
  | OrchReturn =>
      if orchestratorDone st then None
      else Some (mkRun (workers st) (queuedTasks st) true
                   (pingOrcDoneFlag st) (rootCancelled st) (runPc st))
  | SetDoneFlag =>
      match runPc st, orchestratorDone st with
      | WaitOrchestrator, true =>
          Some (mkRun (workers st) (queuedTasks st) (orchestratorDone st)
                  true (rootCancelled st) WaitPingers)
      | _, _ => None
      end
  | CloseTaskC =>
      match runPc st, allReturned st with
      | WaitPingers, true =>
          Some (mkRun (workers st) (queuedTasks st) (orchestratorDone st)
                  (pingOrcDoneFlag st) (rootCancelled st) TaskCClosed)
      | _, _ => None
      end
  | WorkerCheck i =>
      match workers st !! i with
      | Some AtLoopTop =>
          if pingOrcDoneFlag st && (queuedTasks st =? 0)%nat
          then Some (setWorker i WorkerReturned st)
          else Some (setWorker i InWorkerSelect st)
      | _ => None
      end
  | WorkerRecv i =>
      match workers st !! i, queuedTasks st with
      | Some InWorkerSelect, S n =>
          Some (mkRun (<[i := Pinging]> (workers st)) n
                  (orchestratorDone st) (pingOrcDoneFlag st)
                  (rootCancelled st) (runPc st))
      | _, _ => None
      end
  | WorkerRecvClosed i =>
      match workers st !! i, queuedTasks st, runPc st with
      | Some InWorkerSelect, O, TaskCClosed =>
          Some (setWorker i WorkerReturned st)
      | _, _, _ => None
      end
  | WorkerFinish i =>
      match workers st !! i with
      | Some Pinging => Some (setWorker i AtLoopTop st)
      | _ => None
      end
  | WorkerCtx i =>
      match workers st !! i, rootCancelled st with
      | Some InWorkerSelect, true => Some (setWorker i WorkerReturned st)
      | _, _ => None
      end
  | CancelRoot =>
      Some (mkRun (workers st) (queuedTasks st) (orchestratorDone st)
              (pingOrcDoneFlag st) true (runPc st))
  end.

Fixpoint runSched (sched : list RunAction) (st : RunState)
  : option RunState :=
  match sched with
  | [] => Some st
  | a :: rest =>
      match runStep a st with
      | None => None
      | Some st' => runSched rest st'
      end
  end.

(** Worker [i] waits in its [select] with nothing to wake it: the
    orchestrator has returned, the task channel is empty and open, and the
    root context is alive. *)
Definition idleForever (i : nat) (st : RunState) : Prop :=
  workers st !! i = Some InWorkerSelect /\
  orchestratorDone st = true /\
  queuedTasks st = 0%nat /\
  rootCancelled st = false /\
  runPc st <> TaskCClosed.

Lemma allReturned_lookup (st : RunState) (i : nat) (x : Worker) :
  allReturned st = true -> workers st !! i = Some x -> x = WorkerReturned.
Proof.
  unfold allReturned. rewrite forallb_forall. intros Hall Hi.
  apply list_elem_of_lookup_2, list_elem_of_In, Hall in Hi.
  by destruct x.
Qed.

Lemma lookup_setWorker (i j : nat) (x y : Worker) (st : RunState) :
  workers st !! i = Some y ->
  workers (setWorker j x st) !! i = Some y \/ i = j.
Proof.
  intros Hi. destruct (decide (i = j)) as [->|Hne]; [by right|].
  left. simpl. by rewrite list_lookup_insert_ne.
Qed.

Lemma runStep_idleForever (a : RunAction) (i : nat) (st st' : RunState) :
  idleForever i st -> a <> CancelRoot -> runStep a st = Some st' ->
  idleForever i st'.
Proof.
  intros (Hw & Horch & Hq & Hctx & Hpc) Ha Hstep.
  destruct a as [| | | |j|j|j|j|j|]; simpl in Hstep; try done.
  - rewrite Horch in Hstep. done.
  - rewrite Horch in Hstep. done.
  - destruct (runPc st); try done. rewrite Horch in Hstep.
    injection Hstep as <-. repeat split; try done.
  - destruct (runPc st); try done.
    destruct (allReturned st) eqn:Hall; [|done].
    by pose proof (allReturned_lookup _ _ _ Hall Hw).
  - destruct (workers st !! j) as [[| | |]|] eqn:Hj; try done.
    assert (i <> j) by congruence.
    destruct (_ && _); injection Hstep as <-;
      (split; [simpl; by rewrite list_lookup_insert_ne|done]).
  - rewrite Hq in Hstep. by destruct (workers st !! j) as [[| | |]|].
  - destruct (workers st !! j) as [[| | |]|]; try done.
    rewrite Hq in Hstep. by destruct (runPc st).
  - destruct (workers st !! j) as [[| | |]|] eqn:Hj; try done.
    assert (i <> j) by congruence. injection Hstep as <-.
    split; [simpl; by rewrite list_lookup_insert_ne|done].
  - rewrite Hctx in Hstep. by destruct (workers st !! j) as [[| | |]|].
Qed.

(** X8.  A worker that is blocked in its [select] when the orchestrator has
    returned and the task channel is empty stays there for as long as the
    root context is not cancelled, whatever the other goroutines do: it
    does not see [pingOrcDoneFlag], which it reads at the top of its loop
    only; so [Run] does not get past [pingerWG.Wait()] and never closes the
    task channel. *)
Theorem Run_idle_worker_never_returns (sched : list RunAction) :
  forall (i : nat) (st st' : RunState),
  idleForever i st ->
  CancelRoot ∉ sched ->
  runSched sched st = Some st' ->
  workers st' !! i = Some InWorkerSelect /\
  allReturned st' = false /\
  runPc st' <> TaskCClosed.
Proof.
  induction sched as [|a rest IH]; intros i st st' Hidle Hsched Hrun;
    simpl in Hrun.
  - injection Hrun as <-. destruct Hidle as (Hw & _ & _ & _ & Hpc).
    split; [done|]. split; [|done].
    destruct (allReturned st) eqn:Hall; [|done].
    by pose proof (allReturned_lookup _ _ _ Hall Hw).
  - destruct (runStep a st) as [st1|] eqn:Hstep; [|done].
    apply not_elem_of_cons in Hsched as [Ha Hrest].
    eapply IH; [|exact Hrest|exact Hrun].
    eapply runStep_idleForever; [exact Hidle| |exact Hstep]. congruence.
Qed.

(** Two workers.  The first is in its [select] when the orchestrator
    returns; then [Run] sets the flag, and the second worker, at the top of
    its loop, sees it and returns.  The first stays in its [select]. *)
Lemma Run_idle_worker_never_returns_witness :
  exists st st',
    runSched [WorkerCheck 0; OrchReturn] (startRun 2) = Some st /\
    runSched [SetDoneFlag; WorkerCheck 1] st = Some st' /\
    workers st' = [InWorkerSelect; WorkerReturned] /\
    pingOrcDoneFlag st' = true /\
    workers st' !! 0%nat = Some InWorkerSelect /\
    allReturned st' = false /\
    runPc st' <> TaskCClosed.
Proof.
  eexists _, _. split; [reflexivity|]. split; [reflexivity|].
  split; [reflexivity|]. split; [reflexivity|].
  apply (Run_idle_worker_never_returns [SetDoneFlag; WorkerCheck 1] 0%nat
           (mkRun [InWorkerSelect; AtLoopTop] 0 true false false
              WaitOrchestrator)).
  - repeat split; done.
  - rewrite !elem_of_cons, elem_of_nil. intros [?|[?|[]]]; discriminate.
  - reflexivity.
Defined.

End Pinger.

(** ** The DB client: persisters and shutdown *)

Module DB.

Definition bufferSize : Z := 10000.
Definition maxPersisters : nat := 1.

(** The four request channels; [runPersisters] starts one goroutine for
    each. *)
Inductive Chan := cidInfoC | peerInfoC | fetchResultC | pingResultsC.

Definition chans : list Chan :=
  [cidInfoC; peerInfoC; fetchResultC; pingResultsC].

(** Where a persister goroutine is: in its [select], returned through
    [case <-db.doneC], returned through [case <-db.ctx.Done()], or holding the
    zero value that a receive on a closed, drained channel gave it. *)
Inductive Persister :=
| InSelect
| FinishDetected
| ShutdownDetected
| GotZeroValue.

(** Where the goroutine that calls [Close] is: each constructor is the
    statement it executes next. *)
Inductive Closer :=
| NotCalled
| SendDone
| CloseCidInfoC
| ClosePeerInfoC
| CloseFetchResultC
| ClosePingResultsC
| CloseSql
| Returned.

(** A channel is its number of buffered values and whether it was closed;
    [inserted] counts the INSERTs made from each channel. *)
Record DBClient := mkDB {
  persister : Chan -> Persister;
  closer : Closer;
  buffered : Chan -> nat;
  closed : Chan -> bool;
  inserted : Chan -> nat;
  ctxDone : bool;
}.

Definition chan_eqb (a b : Chan) : bool :=
  match a, b with
  | cidInfoC, cidInfoC | peerInfoC, peerInfoC
  | fetchResultC, fetchResultC | pingResultsC, pingResultsC => true
  | _, _ => false
  end.

Definition upd {A : Type} (f : Chan -> A) (k : Chan) (v : A) : Chan -> A :=
  fun k' => if chan_eqb k k' then v else f k'.

(** [NewDBClient]: empty channels, open, and the four persisters in their
    [select]. *)
Definition NewDBClient : DBClient :=
  mkDB (fun _ => InSelect) NotCalled (fun _ => 0%nat) (fun _ => false)
    (fun _ => 0%nat) false.

(** The moves of the goroutines.  [doneC] is unbuffered: the send in [Close]
    completes together with exactly one receive, in one persister. *)
Inductive Action :=
| Add (k : Chan)            (* AddCidInfo, AddPeerInfo, ...: a send on k *)
| Persist (k : Chan)        (* persister k receives a value and INSERTs it *)
| RecvClosed (k : Chan)     (* persister k receives from closed, empty k *)
| Resume (k : Chan)         (* the insert of a zero value returns *)
| RecvDone (k : Chan)       (* persister k takes the value sent on doneC *)
| RecvCtx (k : Chan)        (* persister k sees ctx.Done() *)
| Cancel                    (* the root context is cancelled *)
| CallClose                 (* some goroutine calls db.Close() *)
| CloseNext.                (* Close executes its next close statement *)

Definition setPersister (k : Chan) (p : Persister) (db : DBClient) : DBClient :=
  mkDB (upd (persister db) k p) (closer db) (buffered db) (closed db)
    (inserted db) (ctxDone db).

Definition setCloser (c : Closer) (db : DBClient) : DBClient :=
  mkDB (persister db) c (buffered db) (closed db) (inserted db) (ctxDone db).

Definition closeChan (k : Chan) (c : Closer) (db : DBClient) : DBClient :=
  mkDB (persister db) c (buffered db) (upd (closed db) k true) (inserted db)
    (ctxDone db).

Definition inSelect (db : DBClient) (k : Chan) : bool :=
  match persister db k with InSelect => true | _ => false end.

(** One move; [None] when the move is not enabled (or, for [Add] on a
    closed channel, panics). *)
Definition step (a : Action) (db : DBClient) : option DBClient :=
  match a with
  | Add k =>
      if closed db k then None
      else if Z.of_nat (buffered db k) <? bufferSize
      then Some (mkDB (persister db) (closer db)
                   (upd (buffered db) k (S (buffered db k))) (closed db)
                   (inserted db) (ctxDone db))
      else None
  | Persist k =>
      match inSelect db k, buffered db k with
      | true, S n =>
          Some (mkDB (persister db) (closer db) (upd (buffered db) k n)
                  (closed db) (upd (inserted db) k (S (inserted db k)))
                  (ctxDone db))
      | _, _ => None
      end
  | RecvClosed k =>
      match inSelect db k, buffered db k, closed db k with
      | true, O, true => Some (setPersister k GotZeroValue db)
      | _, _, _ => None
      end
  | Resume k =>
      match persister db k with
      | GotZeroValue => Some (setPersister k InSelect db)
      | _ => None
      end
  | RecvDone k =>
      match inSelect db k, closer db with
      | true, SendDone =>
          Some (setCloser CloseCidInfoC (setPersister k FinishDetected db))
      | _, _ => None
      end
  | RecvCtx k =>
      if inSelect db k && ctxDone db
      then Some (setPersister k ShutdownDetected db) else None
  | Cancel =>
      Some (mkDB (persister db) (closer db) (buffered db) (closed db)
              (inserted db) true)
  | CallClose =>
      match closer db with
      | NotCalled => Some (setCloser SendDone db)
      | _ => None
      end
  | CloseNext =>
      match closer db with
      | CloseCidInfoC => Some (closeChan cidInfoC ClosePeerInfoC db)
      | ClosePeerInfoC => Some (closeChan peerInfoC CloseFetchResultC db)
      | CloseFetchResultC => Some (closeChan fetchResultC ClosePingResultsC db)
      | ClosePingResultsC => Some (closeChan pingResultsC CloseSql db)
      | CloseSql => Some (setCloser Returned db)
      | _ => None
      end
  end.

(** A schedule of moves, run from a state. *)
Fixpoint run (sched : list Action) (db : DBClient) : option DBClient :=
  match sched with
  | [] => Some db
  | a :: rest =>
      match step a db with
      | None => None
      | Some db' => run rest db'
      end
  end.

Definition finishDetected (db : DBClient) (k : Chan) : bool :=
  match persister db k with FinishDetected => true | _ => false end.

(** The persisters that have returned through [case <-db.doneC]. *)
Definition sawDone (db : DBClient) : list Chan :=
  List.filter (finishDetected db) chans.

(** [Close] has completed its send on [doneC]. *)
Definition doneSent (db : DBClient) : bool :=
  match closer db with
  | NotCalled | SendDone => false
  | _ => true
  end.

(** The close statements [Close] has executed, as the channels' flags. *)
Definition closedUpTo (c : Closer) (k : Chan) : bool :=
  match c, k with
  | (NotCalled | SendDone | CloseCidInfoC), _ => false
  | ClosePeerInfoC, cidInfoC => true
  | ClosePeerInfoC, _ => false
  | CloseFetchResultC, (cidInfoC | peerInfoC) => true
  | CloseFetchResultC, _ => false
  | ClosePingResultsC, pingResultsC => false
  | ClosePingResultsC, _ => true
  | (CloseSql | Returned), _ => true
  end.

Definition inv (db : DBClient) : Prop :=
  length (sawDone db) = (if doneSent db then 1%nat else 0%nat) /\
  forall k, closed db k = closedUpTo (closer db) k.

(** The schedule in which the persister of [cidInfoC] takes the pulse and
    [Close] then closes the four channels. *)
Definition closeSchedule : list Action :=
  [CallClose; RecvDone cidInfoC; CloseNext; CloseNext; CloseNext; CloseNext].

(** *** Properties of the shutdown *)

Lemma sawDone_setPersister (db : DBClient) (k : Chan) (p : Persister) :
  (length (sawDone (setPersister k p db))
     + (if finishDetected db k then 1 else 0)
   = length (sawDone db)
     + (match p with FinishDetected => 1 | _ => 0 end))%nat.
Proof.
  unfold sawDone, finishDetected, chans, setPersister, upd.
  destruct k; simpl;
    destruct (persister db cidInfoC), (persister db peerInfoC),
             (persister db fetchResultC), (persister db pingResultsC);
    destruct p; reflexivity.
Qed.

Lemma inSelect_not_done (db : DBClient) (k : Chan) :
  inSelect db k = true -> finishDetected db k = false.
Proof. unfold inSelect, finishDetected. by destruct (persister db k). Qed.

Lemma inv_NewDBClient : inv NewDBClient.
Proof. split; [reflexivity|]. intros k; by destruct k. Qed.

Lemma step_inv (a : Action) (db db' : DBClient) :
  inv db -> step a db = Some db' -> inv db'.
Proof.
  intros [Hcount Hclosed] Hstep.
  destruct a as [k|k|k|k|k|k| | |]; simpl in Hstep.
  - destruct (closed db k); [done|].
    destruct (_ <? _); [|done]. injection Hstep as <-. by split.
  - destruct (inSelect db k), (buffered db k); try done.
    injection Hstep as <-. by split.
  - destruct (inSelect db k) eqn:Hsel; [|done].
    destruct (buffered db k); [|done]. destruct (closed db k); [|done].
    injection Hstep as <-. split; [|exact Hclosed].
    pose proof (sawDone_setPersister db k GotZeroValue) as H.
    rewrite (inSelect_not_done _ _ Hsel) in H.
    change (doneSent (setPersister k GotZeroValue db)) with (doneSent db).
    rewrite <- Hcount. lia.
  - destruct (persister db k) eqn:Hp; try done.
    injection Hstep as <-. split; [|exact Hclosed].
    pose proof (sawDone_setPersister db k InSelect) as H.
    unfold finishDetected in H. rewrite Hp in H.
    change (doneSent (setPersister k InSelect db)) with (doneSent db).
    rewrite <- Hcount. lia.
  - destruct (inSelect db k) eqn:Hsel; [|done].
    destruct (closer db) eqn:Hc; try done.
    injection Hstep as <-. split.
    + pose proof (sawDone_setPersister db k FinishDetected) as H.
      rewrite (inSelect_not_done _ _ Hsel) in H.
      unfold doneSent in Hcount. rewrite Hc in Hcount.
      change (length (sawDone (setPersister k FinishDetected db)) = 1%nat).
      lia.
    + intros k'. simpl. rewrite Hclosed. by destruct k'.
  - destruct (inSelect db k) eqn:Hsel; [|done].
    destruct (ctxDone db); [|done].
    injection Hstep as <-. split; [|exact Hclosed].
    pose proof (sawDone_setPersister db k ShutdownDetected) as H.
    rewrite (inSelect_not_done _ _ Hsel) in H.
    change (doneSent (setPersister k ShutdownDetected db)) with (doneSent db).
    rewrite <- Hcount. lia.
  - injection Hstep as <-. by split.
  - destruct (closer db) eqn:Hc; try done.
    injection Hstep as <-. split.
    + unfold doneSent in *. rewrite Hc in Hcount. exact Hcount.
    + intros k'. simpl. rewrite Hclosed. by destruct k'.
  - destruct (closer db) eqn:Hc; try done; injection Hstep as <-;
      (split;
       [ unfold doneSent in *; rewrite Hc in Hcount; exact Hcount
       | intros k'; simpl; unfold upd; rewrite Hclosed; by destruct k' ]).
Qed.

Lemma run_inv (sched : list Action) :
  forall db db', inv db -> run sched db = Some db' -> inv db'.
Proof.
  induction sched as [|a rest IH]; intros db db' Hinv Hrun; simpl in Hrun.
  - by injection Hrun as <-.
  - destruct (step a db) as [db1|] eqn:Hstep; [|done].
    eapply IH; [|exact Hrun]. eapply step_inv; eauto.
Qed.

(** C2, on the code.  However the goroutines are scheduled after
    [NewDBClient], at most one of the four persisters ever returns through
    [case <-db.doneC]; and once [Close] has closed any of the write channels,
    exactly one has: the pulse is delivered to one persister, not to all
    four. *)
Theorem Close_done_reaches_one_persister (sched : list Action)
    (db : DBClient) :
  run sched NewDBClient = Some db ->
  (length (sawDone db) <= 1)%nat /\
  forall k, closed db k = true -> length (sawDone db) = 1%nat.
Proof.
  intros Hrun.
  destruct (run_inv sched _ _ inv_NewDBClient Hrun) as [Hcount Hclosed].
  split.
  - rewrite Hcount. destruct (doneSent db); lia.
  - intros k Hk. rewrite Hcount. rewrite Hclosed in Hk.
    unfold doneSent. destruct (closer db); try done; by destruct k.
Qed.

Lemma Close_done_reaches_one_persister_witness :
  exists db,
    run closeSchedule NewDBClient = Some db /\
    sawDone db = [cidInfoC] /\
    map (persister db) chans
      = [FinishDetected; InSelect; InSelect; InSelect] /\
    map (closed db) chans = [true; true; true; true] /\
    (length (sawDone db) <= 1)%nat /\
    forall k, closed db k = true -> length (sawDone db) = 1%nat.
Proof.
  eexists. split; [reflexivity|].
  split; [reflexivity|]. split; [reflexivity|]. split; [reflexivity|].
  apply (Close_done_reaches_one_persister closeSchedule). reflexivity.
Defined.

(** *** What the persisters do with the values sent to them *)

(** The sends on channel [k] in a schedule. *)
Fixpoint adds (k : Chan) (sched : list Action) : nat :=
  match sched with
  | [] => 0
  | Add k' :: rest => (if chan_eqb k' k then 1 else 0) + adds k rest
  | _ :: rest => adds k rest
  end.

(** The persister of [k] has returned from its loop. *)
Definition returned (db : DBClient) (k : Chan) : bool :=
  match persister db k with
  | FinishDetected | ShutdownDetected => true
  | _ => false
  end.

Lemma upd_eq {A : Type} (f : Chan -> A) (k : Chan) (v : A) :
  upd f k v k = v.
Proof. unfold upd. by destruct k. Qed.

Lemma upd_ne {A : Type} (f : Chan -> A) (k k' : Chan) (v : A) :
  chan_eqb k k' = false -> upd f k v k' = f k'.
Proof. unfold upd. by intros ->. Qed.

Lemma chan_eqb_eq (k k' : Chan) : chan_eqb k k' = true <-> k = k'.
Proof. destruct k, k'; simpl; split; intros H; done. Qed.

Lemma step_conserves (a : Action) (db db' : DBClient) (k : Chan) :
  step a db = Some db' ->
  (inserted db' k + buffered db' k
   = inserted db k + buffered db k + adds k [a])%nat /\
  (Z.of_nat (buffered db k) <= bufferSize ->
   Z.of_nat (buffered db' k) <= bufferSize).
Proof.
  intros Hstep.
  destruct a as [j|j|j|j|j|j| | |]; simpl in Hstep |- *.
  - destruct (closed db j); [done|].
    destruct (Z.of_nat (buffered db j) <? bufferSize) eqn:Hroom; [|done].
    injection Hstep as <-. simpl. apply Z.ltb_lt in Hroom.
    destruct (chan_eqb j k) eqn:Hjk.
    + apply chan_eqb_eq in Hjk as ->. rewrite upd_eq. lia.
    + rewrite upd_ne by done. lia.
  - destruct (inSelect db j); [|done].
    destruct (buffered db j) as [|n] eqn:Hbuf; [done|].
    injection Hstep as <-. simpl.
    destruct (chan_eqb j k) eqn:Hjk.
    + apply chan_eqb_eq in Hjk as ->. rewrite !upd_eq. lia.
    + rewrite !upd_ne by done. lia.
  - destruct (inSelect db j), (buffered db j), (closed db j); try done.
    injection Hstep as <-. simpl. lia.
  - destruct (persister db j); try done. injection Hstep as <-. simpl. lia.
  - destruct (inSelect db j), (closer db); try done.
    injection Hstep as <-. simpl. lia.
  - destruct (inSelect db j && ctxDone db); [|done].
    injection Hstep as <-. simpl. lia.
  - injection Hstep as <-. simpl. lia.
  - destruct (closer db); try done. injection Hstep as <-. simpl. lia.
  - destruct (closer db); try done; injection Hstep as <-; simpl; lia.
Qed.

Lemma adds_cons (k : Chan) (a : Action) (sched : list Action) :
  adds k (a :: sched) = (adds k [a] + adds k sched)%nat.
Proof. destruct a; simpl; lia. Qed.

Lemma run_conserves (sched : list Action) (k : Chan) :
  forall db db',
  run sched db = Some db' ->
  (inserted db' k + buffered db' k
   = inserted db k + buffered db k + adds k sched)%nat /\
  (Z.of_nat (buffered db k) <= bufferSize ->
   Z.of_nat (buffered db' k) <= bufferSize).
Proof.
  induction sched as [|a rest IH]; intros db db' Hrun; simpl in Hrun.
  - injection Hrun as <-. simpl. split; [lia|done].
  - destruct (step a db) as [db1|] eqn:Hstep; [|done].
    destruct (step_conserves a db db1 k Hstep) as [H1 H2].
    destruct (IH _ _ Hrun) as [H3 H4].
    rewrite adds_cons. split; [lia|tauto].
Qed.

(** X10.  However the goroutines are scheduled after [NewDBClient], on each
    of the four channels every value sent is either still in the buffer or
    has been inserted, once: the inserts and the buffered values add up to
    the sends; and the buffer never holds more than [bufferSize] values. *)
Theorem persisters_insert_each_value_once (sched : list Action)
    (db : DBClient) (k : Chan) :
  run sched NewDBClient = Some db ->
  (inserted db k + buffered db k = adds k sched)%nat /\
  Z.of_nat (buffered db k) <= bufferSize.
Proof.
  intros Hrun. destruct (run_conserves sched k _ _ Hrun) as [H1 H2].
  simpl in H1, H2. split; [lia|]. apply H2. unfold bufferSize. lia.
Qed.

Lemma persisters_insert_each_value_once_witness :
  exists db,
    run [Add cidInfoC; Add cidInfoC; Add peerInfoC; Persist cidInfoC]
      NewDBClient = Some db /\
    inserted db cidInfoC = 1%nat /\ buffered db cidInfoC = 1%nat /\
    (inserted db cidInfoC + buffered db cidInfoC
     = adds cidInfoC
         [Add cidInfoC; Add cidInfoC; Add peerInfoC; Persist cidInfoC])%nat /\
    Z.of_nat (buffered db cidInfoC) <= bufferSize.
Proof.
  eexists. split; [reflexivity|]. split; [reflexivity|].
  split; [reflexivity|].
  apply (persisters_insert_each_value_once
           [Add cidInfoC; Add cidInfoC; Add peerInfoC; Persist cidInfoC]).
  reflexivity.
Defined.

Lemma step_returned (a : Action) (db db' : DBClient) (k : Chan) :
  returned db k = true -> step a db = Some db' ->
  persister db' k = persister db k /\
  inserted db' k = inserted db k /\
  (buffered db k <= buffered db' k)%nat.
Proof.
  unfold returned. intros Hret Hstep.
  assert (Hsel : inSelect db k = false).
  { unfold inSelect. by destruct (persister db k). }
  assert (Hset : forall j p, inSelect db j = true ->
            upd (persister db) j p k = persister db k).
  { intros j p Hj. apply upd_ne. destruct (chan_eqb j k) eqn:E; [|done].
    apply chan_eqb_eq in E as ->. congruence. }
  destruct a as [j|j|j|j|j|j| | |]; simpl in Hstep.
  - destruct (closed db j); [done|]. destruct (_ <? _); [|done].
    injection Hstep as <-. simpl. split; [done|]. split; [done|].
    unfold upd. destruct (chan_eqb j k) eqn:E; [|done].
    apply chan_eqb_eq in E as ->. lia.
  - destruct (inSelect db j) eqn:Hj; [|done].
    destruct (buffered db j); [done|]. injection Hstep as <-. simpl.
    assert (E : chan_eqb j k = false).
    { destruct (chan_eqb j k) eqn:E; [|done].
      apply chan_eqb_eq in E as ->. congruence. }
    by rewrite !upd_ne.
  - destruct (inSelect db j) eqn:Hj; [|done].
    destruct (buffered db j), (closed db j); try done.
    injection Hstep as <-. simpl. by rewrite Hset.
  - destruct (persister db j) eqn:Hj; try done.
    injection Hstep as <-. simpl. split; [|done].
    apply upd_ne. destruct (chan_eqb j k) eqn:E; [|done].
    apply chan_eqb_eq in E as ->. rewrite Hj in Hret. done.
  - destruct (inSelect db j) eqn:Hj; [|done].
    destruct (closer db); try done.
    injection Hstep as <-. simpl. by rewrite Hset.
  - destruct (inSelect db j) eqn:Hj; [|done].
    destruct (ctxDone db); [|done].
    injection Hstep as <-. simpl. by rewrite Hset.
  - by injection Hstep as <-.
  - destruct (closer db); try done. by injection Hstep as <-.
  - destruct (closer db); try done; by injection Hstep as <-.
Qed.

(** X11.  A persister that has returned, through [case <-db.doneC] or
    through [case <-db.ctx.Done()], stays returned and inserts nothing more,
    whatever happens afterwards: the values that are in its channel then,
    and those sent to it later, stay in the buffer.  [Close] does not wait
    for the channels to be emptied. *)
Theorem returned_persister_inserts_nothing (sched : list Action)
    (k : Chan) :
  forall db db',
  returned db k = true ->
  run sched db = Some db' ->
  persister db' k = persister db k /\
  inserted db' k = inserted db k /\
  (buffered db k <= buffered db' k)%nat.
Proof.
  induction sched as [|a rest IH]; intros db db' Hret Hrun; simpl in Hrun.
  - injection Hrun as <-. done.
  - destruct (step a db) as [db1|] eqn:Hstep; [|done].
    destruct (step_returned a db db1 k Hret Hstep) as (Hp & Hi & Hb).
    destruct (IH db1 db') as (Hp' & Hi' & Hb'); [|exact Hrun|].
    + unfold returned in *. by rewrite Hp.
    + split; [congruence|]. split; [congruence|lia].
Qed.

(** Two CidInfos are sent, [Close] is called and the persister of
    [cidInfoC] takes the pulse: neither value is inserted, before or after
    the channel is closed. *)
Lemma returned_persister_inserts_nothing_witness :
  exists db db',
    run [Add cidInfoC; Add cidInfoC; CallClose; RecvDone cidInfoC]
      NewDBClient = Some db /\
    run [CloseNext; CloseNext; CloseNext; CloseNext; CloseNext] db
      = Some db' /\
    closer db' = Returned /\ buffered db' cidInfoC = 2%nat /\
    inserted db' cidInfoC = 0%nat /\
    persister db' cidInfoC = persister db cidInfoC /\
    inserted db' cidInfoC = inserted db cidInfoC /\
    (buffered db cidInfoC <= buffered db' cidInfoC)%nat.
Proof.
  eexists _, _. split; [reflexivity|]. split; [reflexivity|].
  split; [reflexivity|]. split; [reflexivity|]. split; [reflexivity|].
  apply (returned_persister_inserts_nothing
           [CloseNext; CloseNext; CloseNext; CloseNext; CloseNext] cidInfoC);
    reflexivity.
Defined.

(** No persister is left to take the pulse: each has returned. *)
Definition noReceiver (db : DBClient) : Prop :=
  forall k, returned db k = true.

Lemma step_noReceiver (a : Action) (db db' : DBClient) :
  noReceiver db -> doneSent db = false -> step a db = Some db' ->
  noReceiver db' /\ doneSent db' = false /\
  forall k, closed db' k = closed db k.
Proof.
  intros Hno Hsent Hstep.
  assert (Hsel : forall k, inSelect db k = false).
  { intros k. specialize (Hno k). unfold returned, inSelect in *.
    by destruct (persister db k). }
  destruct a as [j|j|j|j|j|j| | |]; simpl in Hstep.
  - destruct (closed db j); [done|]. destruct (_ <? _); [|done].
    by injection Hstep as <-.
  - by rewrite Hsel in Hstep.
  - by rewrite Hsel in Hstep.
  - specialize (Hno j). unfold returned in Hno.
    by destruct (persister db j).
  - by rewrite Hsel in Hstep.
  - by rewrite Hsel in Hstep.
  - by injection Hstep as <-.
  - unfold doneSent in Hsent. destruct (closer db); try done.
    by injection Hstep as <-.
  - unfold doneSent in Hsent. by destruct (closer db).
Qed.

(** X12.  When the four persisters have returned before [Close] has sent
    on [doneC] (after a cancellation of the root context, say), [Close]
    never completes that send, whatever happens afterwards: [doneC] is
    unbuffered and nobody receives from it, so no channel is closed and
    [Close] does not return. *)
Theorem Close_blocks_without_persisters (sched : list Action) :
  forall db db',
  noReceiver db ->
  doneSent db = false ->
  run sched db = Some db' ->
  doneSent db' = false /\
  closer db' <> Returned /\
  forall k, closed db' k = closed db k.
Proof.
  induction sched as [|a rest IH]; intros db db' Hno Hsent Hrun;
    simpl in Hrun.
  - injection Hrun as <-. split; [done|]. split; [|done].
    unfold doneSent in Hsent. by destruct (closer db).
  - destruct (step a db) as [db1|] eqn:Hstep; [|done].
    destruct (step_noReceiver a db db1 Hno Hsent Hstep) as (Hno1 & Hs1 & Hc1).
    destruct (IH db1 db' Hno1 Hs1 Hrun) as (Hs' & Hr' & Hc').
    split; [done|]. split; [done|]. intros k. by rewrite Hc', Hc1.
Qed.

(** The root context is cancelled, the four persisters see it and return,
    and then [Close] is called. *)
Lemma Close_blocks_without_persisters_witness :
  exists db db',
    run [Cancel; RecvCtx cidInfoC; RecvCtx peerInfoC; RecvCtx fetchResultC;
         RecvCtx pingResultsC] NewDBClient = Some db /\
    run [CallClose; Add cidInfoC] db = Some db' /\
    closer db' = SendDone /\
    step CloseNext db' = None /\
    doneSent db' = false /\
    closer db' <> Returned /\
    forall k, closed db' k = closed db k.
Proof.
  eexists _, _. split; [reflexivity|]. split; [reflexivity|].
  split; [reflexivity|]. split; [reflexivity|].
  apply (Close_blocks_without_persisters [CallClose; Add cidInfoC]).
  - intros k. by destruct k.
  - reflexivity.
  - reflexivity.
Defined.

End DB.

(** ** The CID publisher: workers and the ADD_PROVIDER listener *)

Module Publisher.
Import Models.

(** [pb.Message_MessageType] of go-libp2p-kad-dht. *)
Inductive MessageType :=
| PUT_VALUE | GET_VALUE | ADD_PROVIDER | GET_PROVIDERS | FIND_NODE | PING.

(** [p2p.MsgNotification]: what the host's send-message hook reports. *)
Record MsgNotification := mkMsg {
  RemotePeer : PeerID;
  QueryTime : Time;
  QueryDuration : Duration;
  MsgType : MessageType;
  MsgKey : string;
  Error : option string;
}.

(** What the getters of the lookup metrics return. *)
Record LookupMetrics := mkMetrics {
  GetTotalHops : Z;
  GetTreeDepth : Z;
  GetMinHopsForPeerSet : Z;
}.

(** What the publisher's goroutines share.  [cidSet] and the [sync.Map]
    [firstCidFetchRes] hold pointers; the objects are in [infos] and
    [fetches].  [doneC] lists the fetch results whose [DoneC] holds a signal;
    [dbCidInfoC] and [dbFetchResultC] are the channels of the DB client. *)
Record PubState := mkPub {
  infos : gmap nat CidInfo;
  fetches : gmap nat CidFetchResults;
  next : nat;
  cidSet : gmap string nat;
  firstCidFetchRes : gmap string nat;
  doneC : list nat;
  dbCidInfoC : list nat;
  dbFetchResultC : list nat;
}.

(** Modelled from the spec: cidSet is not under src/.  "A mapping from CID
    key-form to CidInfo with concurrent-safe insert-if-absent and lookup." *)
Definition cidSet_addCid (key : string) (p : nat) (m : gmap string nat)
  : gmap string nat :=
  match m !! key with
  | Some _ => m
  | None => <[key := p]> m
  end.

Definition cidSet_getCid (key : string) (m : gmap string nat) : option nat :=
  m !! key.

(** [cid.Undef], whose multihash is empty. *)
Definition Undef : Cid := EmptyString.

(** The fields of [CidPublisher] that a worker reads; [pub_hostID] is
    [publisher.host.ID()]. *)
Record CidPublisher := mkPublisher {
  pub_hostID : PeerID;
  pub_dhtProvide : string;
  pub_K : Z;
  pub_ReqInterval : Duration;
  pub_CidPingTime : Duration;
}.

(** What the publisher calls outside src/: the clock, [cid.Cast] on the key
    of a message, the peerstore of the host, the classifier of connection
    errors of package [p2p] and its tag for no error, the methods [IsDone]
    and [AddPRHolder] of package [models], and [host.ProvideCid], which
    returns the provide time, the lookup metrics and the error, with the
    notifications the host sends while the call runs. *)
Class Env (W : Type) := {
  Now : W -> Time;
  Cast : string -> option Cid;
  GetMAddrsOfPeer : PeerID -> list string;
  GetUserAgentOfPeer : PeerID -> string;
  ParseConError : string -> string;
  NoConnError : string;
  IsDone : CidFetchResults -> bool;
  AddPRHolder : CidInfo -> PeerInfo -> CidInfo;
  ProvideCid :
    CidInfo -> W ->
    (Duration * option LookupMetrics * option string)
    * list MsgNotification * W;
}.

Section Process.

Context {W : Type} {env : Env W}.
Variable publisher : CidPublisher.

(** The listener's [case msgNot := <-msgNotChannel].  [None] is a panic:
    [log.Panic] for a CID that is not in the cidSet, and the type assertion
    on the nil value that [Load] returns for a key it does not hold. *)
Definition onMsgNotification (msgNot : MsgNotification) (st : PubState)
  : option PubState :=
  let castedCid := default Undef (Cast (MsgKey msgNot)) in
  match MsgType msgNot with
  | ADD_PROVIDER =>
      let '(active, connError) :=
        match Error msgNot with
        | Some e => (false, ParseConError e)
        | None => (true, NoConnError)
        end in
      match cidSet_getCid (B58String castedCid) (cidSet st) with
      | None => None
      | Some pInfo =>
      match firstCidFetchRes st !! B58String castedCid with
      | None => None
      | Some pFetch =>
      match infos st !! pInfo, fetches st !! pFetch with
      | Some cidInfo, Some cidFetRes =>
          let cidFetRes' :=
            AddPRPingResults cidFetRes
              (mkPRPingResults castedCid (RemotePeer msgNot) 0
                 (fr_StartTime cidFetRes) (QueryTime msgNot)
                 (QueryDuration msgNot) active false false connError) in
          let prHolderInfo :=
            NewPeerInfo (RemotePeer msgNot)
              (GetMAddrsOfPeer (RemotePeer msgNot))
              (GetUserAgentOfPeer (RemotePeer msgNot)) in
          let cidInfo' := AddPRHolder cidInfo prHolderInfo in
          let done := IsDone cidFetRes' in
          Some (mkPub (<[pInfo := cidInfo']> (infos st))
                  (<[pFetch := cidFetRes']> (fetches st))
                  (next st) (cidSet st) (firstCidFetchRes st)
                  (if done then doneC st ++ [pFetch] else doneC st)
                  (dbCidInfoC st) (dbFetchResultC st))
      | _, _ => None
      end
      end
      end
  | _ => Some st
  end.

(** The listener over the notifications of one provide call. *)
Fixpoint addProviderMsgListener (msgs : list MsgNotification) (st : PubState)
  : option PubState :=
  match msgs with
  | [] => Some st
  | m :: rest =>
      match onMsgNotification m st with
      | None => None
      | Some st' => addProviderMsgListener rest st'
      end
  end.

(** A worker, from receiving [nextCid] to the call of [ProvideCid]: the new
    CidInfo goes into the cidSet and the round-0 fetch result into the
    shared map.  The result is the state in which [ProvideCid] is called,
    with the worker's two pointers. *)
Definition trackCid (nextCid : Cid) (w : W) (st : PubState)
  : PubState * nat * nat :=
  let cidStr := B58String nextCid in
  let cidInfo :=
    NewCidInfo nextCid (pub_K publisher) (pub_ReqInterval publisher)
      (pub_CidPingTime publisher) (pub_dhtProvide publisher)
      (pub_hostID publisher) in
  let pInfo := next st in
  let pubTime := Now w in
  let fetchRes := NewCidFetchResults nextCid pubTime 0 (pub_K publisher) in
  let pFetch := S (next st) in
  (mkPub (<[pInfo := cidInfo]> (infos st))
     (<[pFetch := fetchRes]> (fetches st))
     (S (S (next st)))
     (cidSet_addCid cidStr pInfo (cidSet st))
     (<[cidStr := pFetch]> (firstCidFetchRes st))
     (doneC st) (dbCidInfoC st) (dbFetchResultC st),
   pInfo, pFetch).

Inductive Outcome :=
| Published (st : PubState) (w : W)
| ListenerPanic (st : PubState)
| WaitsForDoneC (st : PubState) (w : W).

Definition setMetrics (m : option LookupMetrics) (f : CidFetchResults)
  : CidFetchResults :=
  match m with
  | Some lm => set_LookupMetrics (GetTotalHops lm) (GetTreeDepth lm)
                 (GetMinHopsForPeerSet lm) f
  | None => set_LookupMetrics (-1) (-1) (-1) f
  end.

Fixpoint removeFirst (p : nat) (l : list nat) : option (list nat) :=
  match l with
  | [] => None
  | x :: rest =>
      if Nat.eqb x p then Some rest
      else option_map (cons x) (removeFirst p rest)
  end.

(** The body of [case nextCid := <-cidChannel] in [publishingProcess].  The
    notifications of the provide call are handled by the listener before
    the worker goes on; the worker then needs the signal on [DoneC]. *)
Definition publishCid (nextCid : Cid) (w : W) (st : PubState) : Outcome :=
  let '(st1, pInfo, pFetch) := trackCid nextCid w st in
  let pubTime := Now w in
  let cidInfo :=
    NewCidInfo nextCid (pub_K publisher) (pub_ReqInterval publisher)
      (pub_CidPingTime publisher) (pub_dhtProvide publisher)
      (pub_hostID publisher) in
  let '((reqTime, lookupMetrics, _), msgs, w1) := ProvideCid cidInfo w in
  match addProviderMsgListener msgs st1 with
  | None => ListenerPanic st1
  | Some st3 =>
      let fetches4 := alter (setMetrics lookupMetrics) pFetch (fetches st3) in
      match removeFirst pFetch (doneC st3) with
      | None =>
          WaitsForDoneC
            (mkPub (infos st3) fetches4 (next st3) (cidSet st3)
               (firstCidFetchRes st3) (doneC st3) (dbCidInfoC st3)
               (dbFetchResultC st3)) w1
      | Some doneC' =>
          let fetchRes :=
            default (NewCidFetchResults nextCid pubTime 0 (pub_K publisher))
              (fetches4 !! pFetch) in
          let finish c :=
            AddPRFetchResults fetchRes
              (AddProvideTime reqTime (AddPublicationTime pubTime c)) in
          Published
            (mkPub (alter finish pInfo (infos st3)) fetches4 (next st3)
               (cidSet st3) (firstCidFetchRes st3) doneC'
               (dbCidInfoC st3 ++ [pInfo]) (dbFetchResultC st3 ++ [pFetch]))
            w1
      end
  end.

(** [publishingProcess] over the CIDs the worker receives from the
    channel, until the generation is done: it goes on to the next CID when
    one is published. *)
Fixpoint publishingProcess (cids : list Cid) (w : W) (st : PubState)
  : Outcome :=
  match cids with
  | [] => Published st w
  | nextCid :: rest =>
      match publishCid nextCid w st with
      | Published st' w' => publishingProcess rest w' st'
      | o => o
      end
  end.

End Process.

(** Every pointer of the cidSet points to an object. *)
Definition tracked_alloc (st : PubState) : Prop :=
  forall k p, cidSet st !! k = Some p -> is_Some (infos st !! p).

(** A host for examples: keys are CIDs in their key form, every peer has one
    address and the same agent, a fetch result is done with [fr_K] ping
    results, a holder is added at the end of PRHolders, and a provide call
    sends nothing. *)
#[export] Instance fakeEnv : Env unit := {|
  Now := fun _ => 100;
  Cast := fun k => Some k;
  GetMAddrsOfPeer := fun _ => ["/ip4/10.0.0.1/tcp/4001"];
  GetUserAgentOfPeer := fun _ => "kubo";
  ParseConError := fun e => e;
  NoConnError := "none";
  IsDone := fun f => Z.of_nat (length (fr_PRPingResults f)) =? fr_K f;
  AddPRHolder := Models.AddPRHolder;
  ProvideCid := fun _ w => ((0, None, None), [], w);
|}.

Definition fakePublisher : CidPublisher :=
  mkPublisher "creator" "standard" 20 1000 5000.

Definition emptyPub : PubState := mkPub ∅ ∅ 0 ∅ ∅ [] [] [].

(** The state in which a worker calls [ProvideCid] for the CID "cid1", the
    first it has drawn. *)
Definition trackedPub : PubState :=
  (trackCid fakePublisher "cid1" tt emptyPub).1.1.

Definition failedAddProvider : MsgNotification :=
  mkMsg "peer1" 110 7 ADD_PROVIDER "cid1" (Some "connection refused").

(** A host whose provide call sends the notifications of a script, the
    world, and uses it up; the rest is as in [fakeEnv]. *)
Definition scriptedEnv : Env (list MsgNotification) := {|
  Now := fun _ => 100;
  Cast := fun k => Some k;
  GetMAddrsOfPeer := fun _ => ["/ip4/10.0.0.1/tcp/4001"];
  GetUserAgentOfPeer := fun _ => "kubo";
  ParseConError := fun e => e;
  NoConnError := "none";
  IsDone := fun f => Z.of_nat (length (fr_PRPingResults f)) =? fr_K f;
  AddPRHolder := Models.AddPRHolder;
  ProvideCid := fun _ w => ((7, None, None), w, []);
|}.

(** A publisher with K = 2, and the notifications of a provide call for
    "cid1": one peer fails, a lookup message goes by, one peer accepts. *)
Definition twoPublisher : CidPublisher :=
  mkPublisher "creator" "standard" 2 1000 5000.

Definition cid1Script : list MsgNotification :=
  [mkMsg "peer1" 110 7 ADD_PROVIDER "cid1" (Some "connection refused");
   mkMsg "peer3" 115 2 GET_PROVIDERS "cid9" None;
   mkMsg "peer2" 120 3 ADD_PROVIDER "cid1" None].

(** *** Properties of the publisher *)

Section ProcessFacts.

Context {W : Type} {env : Env W}.
Variable publisher : CidPublisher.

(** What the listener makes of an ADD_PROVIDER notification: the PeerInfo
    of the remote peer, and the round-0 ping result for the CID [c] of a
    fetch result opened at [pubTime]. *)
Definition holderOf (m : MsgNotification) : PeerInfo :=
  NewPeerInfo (RemotePeer m) (GetMAddrsOfPeer (RemotePeer m))
    (GetUserAgentOfPeer (RemotePeer m)).

Definition pingResultOf (c : Cid) (pubTime : Time) (m : MsgNotification)
  : PRPingResults :=
  mkPRPingResults c (RemotePeer m) 0 pubTime (QueryTime m) (QueryDuration m)
    (match Error m with Some _ => false | None => true end) false false
    (match Error m with Some e => ParseConError e | None => NoConnError end).

Definition isAddProvider (m : MsgNotification) : bool :=
  match MsgType m with ADD_PROVIDER => true | _ => false end.

(** The listener writes to the two objects of the CID and to [DoneC]; it
    leaves the maps, the allocator and the channels of the DB client as they
    are. *)
Lemma onMsgNotification_frame (m : MsgNotification) (st st' : PubState) :
  onMsgNotification m st = Some st' ->
  next st' = next st /\ cidSet st' = cidSet st /\
  firstCidFetchRes st' = firstCidFetchRes st /\
  dbCidInfoC st' = dbCidInfoC st /\ dbFetchResultC st' = dbFetchResultC st.
Proof.
  unfold onMsgNotification.
  destruct (MsgType m); try (by intros [= <-]).
  destruct (Error m); destruct (cidSet_getCid _ _); try done;
    destruct (firstCidFetchRes st !! _); try done;
    destruct (infos st !! _); try done;
    destruct (fetches st !! _); try done;
    by intros [= <-].
Qed.

Lemma addProviderMsgListener_frame (msgs : list MsgNotification) :
  forall st st', addProviderMsgListener msgs st = Some st' ->
  next st' = next st /\ cidSet st' = cidSet st /\
  firstCidFetchRes st' = firstCidFetchRes st /\
  dbCidInfoC st' = dbCidInfoC st /\ dbFetchResultC st' = dbFetchResultC st.
Proof.
  induction msgs as [|m msgs IH]; intros st st' H; simpl in H.
  - by injection H as <-.
  - destruct (onMsgNotification m st) as [st1|] eqn:Hm; [|done].
    apply onMsgNotification_frame in Hm as (? & ? & ? & ? & ?).
    apply IH in H as (? & ? & ? & ? & ?). repeat split; congruence.
Qed.

Lemma removeFirst_None (p : nat) (l : list nat) :
  removeFirst p l = None <-> p ∉ l.
Proof.
  induction l as [|x l IH]; simpl.
  - split; [intros _; apply not_elem_of_nil|done].
  - rewrite not_elem_of_cons. destruct (Nat.eqb_spec x p) as [->|Hne].
    + split; [done|]. intros [? _]. done.
    + destruct (removeFirst p l); simpl.
      * split; [done|]. intros [_ H]. by apply IH in H.
      * split; [|done]. intros _. split; [done|]. by apply IH.
Qed.

Lemma removeFirst_Some (p : nat) (l l' : list nat) :
  removeFirst p l = Some l' -> l ≡ₚ p :: l'.
Proof.
  revert l'. induction l as [|x l IH]; intros l'; simpl; [done|].
  destruct (Nat.eqb_spec x p) as [->|Hne].
  - by intros [= <-].
  - destruct (removeFirst p l) as [l0|]; [|done]. simpl. intros [= <-].
    rewrite (IH l0 eq_refl). apply Permutation_swap.
Qed.

(** The state the listener leaves after an ADD_PROVIDER notification whose
    CID it resolves. *)
Lemma onMsgNotification_resolved (msgNot : MsgNotification)
    (st : PubState) (pInfo pFetch : nat) (cidInfo : CidInfo)
    (cidFetRes : CidFetchResults) :
  MsgType msgNot = ADD_PROVIDER ->
  cidSet st !! B58String (default Undef (Cast (MsgKey msgNot))) = Some pInfo ->
  firstCidFetchRes st !! B58String (default Undef (Cast (MsgKey msgNot)))
    = Some pFetch ->
  infos st !! pInfo = Some cidInfo ->
  fetches st !! pFetch = Some cidFetRes ->
  let r := pingResultOf (default Undef (Cast (MsgKey msgNot)))
             (fr_StartTime cidFetRes) msgNot in
  onMsgNotification msgNot st
    = Some (mkPub (<[pInfo := AddPRHolder cidInfo (holderOf msgNot)]>
                     (infos st))
              (<[pFetch := AddPRPingResults cidFetRes r]> (fetches st))
              (next st) (cidSet st) (firstCidFetchRes st)
              (if IsDone (AddPRPingResults cidFetRes r)
               then doneC st ++ [pFetch] else doneC st)
              (dbCidInfoC st) (dbFetchResultC st)).
Proof.
  intros Hty Hset Hmap Hinfo Hfetch.
  unfold onMsgNotification, cidSet_getCid, pingResultOf, holderOf.
  rewrite Hty, Hset, Hmap, Hinfo, Hfetch.
  destruct (Error msgNot); reflexivity.
Qed.

(** C1, as the code has it.  For an ADD_PROVIDER notification whose CID is
    in the cidSet and has its round-0 fetch result in the shared map, the
    listener adds a PeerInfo of the remote peer to the PRHolders of the
    CidInfo whether the notification carries an error or not.  The error
    decides the Active flag and the ConnError tag of the round-0 ping
    result and nothing else: the other fields of the ping result, the
    signal on DoneC (sent when the fetch result with the new ping result is
    done), the other objects, the maps and the channels of the DB client
    are what they are without looking at it. *)
Theorem onMsgNotification_adds_holder (msgNot : MsgNotification)
    (st : PubState) (pInfo pFetch : nat) (cidInfo : CidInfo)
    (cidFetRes : CidFetchResults) :
  MsgType msgNot = ADD_PROVIDER ->
  cidSet st !! B58String (default Undef (Cast (MsgKey msgNot))) = Some pInfo ->
  firstCidFetchRes st !! B58String (default Undef (Cast (MsgKey msgNot)))
    = Some pFetch ->
  infos st !! pInfo = Some cidInfo ->
  fetches st !! pFetch = Some cidFetRes ->
  exists st' r,
    onMsgNotification msgNot st = Some st' /\
    infos st' !! pInfo
      = Some (AddPRHolder cidInfo
                (NewPeerInfo (RemotePeer msgNot)
                   (GetMAddrsOfPeer (RemotePeer msgNot))
                   (GetUserAgentOfPeer (RemotePeer msgNot)))) /\
    fetches st' !! pFetch = Some (AddPRPingResults cidFetRes r) /\
    pr_PeerID r = RemotePeer msgNot /\
    pr_Round r = 0 /\
    pr_HasRecords r = false /\
    pr_Active r = match Error msgNot with Some _ => false | None => true end /\
    pr_ConnError r = match Error msgNot with
                     | Some e => ParseConError e
                     | None => NoConnError
                     end /\
    pr_Cid r = default Undef (Cast (MsgKey msgNot)) /\
    pr_PublicationTime r = fr_StartTime cidFetRes /\
    pr_FetchTime r = QueryTime msgNot /\
    pr_FetchDuration r = QueryDuration msgNot /\
    pr_RecordsWithMAddrs r = false /\
    doneC st' = (if IsDone (AddPRPingResults cidFetRes r)
                 then doneC st ++ [pFetch] else doneC st) /\
    (forall p, p <> pInfo -> infos st' !! p = infos st !! p) /\
    (forall p, p <> pFetch -> fetches st' !! p = fetches st !! p) /\
    next st' = next st /\
    cidSet st' = cidSet st /\
    firstCidFetchRes st' = firstCidFetchRes st /\
    dbCidInfoC st' = dbCidInfoC st /\
    dbFetchResultC st' = dbFetchResultC st.
Proof.
  intros Hty Hset Hmap Hinfo Hfetch.
  rewrite (onMsgNotification_resolved msgNot st pInfo pFetch cidInfo
             cidFetRes Hty Hset Hmap Hinfo Hfetch).
  eexists _, _. split; [reflexivity|].
  cbn [infos fetches doneC next cidSet firstCidFetchRes dbCidInfoC
       dbFetchResultC].
  rewrite !lookup_insert_eq.
  repeat (split; [reflexivity|]).
  split; [|split; [|done]]; intros p Hp; by rewrite lookup_insert_ne.
Qed.

Lemma PRPingResults_fold (rs : list PRPingResults) :
  forall f, fr_PRPingResults (fold_left AddPRPingResults rs f)
            = fr_PRPingResults f ++ rs.
Proof.
  induction rs as [|r rs IH]; intros f; simpl.
  - by rewrite app_nil_r.
  - rewrite IH. simpl. by rewrite <- app_assoc.
Qed.

(** The listener over notifications whose ADD_PROVIDERs are all for a CID
    it resolves: it handles every one of them, adding a holder to the
    CidInfo and a ping result to the fetch result each time. *)
Lemma addProviderMsgListener_resolved (c : Cid)
    (msgs : list MsgNotification) :
  Forall (fun m => MsgType m = ADD_PROVIDER -> Cast (MsgKey m) = Some c)
    msgs ->
  forall (st : PubState) (pInfo pFetch : nat) (cidInfo : CidInfo)
    (cidFetRes : CidFetchResults),
  cidSet st !! B58String c = Some pInfo ->
  firstCidFetchRes st !! B58String c = Some pFetch ->
  infos st !! pInfo = Some cidInfo ->
  fetches st !! pFetch = Some cidFetRes ->
  exists st',
    addProviderMsgListener msgs st = Some st' /\
    infos st' !! pInfo
      = Some (fold_left AddPRHolder
                (holderOf <$> List.filter isAddProvider msgs) cidInfo) /\
    fetches st' !! pFetch
      = Some (fold_left AddPRPingResults
                (pingResultOf c (fr_StartTime cidFetRes)
                   <$> List.filter isAddProvider msgs) cidFetRes).
Proof.
  induction 1 as [|m msgs Hm _ IH];
    intros st pInfo pFetch cidInfo cidFetRes Hset Hmap Hinfo Hfetch.
  { exists st. done. }
  cbn [addProviderMsgListener List.filter].
  destruct (MsgType m) eqn:Hty;
    try (unfold onMsgNotification, isAddProvider; rewrite Hty;
         by apply IH).
  specialize (Hm eq_refl).
  rewrite (onMsgNotification_resolved m st pInfo pFetch cidInfo cidFetRes);
    try done; try (by rewrite Hm).
  unfold isAddProvider. rewrite Hty, Hm. cbn [default id].
  rewrite !fmap_cons. cbn [fold_left].
  edestruct (IH (mkPub
                   (<[pInfo := AddPRHolder cidInfo (holderOf m)]> (infos st))
                   (<[pFetch := AddPRPingResults cidFetRes
                                  (pingResultOf c (fr_StartTime cidFetRes) m)]>
                      (fetches st))
                   (next st) (cidSet st) (firstCidFetchRes st)
                   (if IsDone (AddPRPingResults cidFetRes
                                 (pingResultOf c (fr_StartTime cidFetRes) m))
                    then doneC st ++ [pFetch] else doneC st)
                   (dbCidInfoC st) (dbFetchResultC st))
                pInfo pFetch)
    as (st' & Hrun & Hi & Hf);
    [exact Hset | exact Hmap | apply lookup_insert_eq
    | apply lookup_insert_eq |].
  exists st'. split; [exact Hrun|]. split; [exact Hi|exact Hf].
Qed.

(** C7.  The worker has put the new CidInfo into the cidSet and the round-0
    fetch result into the shared map when it calls [ProvideCid]: whatever
    notifications the host sends while the call runs, the listener
    resolves every ADD_PROVIDER for the CID by its key.  For a provide call
    all of whose ADD_PROVIDER notifications are for this CID, the listener
    does not panic; the CID is left in the cidSet and the new fetch result
    in the shared map, under the key; the CidInfo the key points to gets
    one holder for each ADD_PROVIDER notification of the call and the new
    fetch result one ping result for each, in the order they came.  For a
    CID that was not in the cidSet that CidInfo is the worker's new one,
    and before the worker put it there the listener would have panicked on
    any of these notifications; for a CID that was there it is the one that
    was there. *)
Theorem publishCid_tracks_before_provide (nextCid : Cid) (w : W)
    (st : PubState) :
  let key := B58String nextCid in
  let cidInfo :=
    NewCidInfo nextCid (pub_K publisher) (pub_ReqInterval publisher)
      (pub_CidPingTime publisher) (pub_dhtProvide publisher)
      (pub_hostID publisher) in
  let adds := List.filter isAddProvider (ProvideCid cidInfo w).1.2 in
  tracked_alloc st ->
  Forall (fun m => MsgType m = ADD_PROVIDER ->
                   Cast (MsgKey m) = Some nextCid)
    (ProvideCid cidInfo w).1.2 ->
  exists st' w' p ci,
    (publishCid publisher nextCid w st = Published st' w' \/
     publishCid publisher nextCid w st = WaitsForDoneC st' w') /\
    cidSet st' !! key = Some p /\
    firstCidFetchRes st' !! key = Some (S (next st)) /\
    PRHolders <$> infos st' !! p
      = Some (PRHolders (fold_left AddPRHolder (holderOf <$> adds) ci)) /\
    fr_PRPingResults <$> fetches st' !! S (next st)
      = Some (pingResultOf nextCid (Now w) <$> adds) /\
    (cidSet st !! key = None ->
     p = next st /\ ci = cidInfo /\
     forall m, MsgType m = ADD_PROVIDER -> Cast (MsgKey m) = Some nextCid ->
       onMsgNotification m st = None) /\
    (forall p0, cidSet st !! key = Some p0 ->
       p = p0 /\ (p0 <> next st -> infos st !! p0 = Some ci)).
Proof.
  cbn zeta. intros Halloc Hmsgs.
  set (cidInfo := NewCidInfo nextCid (pub_K publisher)
                    (pub_ReqInterval publisher) (pub_CidPingTime publisher)
                    (pub_dhtProvide publisher) (pub_hostID publisher)) in *.
  assert (exists p ci,
            cidSet_addCid (B58String nextCid) (next st) (cidSet st)
              !! B58String nextCid = Some p /\
            <[next st := cidInfo]> (infos st) !! p = Some ci /\
            (cidSet st !! B58String nextCid = None ->
             p = next st /\ ci = cidInfo) /\
            (forall p0, cidSet st !! B58String nextCid = Some p0 ->
               p = p0 /\ (p0 <> next st -> infos st !! p0 = Some ci)))
    as (p & ci & Hp & Hci & Hfresh & Hold).
  { unfold cidSet_addCid.
    destruct (cidSet st !! B58String nextCid) as [p0|] eqn:Hk.
    - destruct (Halloc _ _ Hk) as [c0 Hc0].
      destruct (decide (p0 = next st)) as [->|Hne].
      + exists (next st), cidInfo. rewrite lookup_insert_eq.
        split; [exact Hk|]. split; [done|]. split; [done|].
        intros p1 [= <-]. done.
      + exists p0, c0. rewrite lookup_insert_ne by done.
        split; [exact Hk|]. split; [done|]. split; [done|].
        intros p1 [= <-]. done.
    - exists (next st), cidInfo. rewrite !lookup_insert_eq.
      split; [done|]. split; [done|]. split; [done|]. done. }
  unfold publishCid, trackCid. fold cidInfo.
  destruct (ProvideCid cidInfo w)
    as [[[[reqTime lookupMetrics] err] msgs] w1].
  cbn [fst snd] in Hmsgs |- *.
  match goal with
  | |- context [addProviderMsgListener msgs ?s] => set (st1 := s)
  end.
  destruct (addProviderMsgListener_resolved nextCid msgs Hmsgs st1
              p (S (next st)) ci
              (NewCidFetchResults nextCid (Now w) 0 (pub_K publisher)))
    as (st3 & Hlisten & Hinfo & Hfetch);
    [exact Hp | apply lookup_insert_eq | exact Hci | apply lookup_insert_eq
    | rewrite Hlisten].
  apply addProviderMsgListener_frame in Hlisten as (_ & Hset & Hmap & _).
  cbn [cidSet firstCidFetchRes] in Hset, Hmap.
  subst st1. cbn [cidSet firstCidFetchRes] in Hset, Hmap.
  assert (cidSet st3 !! B58String nextCid = Some p) as Hk
    by (by rewrite Hset).
  assert (firstCidFetchRes st3 !! B58String nextCid = Some (S (next st)))
    as Hf by (rewrite Hmap; apply lookup_insert_eq).
  assert (cidSet st !! B58String nextCid = None ->
          p = next st /\ ci = cidInfo /\
          forall m, MsgType m = ADD_PROVIDER ->
            Cast (MsgKey m) = Some nextCid ->
            onMsgNotification m st = None) as Hfresh'.
  { intros Hfree. destruct (Hfresh Hfree) as [-> ->].
    repeat split. intros m Hty Hcast.
    unfold onMsgNotification, cidSet_getCid.
    rewrite Hty, Hcast. cbn [default id]. rewrite Hfree.
    by destruct (Error m). }
  destruct (removeFirst _ _); eexists _, w1, p, ci;
    (split; [by (left + right)|]);
    cbn [cidSet firstCidFetchRes infos fetches];
    (split; [exact Hk|]); (split; [exact Hf|]);
    (split; [|split; [|split; [exact Hfresh'|exact Hold]]]).
  - destruct (decide (p = next st)) as [->|Hne].
    + rewrite lookup_alter_eq, Hinfo. reflexivity.
    + rewrite lookup_alter_ne by done. rewrite Hinfo. reflexivity.
  - rewrite lookup_alter_eq, Hfetch. cbn.
    destruct lookupMetrics; cbn; by rewrite PRPingResults_fold.
  - rewrite Hinfo. reflexivity.
  - rewrite lookup_alter_eq, Hfetch. cbn.
    destruct lookupMetrics; cbn; by rewrite PRPingResults_fold.
Qed.

End ProcessFacts.

(** C1 as stated fails.  An ADD_PROVIDER notification that carries an
    error, for a tracked CID without holders: the listener records the
    failed peer in PRHolders. *)
Lemma failed_add_provider_adds_holder :
  exists st',
    onMsgNotification failedAddProvider trackedPub = Some st' /\
    Error failedAddProvider = Some "connection refused" /\
    PRHolders <$> infos trackedPub !! 0%nat = Some [] /\
    PRHolders <$> infos st' !! 0%nat
      = Some [NewPeerInfo "peer1" ["/ip4/10.0.0.1/tcp/4001"] "kubo"].
Proof.
  eexists. split; [vm_compute; reflexivity|].
  vm_compute. repeat split; reflexivity.
Qed.

Lemma onMsgNotification_adds_holder_witness :
  exists st' r,
    onMsgNotification failedAddProvider trackedPub = Some st' /\
    infos st' !! 0%nat
      = Some (AddPRHolder
                (NewCidInfo "cid1" 20 1000 5000 "standard" "creator")
                (NewPeerInfo (RemotePeer failedAddProvider)
                   (GetMAddrsOfPeer (RemotePeer failedAddProvider))
                   (GetUserAgentOfPeer (RemotePeer failedAddProvider)))) /\
    fetches st' !! 1%nat
      = Some (AddPRPingResults (NewCidFetchResults "cid1" 100 0 20) r) /\
    pr_PeerID r = RemotePeer failedAddProvider /\
    pr_Round r = 0 /\
    pr_HasRecords r = false /\
    pr_Active r = match Error failedAddProvider with
                  | Some _ => false
                  | None => true
                  end /\
    pr_ConnError r = match Error failedAddProvider with
                     | Some e => ParseConError e
                     | None => NoConnError
                     end /\
    pr_Cid r = default Undef (Cast (MsgKey failedAddProvider)) /\
    pr_PublicationTime r
      = fr_StartTime (NewCidFetchResults "cid1" 100 0 20) /\
    pr_FetchTime r = QueryTime failedAddProvider /\
    pr_FetchDuration r = QueryDuration failedAddProvider /\
    pr_RecordsWithMAddrs r = false /\
    doneC st'
      = (if IsDone (AddPRPingResults (NewCidFetchResults "cid1" 100 0 20) r)
         then doneC trackedPub ++ [1%nat] else doneC trackedPub) /\
    (forall p, p <> 0%nat -> infos st' !! p = infos trackedPub !! p) /\
    (forall p, p <> 1%nat -> fetches st' !! p = fetches trackedPub !! p) /\
    next st' = next trackedPub /\
    cidSet st' = cidSet trackedPub /\
    firstCidFetchRes st' = firstCidFetchRes trackedPub /\
    dbCidInfoC st' = dbCidInfoC trackedPub /\
    dbFetchResultC st' = dbFetchResultC trackedPub.
Proof.
  apply (onMsgNotification_adds_holder failedAddProvider trackedPub
           0%nat 1%nat);
    vm_compute; reflexivity.
Defined.

Lemma publishCid_tracks_before_provide_witness :
  exists st' w' p ci,
    (publishCid (env := scriptedEnv) twoPublisher "cid1" cid1Script emptyPub
       = Published st' w' \/
     publishCid (env := scriptedEnv) twoPublisher "cid1" cid1Script emptyPub
       = WaitsForDoneC st' w') /\
    cidSet st' !! "cid1" = Some p /\
    firstCidFetchRes st' !! "cid1" = Some 1%nat /\
    PRHolders <$> infos st' !! p
      = Some (PRHolders
                (fold_left Models.AddPRHolder
                   [NewPeerInfo "peer1" ["/ip4/10.0.0.1/tcp/4001"] "kubo";
                    NewPeerInfo "peer2" ["/ip4/10.0.0.1/tcp/4001"] "kubo"]
                   ci)) /\
    fr_PRPingResults <$> fetches st' !! 1%nat
      = Some [mkPRPingResults "cid1" "peer1" 0 100 110 7 false false false
                "connection refused";
              mkPRPingResults "cid1" "peer2" 0 100 120 3 true false false
                "none"] /\
    (cidSet emptyPub !! "cid1" = None ->
     p = 0%nat /\
     ci = NewCidInfo "cid1" 2 1000 5000 "standard" "creator" /\
     forall m, MsgType m = ADD_PROVIDER ->
       Cast (Env := scriptedEnv) (MsgKey m) = Some "cid1" ->
       onMsgNotification (env := scriptedEnv) m emptyPub = None) /\
    (forall p0, cidSet emptyPub !! "cid1" = Some p0 ->
       p = p0 /\ (p0 <> 0%nat -> infos emptyPub !! p0 = Some ci)).
Proof.
  apply (publishCid_tracks_before_provide (env := scriptedEnv) twoPublisher
           "cid1" cid1Script emptyPub).
  - intros k p H. vm_compute in H. discriminate H.
  - repeat constructor; vm_compute; first [reflexivity | discriminate].
Defined.

(** *** What the listener and a worker leave alone *)

Section ListenerFacts.

Context {W : Type} {env : Env W}.
Variable publisher : CidPublisher.

(** X13.  A worker hands a CID to the DB client exactly when it gets the
    signal on the DoneC of the round-0 fetch result.  With a signal for the
    fetch result in DoneC once the listener has handled the notifications
    of the provide call, the worker takes one signal out and sends the
    pointer to the new CidInfo on the channel of CidInfos and the pointer to
    the fetch result on the channel of fetch results, once each; with no
    signal there it is left waiting and has sent nothing, and DoneC is as
    the listener left it; when the listener panics nothing is sent
    either. *)
Theorem publishCid_hands_over_when_done (nextCid : Cid) (w : W)
    (st : PubState) :
  let cidInfo :=
    NewCidInfo nextCid (pub_K publisher) (pub_ReqInterval publisher)
      (pub_CidPingTime publisher) (pub_dhtProvide publisher)
      (pub_hostID publisher) in
  let st1 := (trackCid publisher nextCid w st).1.1 in
  match addProviderMsgListener (ProvideCid cidInfo w).1.2 st1 with
  | Some st3 =>
      if decide (S (next st) ∈ doneC st3) then
        exists st' w',
          publishCid publisher nextCid w st = Published st' w' /\
          doneC st3 ≡ₚ S (next st) :: doneC st' /\
          dbCidInfoC st' = dbCidInfoC st ++ [next st] /\
          dbFetchResultC st' = dbFetchResultC st ++ [S (next st)]
      else
        exists st' w',
          publishCid publisher nextCid w st = WaitsForDoneC st' w' /\
          doneC st' = doneC st3 /\
          dbCidInfoC st' = dbCidInfoC st /\
          dbFetchResultC st' = dbFetchResultC st
  | None =>
      exists st',
        publishCid publisher nextCid w st = ListenerPanic st' /\
        dbCidInfoC st' = dbCidInfoC st /\
        dbFetchResultC st' = dbFetchResultC st
  end.
Proof.
  cbn zeta. unfold publishCid, trackCid.
  destruct (ProvideCid _ w) as [[[[reqTime lookupMetrics] err] msgs] w1].
  cbn [fst snd].
  destruct (addProviderMsgListener msgs _) as [st3|] eqn:Hlisten.
  2: { eexists. split; [reflexivity|]. done. }
  apply addProviderMsgListener_frame in Hlisten as (_ & _ & _ & Hc & Hf).
  cbn [dbCidInfoC dbFetchResultC] in Hc, Hf.
  destruct (removeFirst (S (next st)) (doneC st3)) as [doneC'|] eqn:Hrem.
  - rewrite decide_True.
    2: { destruct (decide (S (next st) ∈ doneC st3)) as [|Hn]; [done|].
         apply removeFirst_None in Hn. congruence. }
    eexists _, _. split; [reflexivity|].
    cbn [doneC dbCidInfoC dbFetchResultC]. rewrite Hc, Hf.
    split; [by apply removeFirst_Some|done].
  - rewrite decide_False by (by apply removeFirst_None).
    eexists _, _. split; [reflexivity|].
    cbn [doneC dbCidInfoC dbFetchResultC]. by rewrite Hc, Hf.
Qed.

(** X14.  When the provide call of a CID triggers no notification (because
    it fails at once, say) and no signal for the new fetch result is
    pending, the worker is left waiting on DoneC: the CID is in the cidSet
    and its fetch result in the shared map, with the hop counts set from
    the lookup metrics or to -1, and nothing has been sent to the DB
    client. *)
Theorem publishCid_waits_without_notifications (nextCid : Cid) (w : W)
    (st : PubState) :
  (ProvideCid
     (NewCidInfo nextCid (pub_K publisher) (pub_ReqInterval publisher)
        (pub_CidPingTime publisher) (pub_dhtProvide publisher)
        (pub_hostID publisher)) w).1.2 = [] ->
  S (next st) ∉ doneC st ->
  exists st' w',
    publishCid publisher nextCid w st = WaitsForDoneC st' w' /\
    is_Some (cidSet st' !! B58String nextCid) /\
    firstCidFetchRes st' !! B58String nextCid = Some (S (next st)) /\
    fetches st' !! S (next st)
      = Some (setMetrics
                (ProvideCid
                   (NewCidInfo nextCid (pub_K publisher)
                      (pub_ReqInterval publisher) (pub_CidPingTime publisher)
                      (pub_dhtProvide publisher) (pub_hostID publisher))
                   w).1.1.1.2
                (NewCidFetchResults nextCid (Now w) 0 (pub_K publisher))) /\
    dbCidInfoC st' = dbCidInfoC st /\
    dbFetchResultC st' = dbFetchResultC st.
Proof.
  intros Hmsgs Hdone. unfold publishCid, trackCid.
  destruct (ProvideCid _ w) as [[[[reqTime lookupMetrics] err] msgs] w1].
  cbn [fst snd] in Hmsgs |- *. subst msgs. cbn [addProviderMsgListener].
  cbn [doneC]. apply removeFirst_None in Hdone. rewrite Hdone.
  eexists _, _. split; [reflexivity|].
  cbn [cidSet firstCidFetchRes fetches dbCidInfoC dbFetchResultC].
  split.
  { unfold cidSet_addCid. destruct (cidSet st !! B58String nextCid) eqn:Hk.
    - rewrite Hk. eauto.
    - rewrite lookup_insert_eq. eauto. }
  split; [apply lookup_insert_eq|].
  split; [|done].
  rewrite lookup_alter_eq, lookup_insert_eq. reflexivity.
Qed.

(** X15.  On a state whose maps point to objects, the listener panics on a
    notification exactly when it is an ADD_PROVIDER whose CID is not in the
    cidSet or has no fetch result in the shared map; a notification of any
    other type is passed over, whatever its key. *)
Theorem onMsgNotification_panics_iff (m : MsgNotification) (st : PubState) :
  tracked_alloc st ->
  (forall k p, firstCidFetchRes st !! k = Some p ->
     is_Some (fetches st !! p)) ->
  (onMsgNotification m st = None <->
   MsgType m = ADD_PROVIDER /\
   (cidSet st !! B58String (default Undef (Cast (MsgKey m))) = None \/
    firstCidFetchRes st !! B58String (default Undef (Cast (MsgKey m)))
      = None)) /\
  (MsgType m <> ADD_PROVIDER -> onMsgNotification m st = Some st).
Proof.
  intros Hinfos Hfetches. unfold onMsgNotification, cidSet_getCid.
  split; [|by destruct (MsgType m)].
  destruct (MsgType m); try (split; [done|intros [? _]; done]).
  set (key := B58String (default Undef (Cast (MsgKey m)))).
  destruct (cidSet st !! key) as [pInfo|] eqn:Hset.
  2: { destruct (Error m); split; auto. }
  destruct (firstCidFetchRes st !! key) as [pFetch|] eqn:Hmap.
  2: { destruct (Error m); split; auto. }
  destruct (Hinfos _ _ Hset) as [ci ->].
  destruct (Hfetches _ _ Hmap) as [fr ->].
  destruct (Error m); (split; [done|intros [_ [?|?]]; done]).
Qed.

End ListenerFacts.

Lemma publishCid_waits_without_notifications_witness :
  exists st' w',
    publishCid fakePublisher "cid1" tt emptyPub = WaitsForDoneC st' w' /\
    is_Some (cidSet st' !! B58String "cid1") /\
    firstCidFetchRes st' !! B58String "cid1" = Some 1%nat /\
    fetches st' !! 1%nat
      = Some (setMetrics None (NewCidFetchResults "cid1" 100 0 20)) /\
    dbCidInfoC st' = [] /\
    dbFetchResultC st' = [].
Proof.
  exact (publishCid_waits_without_notifications fakePublisher "cid1" tt
           emptyPub eq_refl (not_elem_of_nil _)).
Defined.

(** Every pointer of the shared map points to a fetch result. *)
Definition fetches_alloc (st : PubState) : Prop :=
  forall k p, firstCidFetchRes st !! k = Some p -> is_Some (fetches st !! p).

(** A worker that tracks a CID leaves the pointers of the two maps
    pointing to objects. *)
Lemma trackCid_alloc {W : Type} {env : Env W} (publisher : CidPublisher)
    (nextCid : Cid) (w : W) (st : PubState) :
  tracked_alloc st -> fetches_alloc st ->
  tracked_alloc (trackCid publisher nextCid w st).1.1 /\
  fetches_alloc (trackCid publisher nextCid w st).1.1.
Proof.
  intros Hinfos Hfetches. unfold trackCid. cbn [fst].
  split; intros k p; cbn [cidSet infos firstCidFetchRes fetches].
  - unfold cidSet_addCid.
    destruct (cidSet st !! B58String nextCid) eqn:Hk.
    + intros H%Hinfos. rewrite lookup_insert. by case_decide.
    + rewrite lookup_insert. case_decide as Hkey.
      * intros [= <-]. rewrite lookup_insert_eq. by eexists.
      * intros H%Hinfos. rewrite lookup_insert. by case_decide.
  - rewrite lookup_insert. case_decide as Hkey.
    + intros [= <-]. rewrite lookup_insert_eq. by eexists.
    + intros H%Hfetches. rewrite lookup_insert. by case_decide.
Qed.

(** With "cid1" tracked, a failed ADD_PROVIDER for "cid1" is handled and
    one for "cid2" makes the listener panic. *)
Lemma onMsgNotification_panics_iff_witness :
  let unknown := mkMsg "peer1" 110 7 ADD_PROVIDER "cid2" None in
  is_Some (onMsgNotification failedAddProvider trackedPub) /\
  onMsgNotification unknown trackedPub = None /\
  (onMsgNotification unknown trackedPub = None <->
   MsgType unknown = ADD_PROVIDER /\
   (cidSet trackedPub
      !! B58String (default Undef (Cast (MsgKey unknown))) = None \/
    firstCidFetchRes trackedPub
      !! B58String (default Undef (Cast (MsgKey unknown))) = None)) /\
  (MsgType unknown <> ADD_PROVIDER ->
   onMsgNotification unknown trackedPub = Some trackedPub).
Proof.
  cbn zeta. split; [vm_compute; by eexists|].
  split; [vm_compute; reflexivity|].
  apply (onMsgNotification_panics_iff
           (mkMsg "peer1" 110 7 ADD_PROVIDER "cid2" None) trackedPub).
  - apply (trackCid_alloc fakePublisher "cid1" tt emptyPub);
      intros k p H; vm_compute in H; discriminate H.
  - apply (trackCid_alloc fakePublisher "cid1" tt emptyPub);
      intros k p H; vm_compute in H; discriminate H.
Defined.

(** *** The end of the generation: [generationDoneC] and the workers

    [Run] starts [Workers] publishing workers and, when the generator is
    done, sends one value on [generationDoneC], a channel with room for one
    value.  Each worker keeps a [generationDone] of its own, set by
    [case <-generationDoneC], and returns at the top of its loop when it is
    set and the channel of CIDs is empty.  The goroutines are modelled by
    their moves, run in any order. *)

(** Where a publishing worker is, with its [generationDone] while it runs:
    at the top of its loop, in its [select], returned because the
    generation is done, or returned through [ctx.Done()]. *)
Inductive PubWorker :=
| PubLoopTop (generationDone : bool)
| PubSelect (generationDone : bool)
| GenFinished
| PubShutdown.

Record PubRun := mkPubRun {
  pubWorkers : list PubWorker;
  generationDoneC : nat;
  generationSignalled : bool;
  cidChannel : nat;
  pubCancelled : bool;
}.

(** [Run] with [n] workers started. *)
Definition startPub (n : nat) : PubRun :=
  mkPubRun (replicate n (PubLoopTop false)) 0 false 0 false.

Inductive PubAction :=
| GenerateCid                   (* the generator sends a CID *)
| SignalGenerationDone          (* Run: generationDoneC <- struct{}{} *)
| CheckDone (i : nat)           (* worker i: the test at the top of the loop *)
| TakeCid (i : nat)             (* worker i: case nextCid := <-cidChannel *)
| TakeGenerationDone (i : nat)  (* worker i: case <-generationDoneC *)
| Tick (i : nat)                (* worker i: case <-minIterTicker.C *)
| SeeCancel (i : nat)           (* worker i: case <-publisher.ctx.Done() *)
| CancelPub.                    (* the root context is cancelled *)

Definition setPubWorker (i : nat) (x : PubWorker) (st : PubRun) : PubRun :=
  mkPubRun (<[i := x]> (pubWorkers st)) (generationDoneC st)
    (generationSignalled st) (cidChannel st) (pubCancelled st).

(** One move; [None] when the move is not enabled. *)
Definition pubStep (a : PubAction) (st : PubRun) : option PubRun :=
  match a with
  | GenerateCid =>
      Some (mkPubRun (pubWorkers st) (generationDoneC st)
              (generationSignalled st) (S (cidChannel st)) (pubCancelled st))
  | SignalGenerationDone =>
      if generationSignalled st then None
      else Some (mkPubRun (pubWorkers st) (S (generationDoneC st)) true
                   (cidChannel st) (pubCancelled st))
  | CheckDone i =>
      match pubWorkers st !! i with
      | Some (PubLoopTop gd) =>
          if gd && (cidChannel st =? 0)%nat
          then Some (setPubWorker i GenFinished st)
          else Some (setPubWorker i (PubSelect gd) st)
      | _ => None
      end
  | TakeCid i =>
      match pubWorkers st !! i, cidChannel st with
      | Some (PubSelect gd), S n =>
          Some (mkPubRun (<[i := PubLoopTop gd]> (pubWorkers st))
                  (generationDoneC st) (generationSignalled st) n
                  (pubCancelled st))
      | _, _ => None
      end
  | TakeGenerationDone i =>
      match pubWorkers st !! i, generationDoneC st with
      | Some (PubSelect gd), S n =>
          Some (mkPubRun (<[i := PubLoopTop true]> (pubWorkers st)) n
                  (generationSignalled st) (cidChannel st) (pubCancelled st))
      | _, _ => None
      end
  | Tick i =>
      match pubWorkers st !! i with
      | Some (PubSelect gd) => Some (setPubWorker i (PubLoopTop gd) st)
      | _ => None
      end
  | SeeCancel i =>
      match pubWorkers st !! i, pubCancelled st with
      | Some (PubSelect gd), true => Some (setPubWorker i PubShutdown st)
      | _, _ => None
      end
  | CancelPub =>
      Some (mkPubRun (pubWorkers st) (generationDoneC st)
              (generationSignalled st) (cidChannel st) true)
  end.

Fixpoint pubRun (sched : list PubAction) (st : PubRun) : option PubRun :=
  match sched with
  | [] => Some st
  | a :: rest =>
      match pubStep a st with
      | None => None
      | Some st' => pubRun rest st'
      end
  end.

(** The worker has received from [generationDoneC]. *)
Definition sawGenerationDone (x : PubWorker) : bool :=
  match x with
  | PubLoopTop gd | PubSelect gd => gd
  | GenFinished => true
  | PubShutdown => false
  end.

Definition hasReturned (x : PubWorker) : bool :=
  match x with
  | GenFinished | PubShutdown => true
  | _ => false
  end.

(** The workers that have the property [f]. *)
Definition countWorkers (f : PubWorker -> bool) (st : PubRun) : nat :=
  length (List.filter f (pubWorkers st)).

(** The workers that saw the generation end, with the value still in the
    channel, are at most the one send of [Run]; and a worker that has
    returned saw the generation end, unless the context was cancelled. *)
Definition pubInv (st : PubRun) : Prop :=
  (countWorkers sawGenerationDone st + generationDoneC st
   <= if generationSignalled st then 1 else 0)%nat /\
  (pubCancelled st = false ->
   Forall (fun x => hasReturned x = true -> sawGenerationDone x = true)
     (pubWorkers st)).

Lemma filter_insert_length (f : PubWorker -> bool) (l : list PubWorker) :
  forall (i : nat) (old x : PubWorker),
  l !! i = Some old ->
  (length (List.filter f (<[i := x]> l)) + (if f old then 1 else 0)
   = length (List.filter f l) + (if f x then 1 else 0))%nat.
Proof.
  induction l as [|y l IH]; intros [|i] old x H; try done; simpl in H |- *.
  - injection H as ->. destruct (f old), (f x); simpl; lia.
  - specialize (IH i old x H). destruct (f y); simpl; lia.
Qed.

Lemma pubInv_setPubWorker (i : nat) (old x : PubWorker) (st : PubRun) :
  pubWorkers st !! i = Some old ->
  (sawGenerationDone x = true -> sawGenerationDone old = true) ->
  (pubCancelled st = false ->
   hasReturned x = true -> sawGenerationDone x = true) ->
  pubInv st -> pubInv (setPubWorker i x st).
Proof.
  intros Hi Hsaw Hx [Hcount Hret]. unfold pubInv, countWorkers in *.
  pose proof (filter_insert_length sawGenerationDone _ i old x Hi) as H.
  simpl. split.
  - destruct (sawGenerationDone x), (sawGenerationDone old); lia.
  - intros Hc. apply Forall_insert; [by apply Hret|by apply Hx].
Qed.

Lemma pubStep_inv (a : PubAction) (st st' : PubRun) :
  pubInv st -> pubStep a st = Some st' -> pubInv st'.
Proof.
  intros Hinv Hstep.
  destruct a as [| |i|i|i|i|i|]; simpl in Hstep.
  - injection Hstep as <-. exact Hinv.
  - destruct (generationSignalled st) eqn:Hsig; [done|].
    injection Hstep as <-. destruct Hinv as [Hcount Hret].
    unfold pubInv, countWorkers in *. rewrite Hsig in Hcount.
    simpl. split; [lia|done].
  - destruct (pubWorkers st !! i) as [[gd|gd| |]|] eqn:Hi; try done.
    destruct (gd && _) eqn:Hgd; injection Hstep as <-.
    + apply andb_true_iff in Hgd as [-> _].
      by apply (pubInv_setPubWorker i (PubLoopTop true)).
    + by apply (pubInv_setPubWorker i (PubLoopTop gd)).
  - destruct (pubWorkers st !! i) as [[gd|gd| |]|] eqn:Hi; try done.
    destruct (cidChannel st); [done|]. injection Hstep as <-.
    pose proof (pubInv_setPubWorker i (PubSelect gd) (PubLoopTop gd) st Hi)
      as H.
    destruct H as [Hcount Hret]; try done.
  - destruct (pubWorkers st !! i) as [[gd|gd| |]|] eqn:Hi; try done.
    destruct (generationDoneC st) as [|n] eqn:Hn; [done|].
    injection Hstep as <-. destruct Hinv as [Hcount Hret].
    unfold pubInv, countWorkers in *. rewrite Hn in Hcount. simpl.
    pose proof (filter_insert_length sawGenerationDone _ i _
                  (PubLoopTop true) Hi) as H.
    simpl in H. split.
    + destruct gd; lia.
    + intros Hc. apply Forall_insert; [by apply Hret|done].
  - destruct (pubWorkers st !! i) as [[gd|gd| |]|] eqn:Hi; try done.
    injection Hstep as <-.
    by apply (pubInv_setPubWorker i (PubSelect gd)).
  - destruct (pubWorkers st !! i) as [[gd|gd| |]|] eqn:Hi; try done.
    destruct (pubCancelled st) eqn:Hcan; [|done].
    injection Hstep as <-.
    apply (pubInv_setPubWorker i (PubSelect gd)); try done.
    intros Hc. congruence.
  - injection Hstep as <-. destruct Hinv as [Hcount Hret].
    split; [exact Hcount|]. intros Hc. done.
Qed.

Lemma pubRun_inv (sched : list PubAction) :
  forall st st', pubInv st -> pubRun sched st = Some st' -> pubInv st'.
Proof.
  induction sched as [|a rest IH]; intros st st' Hinv Hrun; simpl in Hrun.
  - by injection Hrun as <-.
  - destruct (pubStep a st) as [st1|] eqn:Hstep; [|done].
    eapply IH; [|exact Hrun]. eapply pubStep_inv; eauto.
Qed.

Lemma pubInv_startPub (n : nat) : pubInv (startPub n).
Proof.
  unfold pubInv, countWorkers, startPub. simpl. split.
  - induction n as [|n IH]; simpl; lia.
  - intros _. apply Forall_replicate. done.
Qed.

Lemma returned_le_saw (l : list PubWorker) :
  Forall (fun x => hasReturned x = true -> sawGenerationDone x = true) l ->
  (length (List.filter hasReturned l)
   <= length (List.filter sawGenerationDone l))%nat.
Proof.
  induction 1 as [|x l Hx _ IH]; simpl; [lia|].
  destruct (hasReturned x).
  - rewrite Hx by done. simpl. lia.
  - destruct (sawGenerationDone x); simpl; lia.
Qed.

(** X16.  However the goroutines are scheduled after [Run] has started its
    workers, at most one of them ever receives from [generationDoneC] and so
    learns that the generation is done: [Run] sends one value, and each
    worker has a [generationDone] of its own.  While the root context is
    not cancelled at most one worker has returned, however many were
    started. *)
Theorem generationDone_reaches_one_worker (sched : list PubAction)
    (n : nat) (st : PubRun) :
  pubRun sched (startPub n) = Some st ->
  (countWorkers sawGenerationDone st <= 1)%nat /\
  (pubCancelled st = false -> (countWorkers hasReturned st <= 1)%nat).
Proof.
  intros Hrun.
  destruct (pubRun_inv sched _ _ (pubInv_startPub n) Hrun) as [Hcount Hret].
  assert (Hsaw : (countWorkers sawGenerationDone st <= 1)%nat).
  { destruct (generationSignalled st); lia. }
  split; [exact Hsaw|]. intros Hc.
  pose proof (returned_le_saw _ (Hret Hc)). unfold countWorkers in *. lia.
Qed.

(** Two workers and no CID: the first takes the value from
    [generationDoneC] and returns; the second goes round its loop on the
    ticker and can take nothing from the channel. *)
Lemma generationDone_reaches_one_worker_witness :
  exists st,
    pubRun [CheckDone 0; CheckDone 1; SignalGenerationDone;
            TakeGenerationDone 0; CheckDone 0; Tick 1; CheckDone 1]
      (startPub 2) = Some st /\
    pubWorkers st = [GenFinished; PubSelect false] /\
    pubStep (TakeGenerationDone 1) st = None /\
    (countWorkers sawGenerationDone st <= 1)%nat /\
    (pubCancelled st = false -> (countWorkers hasReturned st <= 1)%nat).
Proof.
  eexists. split; [reflexivity|]. split; [reflexivity|].
  split; [reflexivity|].
  apply (generationDone_reaches_one_worker
           [CheckDone 0; CheckDone 1; SignalGenerationDone;
            TakeGenerationDone 0; CheckDone 0; Tick 1; CheckDone 1] 2).
  reflexivity.
Defined.

End Publisher.

(** ** The JSON file CID source *)

Module CidSource.
Import Models.

(** *** Go values

    [EncapsulatedJSONProviderRecord] and [ProviderRecords] are declared
    outside src/; their fields are the ones [GetNewCid] and the readers
    use.  A provider record is a struct of six strings and a slice of
    strings.
    Copying the struct (as [append] does) copies the header of the slice,
    not the array behind it: the copy and the original share the strings of
    [Addresses].  String arrays live in a heap; a slice is nil, or an array
    with a length and a capacity. *)

Inductive StrSlice :=
| NilSlice
| Slice (arr len cap : nat).

Record EncapsulatedJSONProviderRecord := mkRecord {
  rec_CID : string;
  rec_ID : string;
  rec_Creator : string;
  rec_ProvideTime : string;
  rec_PublicationTime : string;
  rec_UserAgent : string;
  rec_Addresses : StrSlice;
}.

Definition zeroRecord : EncapsulatedJSONProviderRecord :=
  mkRecord "" "" "" "" "" "" NilSlice.

Record Heap := mkHeap {
  strArrays : gmap nat (list string);
  nextArr : nat;
}.

Definition emptyHeap : Heap := mkHeap ∅ 0.

Definition strArray (h : Heap) (a : nat) : list string :=
  default [] (strArrays h !! a).

(** The strings a slice holds. *)
Definition sliceStrings (h : Heap) (s : StrSlice) : list string :=
  match s with
  | NilSlice => []
  | Slice arr len _ => take len (strArray h arr)
  end.

(** [ProviderRecords.EncapsulatedJSONProviderRecords] while it is the target
    of a decoder: the slots of its array that were ever written, and its
    length.  Slots behind the length keep the records of earlier
    documents. *)
Record RecordsTarget := mkTarget {
  slots : list EncapsulatedJSONProviderRecord;
  tlen : nat;
}.

Definition zeroTarget : RecordsTarget := mkTarget [] 0.

(** [records.EncapsulatedJSONProviderRecords...] as [append] reads it. *)
Definition targetRecords (t : RecordsTarget)
  : list EncapsulatedJSONProviderRecord :=
  take (tlen t) (slots t).

(** *** JSON documents

    A document of the file, already split into its members: a member of an
    object is absent, [null], or has a value of the type its field expects.
    A document that [encoding/json] rejects is [None] in the stream. *)

Inductive JField (A : Type) :=
| Absent
| Null
| Val (a : A).
Arguments Absent {A}.
Arguments Null {A}.
Arguments Val {A} a.

Record JRecord := mkJRecord {
  jCID : JField string;
  jID : JField string;
  jCreator : JField string;
  jProvideTime : JField string;
  jPublicationTime : JField string;
  jUserAgent : JField string;
  jAddresses : JField (list string);
}.

(** [{ "EncapsulatedJSONProviderRecords": [ ... ] }] *)
Definition JDoc := JField (list JRecord).

(** *** Decoding into a Go value, as [encoding/json] does

    [Unmarshal] and [Decode] store into the value they are given, and the
    readers hand them a [ProviderRecords]: a member that is absent leaves
    its field as it is; [null] leaves a string as it is and makes a slice
    nil; an empty array replaces the slice by a new empty one; any other
    array is stored element by element into the slice that is there (its
    length starts again at zero), into its array while the capacity lasts
    and into a grown copy afterwards, and each element is decoded into the
    element that is in the slot, so a record keeps the fields its member
    does not set and the [Addresses] slice of the record that was in the
    slot before. *)

Section Decode.

(** The capacity of the array that replaces a full one of capacity [c]. *)
Variable growCap : nat -> nat.

Definition decodeString (f : JField string) (old : string) : string :=
  match f with
  | Val s => s
  | _ => old
  end.

(** One element of an array of strings, at index [i]. *)
Definition storeString (i : nat) (x : string) (sh : StrSlice * Heap)
  : StrSlice * Heap :=
  let '(s, h) := sh in
  let '(arr, len, cap) :=
    match s with
    | NilSlice => (0%nat, 0%nat, 0%nat)
    | Slice arr len cap => (arr, len, cap)
    end in
  let '(arr, cap, h) :=
    if decide (cap <= i)%nat then
      let cap' := growCap cap in
      let old := take len (strArray h arr) in
      (nextArr h, cap',
       mkHeap (<[nextArr h := old ++ replicate (cap' - length old) ""]>
                 (strArrays h))
         (S (nextArr h)))
    else (arr, cap, h) in
  let len := if decide (len <= i)%nat then S i else len in
  (Slice arr len cap,
   mkHeap (<[arr := <[i := x]> (strArray h arr)]> (strArrays h)) (nextArr h)).

Fixpoint storeStrings (i : nat) (xs : list string) (sh : StrSlice * Heap)
  : StrSlice * Heap :=
  match xs with
  | [] => sh
  | x :: rest => storeStrings (S i) rest (storeString i x sh)
  end.

Definition decodeStrings (f : JField (list string)) (old : StrSlice)
    (h : Heap) : StrSlice * Heap :=
  match f with
  | Absent => (old, h)
  | Null => (NilSlice, h)
  | Val [] =>
      (Slice (nextArr h) 0 0,
       mkHeap (<[nextArr h := []]> (strArrays h)) (S (nextArr h)))
  | Val xs =>
      match storeStrings 0 xs (old, h) with
      | (Slice arr _ cap, h') => (Slice arr (length xs) cap, h')
      | r => r
      end
  end.

Definition decodeRecord (j : JRecord) (old : EncapsulatedJSONProviderRecord)
    (h : Heap) : EncapsulatedJSONProviderRecord * Heap :=
  let '(addrs, h') := decodeStrings (jAddresses j) (rec_Addresses old) h in
  (mkRecord (decodeString (jCID j) (rec_CID old))
     (decodeString (jID j) (rec_ID old))
     (decodeString (jCreator j) (rec_Creator old))
     (decodeString (jProvideTime j) (rec_ProvideTime old))
     (decodeString (jPublicationTime j) (rec_PublicationTime old))
     (decodeString (jUserAgent j) (rec_UserAgent old))
     addrs, h').

(** The elements of an array of records, from index [i]: each is decoded
    into the slot that is there, or into a zero record. *)
Fixpoint storeRecords (i : nat) (js : list JRecord)
    (sl : list EncapsulatedJSONProviderRecord) (h : Heap)
  : list EncapsulatedJSONProviderRecord * Heap :=
  match js with
  | [] => (sl, h)
  | j :: rest =>
      let '(r, h') := decodeRecord j (default zeroRecord (sl !! i)) h in
      let sl' := if decide (i < length sl)%nat then <[i := r]> sl
                 else sl ++ [r] in
      storeRecords (S i) rest sl' h'
  end.

(** A document decoded into [records]. *)
Definition decodeDoc (d : JDoc) (t : RecordsTarget) (h : Heap)
  : RecordsTarget * Heap :=
  match d with
  | Absent => (t, h)
  | Null | Val [] => (zeroTarget, h)
  | Val js =>
      let '(sl, h') := storeRecords 0 js (slots t) h in
      (mkTarget sl (length js), h')
  end.

(** *** Files *)

(** What [os.Open] finds under a name: nothing, or a file whose content is a
    stream of JSON values, each a document or malformed.  Reading an open
    file is taken to succeed. *)
Definition FileSystem := string -> option (list (option JDoc)).

(** [JsonFileCIDSource]: the records with the heap their addresses are in,
    and the number of calls of [iter] so far (the counter [i] of the closure
    is one less). *)
Record JsonFileCIDSource := mkSource {
  filename : string;
  records : list EncapsulatedJSONProviderRecord;
  heap : Heap;
  iterCalls : nat;
}.

(** [json.Unmarshal(byteValue, &records)] on the whole content, into a zero
    [records]: the content must be one well-formed value. *)
Definition Unmarshal (content : list (option JDoc)) (h : Heap)
  : option (RecordsTarget * Heap) :=
  match content with
  | [Some d] => Some (decodeDoc d zeroTarget h)
  | _ => None
  end.

Definition OpenSimpleJSONFile (fs : FileSystem) (name : string)
  : option JsonFileCIDSource :=
  match fs name with
  | None => None
  | Some content =>
      match Unmarshal content emptyHeap with
      | None => None
      | Some (t, h) => Some (mkSource name (targetRecords t) h 0)
      end
  end.

(** The loop of [OpenMultipleSimpleJSONFiles]; [records] is declared inside
    it, a zero value for every file. *)
Fixpoint simpleFiles (fs : FileSystem) (filenames : list string)
    (recordsIn : list EncapsulatedJSONProviderRecord) (h : Heap)
  : option (list EncapsulatedJSONProviderRecord * Heap) :=
  match filenames with
  | [] => Some (recordsIn, h)
  | name :: rest =>
      match fs name with
      | None => None
      | Some content =>
          match Unmarshal content h with
          | None => None
          | Some (t, h') =>
              simpleFiles fs rest (recordsIn ++ targetRecords t) h'
          end
      end
  end.

Definition OpenMultipleSimpleJSONFiles (fs : FileSystem)
    (filenames : list string) : option JsonFileCIDSource :=
  match simpleFiles fs filenames [] emptyHeap with
  | None => None
  | Some (rs, h) => Some (mkSource "" rs h 0)
  end.

(** The loop [for decoder.More() { decoder.Decode(&records) ... }]; [records]
    is declared before it, the same value for every document. *)
Fixpoint decodeStream (content : list (option JDoc)) (t : RecordsTarget)
    (filtered : list EncapsulatedJSONProviderRecord) (h : Heap)
  : option (list EncapsulatedJSONProviderRecord * Heap) :=
  match content with
  | [] => Some (filtered, h)
  | None :: _ => None
  | Some d :: rest =>
      let '(t', h') := decodeDoc d t h in
      decodeStream rest t' (filtered ++ targetRecords t') h'
  end.

Definition OpenEncodedJSONFile (fs : FileSystem) (name : string)
  : option JsonFileCIDSource :=
  match fs name with
  | None => None
  | Some content =>
      match decodeStream content zeroTarget [] emptyHeap with
      | None => None
      | Some (rs, h) => Some (mkSource name rs h 0)
      end
  end.

End Decode.

(** A provider record as a reader of the source sees it: its strings and
    the strings of its addresses; [None] for nil addresses. *)
Record RecordView := mkView {
  v_CID : string;
  v_ID : string;
  v_Creator : string;
  v_ProvideTime : string;
  v_PublicationTime : string;
  v_UserAgent : string;
  v_Addresses : option (list string);
}.

Definition viewRecord (h : Heap) (r : EncapsulatedJSONProviderRecord)
  : RecordView :=
  mkView (rec_CID r) (rec_ID r) (rec_Creator r) (rec_ProvideTime r)
    (rec_PublicationTime r) (rec_UserAgent r)
    (match rec_Addresses r with
     | NilSlice => None
     | s => Some (sliceStrings h s)
     end).

(** The ordered list of provider records of a source. *)
Definition recordList (s : JsonFileCIDSource) : list RecordView :=
  viewRecord (heap s) <$> records s.

(** The capacity policy of [encoding/json] for a full slice: half as much
    again, and at least four. *)
Definition jsonGrowCap (c : nat) : nat := Nat.max 4 (c + c / 2).

Definition jrec (cid pid agent : string) (addrs : list string) : JRecord :=
  mkJRecord (Val cid) (Val pid) (Val pid) (Val "12ms")
    (Val "2022-10-01T10:00:00Z") (Val agent) (Val addrs).

Definition docA : JDoc :=
  Val [jrec "cidA" "peerA" "kubo" ["/ip4/1.1.1.1/tcp/4001"]].
Definition docB : JDoc :=
  Val [jrec "cidB" "peerB" "kubo" ["/ip4/2.2.2.2/tcp/4001"]].

Definition twoDocs : FileSystem :=
  fun name =>
    if String.eqb name "encoded.json" then Some [Some docA; Some docB]
    else if String.eqb name "a.json" then Some [Some docA]
    else if String.eqb name "b.json" then Some [Some docB]
    else None.

(** *** Reading the records *)

(** [TrackableCid] is declared outside src/; the record holds what
    [GetNewCid] gives to [NewTrackableCid]. *)
Record TrackableCid {C P M : Type} := NewTrackableCid {
  tc_ID : P;
  tc_CID : C;
  tc_Creator : P;
  tc_Addresses : list M;
  tc_PublicationTime : Time;
  tc_ProvideTime : Duration;
  tc_UserAgent : string;
}.
Arguments TrackableCid : clear implicits.

(** [reflect.DeepEqual(pr, EncapsulatedJSONProviderRecord{})]: every string
    is empty and the addresses are nil. *)
Definition isZeroRecord (pr : EncapsulatedJSONProviderRecord) : bool :=
  String.eqb (rec_CID pr) "" && String.eqb (rec_ID pr) ""
  && String.eqb (rec_Creator pr) "" && String.eqb (rec_ProvideTime pr) ""
  && String.eqb (rec_PublicationTime pr) ""
  && String.eqb (rec_UserAgent pr) ""
  && match rec_Addresses pr with NilSlice => true | _ => false end.

(** The lines [log.Errorf] writes. *)
Inductive Diagnostic :=
| BadCid (s : string)
| BadPid (s : string)
| BadCreator (s : string)
| BadProvideTime (s : string)
| BadPublicationTime (s : string).

(** The parsers [GetNewCid] calls: [cid.Parse], [peer.Decode],
    [time.ParseDuration], [time.Parse(layoutPublicationTime, _)] and
    [ma.NewMultiaddr]; [None] is an error. *)
Class Parsers (C P M : Type) := {
  cidParse : string -> option C;
  peerDecode : string -> option P;
  ParseDuration : string -> option Duration;
  ParseTime : string -> option Time;
  NewMultiaddr : string -> option M;
}.

Section GetNewCid.

Context {C P M : Type} {parsers : Parsers C P M}.

(** The loop over [pr.Addresses]: an address that does not parse is left
    out. *)
Fixpoint multiaddresses (addrs : list string) : list M :=
  match addrs with
  | [] => []
  | a :: rest =>
      match NewMultiaddr a with
      | None => multiaddresses rest
      | Some m => m :: multiaddresses rest
      end
  end.

(** The loop of [GetNewCid] over the records the iterator has not returned
    yet.  The result is what [GetNewCid] returns ([None] is the error "end
    of provider records"), the number of calls of [iter], and the
    diagnostics written. *)
Fixpoint getNewCidFrom (h : Heap) (rest : list EncapsulatedJSONProviderRecord)
  : option (TrackableCid C P M) * nat * list Diagnostic :=
  match rest with
  | [] => (None, 1%nat, [])
  | pr :: rest' =>
      if isZeroRecord pr then (None, 1%nat, []) else
      let skip d :=
        let '(r, n, log) := getNewCidFrom h rest' in (r, S n, d :: log) in
      match cidParse (rec_CID pr) with
      | None => skip (BadCid (rec_CID pr))
      | Some newCid =>
      match peerDecode (rec_ID pr) with
      | None => skip (BadPid (rec_ID pr))
      | Some newPid =>
      match peerDecode (rec_Creator pr) with
      | None => skip (BadCreator (rec_Creator pr))
      | Some newCreator =>
      match ParseDuration (rec_ProvideTime pr) with
      | None => skip (BadProvideTime (rec_ProvideTime pr))
      | Some newProvideTime =>
      match ParseTime (rec_PublicationTime pr) with
      | None => skip (BadPublicationTime (rec_PublicationTime pr))
      | Some newPublicationTime =>
          (Some (NewTrackableCid C P M newPid newCid newCreator
                   (multiaddresses (sliceStrings h (rec_Addresses pr)))
                   newPublicationTime newProvideTime (rec_UserAgent pr)),
           1%nat, [])
      end end end end end
  end.

Definition GetNewCid (s : JsonFileCIDSource)
  : option (TrackableCid C P M) * JsonFileCIDSource * list Diagnostic :=
  let '(r, n, log) :=
    getNewCidFrom (heap s) (drop (iterCalls s) (records s)) in
  (r, mkSource (filename s) (records s) (heap s) (iterCalls s + n), log).

(** One of the five parsed fields of a record does not parse. *)
Definition malformedField (pr : EncapsulatedJSONProviderRecord) : Prop :=
  cidParse (rec_CID pr) = None \/ peerDecode (rec_ID pr) = None \/
  peerDecode (rec_Creator pr) = None \/
  ParseDuration (rec_ProvideTime pr) = None \/
  ParseTime (rec_PublicationTime pr) = None.

End GetNewCid.

(** Parsers for examples: a CID starts with "cid", a peer ID with "peer", a
    multiaddress with "/"; durations and times are read as fixed values. *)
Definition fakeCid (s : string) : option string :=
  if String.prefix "cid" s then Some s else None.
Definition fakePeer (s : string) : option string :=
  if String.prefix "peer" s then Some s else None.
Definition fakeDuration (s : string) : option Duration :=
  if String.eqb s "12ms" then Some 12000000 else None.
Definition fakeTime (s : string) : option Time :=
  if String.eqb s "2022-10-01T10:00:00Z" then Some 1664618400000000000
  else None.
Definition fakeMultiaddr (s : string) : option string :=
  if String.prefix "/" s then Some s else None.

#[export] Instance fakeParsers : Parsers string string string := {|
  cidParse := fakeCid;
  peerDecode := fakePeer;
  ParseDuration := fakeDuration;
  ParseTime := fakeTime;
  NewMultiaddr := fakeMultiaddr;
|}.


(** A file with one record, whose first address is malformed; a file with
    an empty record in front of a good one. *)
Definition someFiles : FileSystem :=
  fun name =>
    if String.eqb name "badaddr.json"
    then Some [Some (Val [jrec "cidA" "peerA" "kubo"
                            ["not-an-address"; "/ip4/1.1.1.1/tcp/4001"]])]
    else if String.eqb name "empty-first.json"
    then Some [Some (Val [mkJRecord Absent Absent Absent Absent Absent
                            Absent Absent;
                          jrec "cidB" "peerB" "kubo" []])]
    else None.


(** The iterator moved past one record. *)
Definition skipRecord (s : JsonFileCIDSource) : JsonFileCIDSource :=
  mkSource (filename s) (records s) (heap s) (S (iterCalls s)).

Definition viewA (addr : string) : RecordView :=
  mkView "cidA" "peerA" "peerA" "12ms" "2022-10-01T10:00:00Z" "kubo"
    (Some [addr]).

Definition viewB : RecordView :=
  mkView "cidB" "peerB" "peerB" "12ms" "2022-10-01T10:00:00Z" "kubo"
    (Some ["/ip4/2.2.2.2/tcp/4001"]).

(** *** Properties of the readers *)

(** C8, at an input where the code departs from it.  A file of two
    documents, each with one record with one address, against two files of
    one document each.  The decoder stores the second document into the
    [records] that holds the first: the address of the second record is
    written into the array that the first record, already appended, still
    points to.  The simple reader starts from a zero [records] for every
    file.  This holds for every capacity policy that gives a nil slice
    room for one element. *)
Theorem OpenEncodedJSONFile_shares_addresses (growCap : nat -> nat) :
  (0 < growCap 0)%nat ->
  recordList <$> OpenEncodedJSONFile growCap twoDocs "encoded.json"
    = Some [viewA "/ip4/2.2.2.2/tcp/4001"; viewB] /\
  recordList <$> OpenMultipleSimpleJSONFiles growCap twoDocs
                   ["a.json"; "b.json"]
    = Some [viewA "/ip4/1.1.1.1/tcp/4001"; viewB] /\
  recordList <$> OpenEncodedJSONFile growCap twoDocs "encoded.json"
    <> recordList <$> OpenMultipleSimpleJSONFiles growCap twoDocs
                        ["a.json"; "b.json"].
Proof.
  intros Hcap. destruct (growCap 0%nat) as [|n] eqn:E; [lia|].
  enough (H : recordList <$> OpenEncodedJSONFile growCap twoDocs "encoded.json"
            = Some [viewA "/ip4/2.2.2.2/tcp/4001"; viewB] /\
          recordList <$> OpenMultipleSimpleJSONFiles growCap twoDocs
                           ["a.json"; "b.json"]
            = Some [viewA "/ip4/1.1.1.1/tcp/4001"; viewB]).
  { destruct H as [H1 H2]. split; [exact H1|]. split; [exact H2|].
    rewrite H1, H2. intros H. discriminate H. }
  split.
  - unfold OpenEncodedJSONFile. simpl. rewrite E.
    unfold decodeRecord, decodeStrings, storeStrings, storeString, strArray.
    cbn. rewrite decide_False by lia. cbn.
    unfold recordList, viewRecord, sliceStrings, strArray. cbn.
    rewrite !lookup_insert_eq. reflexivity.
  - unfold OpenMultipleSimpleJSONFiles. simpl. rewrite E.
    unfold decodeRecord, decodeStrings, storeStrings, storeString, strArray.
    cbn.
    unfold recordList, viewRecord, sliceStrings, strArray. cbn.
    rewrite !lookup_insert_eq. rewrite lookup_insert_ne by done.
    rewrite ?lookup_insert_eq. reflexivity.
Qed.

(** A file with one document reads the same in both ways. *)
Lemma OpenEncodedJSONFile_one_document (growCap : nat -> nat)
    (fs : FileSystem) (name : string) (d : JDoc) :
  fs name = Some [Some d] ->
  OpenEncodedJSONFile growCap fs name = OpenSimpleJSONFile growCap fs name.
Proof.
  intros Hfs. unfold OpenEncodedJSONFile, OpenSimpleJSONFile. rewrite Hfs.
  simpl. by destruct (decodeDoc growCap d zeroTarget emptyHeap).
Qed.

(** A second document without the member leaves [records] as the first
    document made it, and the loop appends the first record again; a
    second record without a user agent keeps the one of the first. *)
Example OpenEncodedJSONFile_keeps_fields :
  (fun s => v_CID <$> recordList s) <$>
    OpenEncodedJSONFile jsonGrowCap (fun _ => Some [Some docA; Some Absent])
      "encoded.json"
    = Some ["cidA"; "cidA"] /\
  (fun s => v_UserAgent <$> recordList s) <$>
    OpenEncodedJSONFile jsonGrowCap
      (fun _ => Some [Some docA;
                      Some (Val [mkJRecord (Val "cidB") Absent Absent Absent
                                   Absent Absent Absent])])
      "encoded.json"
    = Some ["kubo"; "kubo"].
Proof. split; vm_compute; reflexivity. Qed.

Lemma OpenEncodedJSONFile_shares_addresses_witness :
  recordList <$> OpenEncodedJSONFile jsonGrowCap twoDocs "encoded.json"
    = Some [viewA "/ip4/2.2.2.2/tcp/4001"; viewB] /\
  recordList <$> OpenMultipleSimpleJSONFiles jsonGrowCap twoDocs
                   ["a.json"; "b.json"]
    = Some [viewA "/ip4/1.1.1.1/tcp/4001"; viewB] /\
  recordList <$> OpenEncodedJSONFile jsonGrowCap twoDocs "encoded.json"
    <> recordList <$> OpenMultipleSimpleJSONFiles jsonGrowCap twoDocs
                        ["a.json"; "b.json"].
Proof.
  apply (OpenEncodedJSONFile_shares_addresses jsonGrowCap).
  vm_compute. lia.
Defined.

Section GetNewCidFacts.

Context {C P M : Type} {parsers : Parsers C P M}.

Lemma getNewCidFrom_skip (h : Heap) (pr : EncapsulatedJSONProviderRecord)
    (rest : list EncapsulatedJSONProviderRecord) :
  isZeroRecord pr = false ->
  malformedField pr ->
  exists d,
    getNewCidFrom h (pr :: rest)
      = (let '(r, n, log) := getNewCidFrom h rest in (r, S n, d :: log)).
Proof.
  intros Hnz Hbad. unfold malformedField in Hbad.
  cbn [getNewCidFrom]. rewrite Hnz.
  destruct (cidParse (rec_CID pr)); [|eauto].
  destruct (peerDecode (rec_ID pr)); [|eauto].
  destruct (peerDecode (rec_Creator pr)); [|eauto].
  destruct (ParseDuration (rec_ProvideTime pr)); [|eauto].
  destruct (ParseTime (rec_PublicationTime pr)); [|eauto].
  destruct Hbad as [?|[?|[?|[?|?]]]]; discriminate.
Qed.

Lemma getNewCidFrom_keep (h : Heap) (pr : EncapsulatedJSONProviderRecord)
    (rest : list EncapsulatedJSONProviderRecord)
    (newCid : C) (newPid newCreator : P) (newProvideTime : Duration)
    (newPublicationTime : Time) :
  isZeroRecord pr = false ->
  cidParse (rec_CID pr) = Some newCid ->
  peerDecode (rec_ID pr) = Some newPid ->
  peerDecode (rec_Creator pr) = Some newCreator ->
  ParseDuration (rec_ProvideTime pr) = Some newProvideTime ->
  ParseTime (rec_PublicationTime pr) = Some newPublicationTime ->
  getNewCidFrom h (pr :: rest)
    = (Some (NewTrackableCid C P M newPid newCid newCreator
               (multiaddresses (sliceStrings h (rec_Addresses pr)))
               newPublicationTime newProvideTime (rec_UserAgent pr)),
       1%nat, []).
Proof.
  intros Hnz H1 H2 H3 H4 H5. cbn [getNewCidFrom].
  rewrite Hnz, H1, H2, H3, H4, H5. reflexivity.
Qed.


End GetNewCidFacts.



(** *** Decoding into a zero value

    What the readers get when the value they decode into is a zero
    [ProviderRecords], as it is for [json.Unmarshal] in the simple readers
    and for the first document of an encoded file. *)

(** A full array is replaced by a larger one. *)
Definition saneGrowth (growCap : nat -> nat) : Prop :=
  forall c, (c < growCap c)%nat.

Definition jString (f : JField string) : string :=
  decodeString f EmptyString.

(** What a JSON record says, read as a provider record: a member that is
    absent or null is the empty string, and nil for the addresses. *)
Definition jView (j : JRecord) : RecordView :=
  mkView (jString (jCID j)) (jString (jID j)) (jString (jCreator j))
    (jString (jProvideTime j)) (jString (jPublicationTime j))
    (jString (jUserAgent j))
    (match jAddresses j with
     | Val xs => Some xs
     | _ => None
     end).

Definition docViews (d : JDoc) : list RecordView :=
  match d with
  | Val js => jView <$> js
  | _ => []
  end.

(** The second heap is the first with arrays added or changed at the
    addresses from [n] on. *)
Definition agreeBelow (n : nat) (h h' : Heap) : Prop :=
  (nextArr h <= nextArr h')%nat /\
  forall a, (a < n)%nat -> strArrays h' !! a = strArrays h !! a.

(** The addresses of the record are nil or in an array below [n]. *)
Definition recBelow (n : nat) (r : EncapsulatedJSONProviderRecord) : Prop :=
  match rec_Addresses r with
  | NilSlice => True
  | Slice arr _ _ => (arr < n)%nat
  end.

(** A slice that holds [pre] while an array of strings is stored into it,
    in a heap whose arrays below [n0] are not its own. *)
Definition building (n0 : nat) (pre : list string) (sh : StrSlice * Heap)
  : Prop :=
  exists arr cap,
    sh.1 = Slice arr (length pre) cap /\
    (length pre <= cap)%nat /\
    (n0 <= nextArr sh.2)%nat /\
    ((0 < cap)%nat ->
     (n0 <= arr < nextArr sh.2)%nat /\
     length (strArray sh.2 arr) = cap /\
     take (length pre) (strArray sh.2 arr) = pre).

Lemma agreeBelow_refl (n : nat) (h : Heap) : agreeBelow n h h.
Proof. by split. Qed.

Lemma agreeBelow_trans (n n' : nat) (h1 h2 h3 : Heap) :
  (n <= n')%nat ->
  agreeBelow n h1 h2 -> agreeBelow n' h2 h3 -> agreeBelow n h1 h3.
Proof.
  intros Hn [H1 H2] [H3 H4]. split; [lia|].
  intros a Ha. rewrite H4 by lia. by apply H2.
Qed.

Lemma strArray_insert (m : gmap nat (list string)) (n a : nat)
    (l : list string) :
  strArray (mkHeap (<[a := l]> m) n) a = l.
Proof. unfold strArray. simpl. by rewrite lookup_insert_eq. Qed.

Section DecodeFacts.

Variable growCap : nat -> nat.
Hypothesis Hgrow : saneGrowth growCap.

Lemma storeString_building (n0 : nat) (pre : list string) (x : string)
    (sh : StrSlice * Heap) :
  building n0 pre sh ->
  building n0 (pre ++ [x]) (storeString growCap (length pre) x sh) /\
  agreeBelow n0 sh.2 (storeString growCap (length pre) x sh).2.
Proof.
  destruct sh as [s h]. intros (arr & cap & Hs & Hcap & Hn0 & Harr).
  cbn [fst snd] in *. subst s. unfold storeString.
  rewrite (decide_True (P := (length pre <= length pre)%nat)) by lia.
  destruct (decide (cap <= length pre)%nat) as [Hfull|Hroom].
  - (* the array is full: a larger one is made *)
    pose proof (Hgrow cap) as Hlarger.
    assert (Hold : take (length pre) (strArray h arr) = pre).
    { destruct (decide (0 < cap)%nat) as [Hpos|Hzero].
      - by apply Harr.
      - assert (length pre = 0%nat) as Hlen by lia.
        rewrite Hlen. by destruct pre. }
    rewrite Hold. rewrite strArray_insert.
    set (k := (growCap cap - length pre)%nat).
    assert (Hins : <[length pre := x]> (pre ++ replicate k EmptyString)
                   = pre ++ x :: replicate (k - 1) EmptyString).
    { rewrite insert_app_r_alt by lia. rewrite Nat.sub_diag.
      assert (Hk : (0 < k)%nat) by (unfold k; lia).
      destruct k as [|k']; [lia|]. simpl. by rewrite Nat.sub_0_r. }
    rewrite Hins. split.
    + exists (nextArr h), (growCap cap). cbn [fst snd nextArr].
      rewrite length_app. simpl.
      split; [f_equal; lia|]. split; [lia|]. split; [lia|].
      intros _. split; [lia|]. rewrite strArray_insert.
      split.
      * rewrite length_app. simpl. rewrite length_replicate. lia.
      * rewrite cons_middle, app_assoc.
        apply take_app_length'. rewrite length_app. simpl. lia.
    + split; [simpl; lia|]. intros a Ha. simpl.
      rewrite !lookup_insert_ne by lia. done.
  - (* there is room in the array *)
    destruct Harr as (Hbounds & Hlen & Htake); [lia|].
    split.
    + exists arr, cap. cbn [fst snd nextArr].
      rewrite length_app. simpl.
      split; [f_equal; lia|]. split; [lia|]. split; [lia|].
      intros _. split; [lia|]. rewrite strArray_insert.
      split; [by rewrite length_insert|].
      replace (length pre + 1)%nat with (S (length pre)) by lia.
      rewrite (take_S_r _ _ x) by (apply list_lookup_insert_eq; lia).
      by rewrite take_insert_ge, Htake by lia.
    + split; [simpl; lia|]. intros a Ha. simpl.
      rewrite lookup_insert_ne by lia. done.
Qed.

Lemma storeStrings_building (n0 : nat) (xs : list string) :
  forall (pre : list string) (sh : StrSlice * Heap),
  building n0 pre sh ->
  building n0 (pre ++ xs) (storeStrings growCap (length pre) xs sh) /\
  agreeBelow n0 sh.2 (storeStrings growCap (length pre) xs sh).2.
Proof.
  induction xs as [|x xs IH]; intros pre sh Hb.
  - rewrite app_nil_r. split; [exact Hb|apply agreeBelow_refl].
  - destruct (storeString_building n0 pre x sh Hb) as [Hb1 Hagree1].
    destruct (IH (pre ++ [x]) _ Hb1) as [Hb2 Hagree2].
    rewrite length_app in Hb2, Hagree2. simpl in Hb2, Hagree2.
    replace (length pre + 1)%nat with (S (length pre)) in Hb2, Hagree2
      by lia.
    rewrite <- app_assoc in Hb2. cbn [storeStrings].
    split; [exact Hb2|].
    eapply agreeBelow_trans; [|exact Hagree1|exact Hagree2]. lia.
Qed.

(** An array of strings decoded into a nil slice: the slice holds the
    strings, in an array that is new. *)
Lemma decodeStrings_nil (f : JField (list string)) (h : Heap) :
  let r := decodeStrings growCap f NilSlice h in
  match r.1 with
  | NilSlice =>
      match f with Val _ => False | _ => True end
  | Slice arr len cap =>
      (nextArr h <= arr < nextArr r.2)%nat /\
      f = Val (sliceStrings r.2 r.1)
  end /\
  agreeBelow (nextArr h) h r.2.
Proof.
  cbn zeta. destruct f as [| |[|x xs]].
  - simpl. split; [done|apply agreeBelow_refl].
  - simpl. split; [done|apply agreeBelow_refl].
  - simpl. split.
    + split; [lia|]. unfold strArray. simpl. done.
    + split; [simpl; lia|]. intros a Ha. simpl.
      by rewrite lookup_insert_ne by lia.
  - unfold decodeStrings.
    change (storeStrings growCap 0 (x :: xs) (NilSlice, h))
      with (storeStrings growCap (length (@nil string)) (x :: xs)
              (Slice 0 0 0, h)).
    destruct (storeStrings_building (nextArr h) (x :: xs) []
                (Slice 0 0 0, h)) as [Hb Hagree].
    { exists 0%nat, 0%nat. cbn. repeat split; lia. }
    destruct Hb as (arr & cap & Hs & Hcap & Hn0 & Harr).
    destruct (storeStrings growCap _ (x :: xs) (Slice 0 0 0, h))
      as [s h'].
    cbn [fst snd app] in *. subst s. cbn [fst snd].
    destruct Harr as (Hbounds & Hlen & Htake); [simpl in Hcap; lia|].
    split; [|exact Hagree]. split; [lia|].
    unfold sliceStrings. by rewrite Htake.
Qed.

Lemma viewRecord_agreeBelow (n : nat) (h h' : Heap)
    (r : EncapsulatedJSONProviderRecord) :
  agreeBelow n h h' -> recBelow n r -> viewRecord h' r = viewRecord h r.
Proof.
  intros [_ Hagree] Hr. unfold viewRecord, recBelow in *.
  destruct (rec_Addresses r) as [|arr len cap]; [done|].
  unfold sliceStrings, strArray. by rewrite Hagree.
Qed.

(** A JSON record decoded into a zero record. *)
Lemma decodeRecord_zero (j : JRecord) (h : Heap) :
  let r := decodeRecord growCap j zeroRecord h in
  viewRecord r.2 r.1 = jView j /\
  recBelow (nextArr r.2) r.1 /\
  agreeBelow (nextArr h) h r.2.
Proof.
  cbn zeta. unfold decodeRecord. cbn [rec_Addresses zeroRecord].
  pose proof (decodeStrings_nil (jAddresses j) h) as H. cbn zeta in H.
  destruct (decodeStrings growCap (jAddresses j) NilSlice h) as [s h'].
  cbn [fst snd] in *. destruct H as [Hs Hagree].
  split; [|split; [|exact Hagree]].
  - unfold viewRecord, jView. cbn. f_equal.
    destruct s as [|arr len cap].
    + by destruct (jAddresses j).
    + destruct Hs as [_ ->]. done.
  - unfold recBelow. cbn. destruct s as [|arr len cap]; [done|].
    destruct Hs as [? _]. lia.
Qed.

(** An array of JSON records decoded behind the slots that are there. *)
Lemma storeRecords_zero (js : list JRecord) :
  forall (sl : list EncapsulatedJSONProviderRecord) (h : Heap),
  Forall (recBelow (nextArr h)) sl ->
  let r := storeRecords growCap (length sl) js sl h in
  exists rs,
    r.1 = sl ++ rs /\
    viewRecord r.2 <$> rs = jView <$> js /\
    Forall (recBelow (nextArr r.2)) (sl ++ rs) /\
    agreeBelow (nextArr h) h r.2.
Proof.
  induction js as [|j js IH]; intros sl h Hsl; cbn zeta.
  - exists []. simpl. rewrite app_nil_r.
    split; [done|]. split; [done|]. split; [done|apply agreeBelow_refl].
  - cbn [storeRecords].
    rewrite (lookup_ge_None_2 sl (length sl)) by lia. cbn [default].
    pose proof (decodeRecord_zero j h) as Hrec. cbn zeta in Hrec.
    destruct (decodeRecord growCap j zeroRecord h) as [r h1].
    cbn [fst snd] in Hrec. destruct Hrec as (Hview & Hbelow & Hagree1).
    rewrite decide_False by lia.
    assert (Hsl1 : Forall (recBelow (nextArr h1)) (sl ++ [r])).
    { apply Forall_app. split; [|by constructor].
      eapply Forall_impl; [exact Hsl|]. intros r0. unfold recBelow.
      destruct Hagree1 as [Hnext _].
      destruct (rec_Addresses r0); [done|lia]. }
    specialize (IH (sl ++ [r]) h1 Hsl1). cbn zeta in IH.
    rewrite length_app in IH. simpl in IH.
    replace (length sl + 1)%nat with (S (length sl)) in IH by lia.
    destruct IH as (rs & Hres & Hviews & Hall & Hagree2).
    exists (r :: rs). rewrite Hres.
    split; [by rewrite <- app_assoc|].
    split; [|split].
    + rewrite !fmap_cons, Hviews. f_equal.
      rewrite <- Hview. eapply viewRecord_agreeBelow; [exact Hagree2|done].
    + by rewrite <- app_assoc in Hall.
    + eapply agreeBelow_trans; [|exact Hagree1|exact Hagree2].
      by destruct Hagree1.
Qed.

(** A document decoded into a zero [records]. *)
Lemma decodeDoc_zero (d : JDoc) (h : Heap) :
  let r := decodeDoc growCap d zeroTarget h in
  viewRecord r.2 <$> targetRecords r.1 = docViews d /\
  Forall (recBelow (nextArr r.2)) (targetRecords r.1) /\
  agreeBelow (nextArr h) h r.2.
Proof.
  cbn zeta. destruct d as [| |[|j js]];
    try (simpl; split; [done|]; split; [done|apply agreeBelow_refl]).
  unfold decodeDoc. cbn [slots zeroTarget].
  pose proof (storeRecords_zero (j :: js) [] h (Forall_nil_2 _)) as H.
  cbn zeta in H. cbn [length] in H.
  destruct (storeRecords growCap 0 (j :: js) [] h) as [sl h'].
  cbn [fst snd] in *. destruct H as (rs & -> & Hviews & Hall & Hagree).
  cbn [app] in *. unfold targetRecords. cbn [tlen slots].
  assert (Hlen : length rs = length (j :: js)).
  { apply (f_equal length) in Hviews. by rewrite !length_fmap in Hviews. }
  rewrite take_ge by lia. done.
Qed.

End DecodeFacts.

(** *** What the readers return *)

(** The records of a file as the simple reader takes them: the file must
    hold one well-formed document. *)
Definition fileViews (fs : FileSystem) (name : string)
  : option (list RecordView) :=
  match fs name with
  | Some [Some d] => Some (docViews d)
  | _ => None
  end.

Section EncodedFiles.

Variable growCap : nat -> nat.

(** The loop of [OpenMultipleEncodedJSONFiles] over the files; [records] is
    declared inside it and before the loop over the documents: a zero value
    for every file, and one value for the documents of a file. *)
Fixpoint encodedFiles (fs : FileSystem) (filenames : list string)
    (recordsIn : list EncapsulatedJSONProviderRecord) (h : Heap)
  : option (list EncapsulatedJSONProviderRecord * Heap) :=
  match filenames with
  | [] => Some (recordsIn, h)
  | name :: rest =>
      match fs name with
      | None => None
      | Some content =>
          match decodeStream growCap content zeroTarget recordsIn h with
          | None => None
          | Some (rs, h') => encodedFiles fs rest rs h'
          end
      end
  end.

Definition OpenMultipleEncodedJSONFiles (fs : FileSystem)
    (filenames : list string) : option JsonFileCIDSource :=
  match encodedFiles fs filenames [] emptyHeap with
  | None => None
  | Some (rs, h) => Some (mkSource EmptyString rs h 0)
  end.

End EncodedFiles.

Section ReaderFacts.

Variable growCap : nat -> nat.

Lemma OpenSimpleJSONFile_fileViews (fs : FileSystem) (name : string) :
  saneGrowth growCap ->
  recordList <$> OpenSimpleJSONFile growCap fs name = fileViews fs name.
Proof.
  intros Hgrow. unfold OpenSimpleJSONFile, fileViews, Unmarshal.
  destruct (fs name) as [[|[d|] [|x rest]]|]; try done.
  pose proof (decodeDoc_zero growCap Hgrow d emptyHeap) as H.
  cbn zeta in H.
  destruct (decodeDoc growCap d zeroTarget emptyHeap) as [t h].
  cbn [fst snd] in H. destruct H as (Hviews & _ & _).
  simpl. unfold recordList. cbn [heap records]. by rewrite Hviews.
Qed.

(** X17.  With a capacity policy that enlarges a full array,
    [OpenSimpleJSONFile] on a file that holds one well-formed document
    returns a source with the name of the file, its iterator at the start,
    and the records of the document in their order, each with the strings
    of its members: a member that is absent or null is the empty string,
    and nil for the addresses. *)
Theorem OpenSimpleJSONFile_reads_document (fs : FileSystem) (name : string)
    (d : JDoc) :
  saneGrowth growCap ->
  fs name = Some [Some d] ->
  exists s,
    OpenSimpleJSONFile growCap fs name = Some s /\
    recordList s = docViews d /\
    filename s = name /\ iterCalls s = 0%nat.
Proof.
  intros Hgrow Hfs.
  pose proof (OpenSimpleJSONFile_fileViews fs name Hgrow) as H.
  unfold fileViews in H. rewrite Hfs in H.
  unfold OpenSimpleJSONFile, Unmarshal in H |- *. rewrite Hfs in H |- *.
  destruct (decodeDoc growCap d zeroTarget emptyHeap) as [t h].
  eexists. split; [reflexivity|]. simpl in H. injection H as H.
  split; [exact H|]. done.
Qed.

Lemma simpleFiles_views (fs : FileSystem) (filenames : list string) :
  saneGrowth growCap ->
  forall (recordsIn : list EncapsulatedJSONProviderRecord) (h : Heap),
  Forall (recBelow (nextArr h)) recordsIn ->
  (fun r => viewRecord r.2 <$> r.1)
    <$> simpleFiles growCap fs filenames recordsIn h
  = (fun vss => (viewRecord h <$> recordsIn) ++ concat vss)
    <$> mapM (fileViews fs) filenames.
Proof.
  intros Hgrow.
  induction filenames as [|name rest IH]; intros recordsIn h Hin.
  - simpl. by rewrite app_nil_r.
  - change (mapM (fileViews fs) (name :: rest))
      with (fileViews fs name ≫= fun y =>
            mapM (fileViews fs) rest ≫= fun k => mret (y :: k)).
    assert (Hfv : fileViews fs name
                  = match fs name with
                    | Some [Some d] => Some (docViews d)
                    | _ => None
                    end) by reflexivity.
    rewrite Hfv. clear Hfv. cbn [simpleFiles]. unfold Unmarshal.
    destruct (fs name) as [[|[d|] [|x content]]|]; try reflexivity.
    pose proof (decodeDoc_zero growCap Hgrow d h) as Hdoc. cbn zeta in Hdoc.
    destruct (decodeDoc growCap d zeroTarget h) as [t h1].
    cbn [fst snd] in Hdoc. destruct Hdoc as (Hviews & Hbelow & Hagree).
    rewrite IH.
    2: { apply Forall_app. split; [|done].
         eapply Forall_impl; [exact Hin|]. intros r0. unfold recBelow.
         destruct Hagree as [Hnext _].
         destruct (rec_Addresses r0); [done|lia]. }
    cbn [mbind option_bind]. destruct (mapM (fileViews fs) rest) as [vss|];
      [|done].
    cbn. f_equal. rewrite fmap_app, Hviews, <- app_assoc. f_equal.
    apply list_eq_Forall2, Forall2_fmap, Forall_Forall2_diag.
    eapply Forall_impl; [exact Hin|]. intros r0 Hr0.
    by eapply viewRecord_agreeBelow.
Qed.

(** X18.  With a capacity policy that enlarges a full array,
    [OpenMultipleSimpleJSONFiles] returns the records that
    [OpenSimpleJSONFile] returns for each of the files, one file after the
    other in the order of the names, and fails exactly when
    [OpenSimpleJSONFile] fails for one of them: the addresses of the
    records of one file are not touched by the decoding of the next. *)
Theorem OpenMultipleSimpleJSONFiles_concat (fs : FileSystem)
    (filenames : list string) :
  saneGrowth growCap ->
  recordList <$> OpenMultipleSimpleJSONFiles growCap fs filenames
  = (fun rss => concat rss)
      <$> mapM (fun name => recordList <$> OpenSimpleJSONFile growCap fs name)
            filenames.
Proof.
  intros Hgrow.
  rewrite (mapM_ext _ (fileViews fs))
    by (intros name; by apply OpenSimpleJSONFile_fileViews).
  pose proof (simpleFiles_views fs filenames Hgrow [] emptyHeap
                (Forall_nil_2 _)) as H.
  unfold OpenMultipleSimpleJSONFiles.
  destruct (simpleFiles growCap fs filenames [] emptyHeap) as [[rs h]|];
    destruct (mapM (fileViews fs) filenames) as [vss|]; try done.
Qed.

Lemma encodedFiles_one_document (fs : FileSystem) (filenames : list string) :
  Forall (fun name => exists d, fs name = Some [Some d]) filenames ->
  forall (recordsIn : list EncapsulatedJSONProviderRecord) (h : Heap),
  encodedFiles growCap fs filenames recordsIn h
    = simpleFiles growCap fs filenames recordsIn h.
Proof.
  induction 1 as [|name rest [d Hd] _ IH]; intros recordsIn h; [done|].
  cbn [encodedFiles simpleFiles]. rewrite Hd.
  cbn [decodeStream Unmarshal].
  destruct (decodeDoc growCap d zeroTarget h) as [t h1]. apply IH.
Qed.

(** X19.  On files that hold one well-formed document each,
    [OpenMultipleEncodedJSONFiles] builds the source that
    [OpenMultipleSimpleJSONFiles] builds: the value the decoder stores into
    is declared anew for every file, so nothing of one file is left in it
    when the next is decoded. *)
Theorem OpenMultipleEncodedJSONFiles_one_document (fs : FileSystem)
    (filenames : list string) :
  Forall (fun name => exists d, fs name = Some [Some d]) filenames ->
  OpenMultipleEncodedJSONFiles growCap fs filenames
    = OpenMultipleSimpleJSONFiles growCap fs filenames.
Proof.
  intros Hone.
  unfold OpenMultipleEncodedJSONFiles, OpenMultipleSimpleJSONFiles.
  by rewrite (encodedFiles_one_document fs filenames Hone).
Qed.

Lemma decodeStream_well_formed (content : list (option JDoc)) :
  Forall is_Some content ->
  forall (t : RecordsTarget)
         (filtered : list EncapsulatedJSONProviderRecord) (h : Heap),
  is_Some (decodeStream growCap content t filtered h).
Proof.
  induction 1 as [|[d|] rest Hd _ IH]; intros t filtered h; [by eexists|..].
  - cbn [decodeStream]. destruct (decodeDoc growCap d t h). apply IH.
  - by destruct Hd.
Qed.

(** X20.  [OpenEncodedJSONFile] reads every file that [OpenSimpleJSONFile]
    reads, and builds the same source from it; it also reads a file of
    well-formed documents that is empty or holds several, and the empty file
    gives a source without records; [OpenSimpleJSONFile] reads a file only
    when it holds exactly one value. *)
Theorem OpenEncodedJSONFile_extends_OpenSimpleJSONFile (fs : FileSystem)
    (name : string) (content : list (option JDoc)) :
  fs name = Some content ->
  Forall is_Some content ->
  is_Some (OpenEncodedJSONFile growCap fs name) /\
  (forall s, OpenSimpleJSONFile growCap fs name = Some s ->
     OpenEncodedJSONFile growCap fs name = Some s) /\
  (is_Some (OpenSimpleJSONFile growCap fs name) <-> length content = 1%nat) /\
  (content = [] ->
   OpenEncodedJSONFile growCap fs name
     = Some (mkSource name [] emptyHeap 0)).
Proof.
  intros Hfs Hwf. unfold OpenEncodedJSONFile, OpenSimpleJSONFile, Unmarshal.
  rewrite Hfs. split; [|split; [|split]].
  - destruct (decodeStream_well_formed content Hwf zeroTarget [] emptyHeap)
      as [[rs h] ->]. by eexists.
  - destruct content as [|[d|] [|x rest]]; try done.
    cbn [decodeStream].
    destruct (decodeDoc growCap d zeroTarget emptyHeap) as [t h].
    cbn [app]. by intros s [= <-].
  - destruct content as [|[d|] [|x rest]]; simpl;
      try (split; [intros [? ?]; done|done]).
    + destruct (decodeDoc growCap d zeroTarget emptyHeap) as [t h].
      split; [done|]. intros _. by eexists.
    + apply Forall_cons in Hwf as [[? ?] _]. done.
  - intros ->. reflexivity.
Qed.

End ReaderFacts.

Lemma saneGrowth_jsonGrowCap : saneGrowth jsonGrowCap.
Proof.
  intros c. unfold jsonGrowCap.
  destruct (Nat.le_gt_cases 4 c) as [Hbig|Hsmall]; [|lia].
  assert (1 <= c / 2)%nat by (apply Nat.div_le_lower_bound; lia). lia.
Qed.

Lemma OpenSimpleJSONFile_reads_document_witness :
  exists s,
    OpenSimpleJSONFile jsonGrowCap twoDocs "a.json" = Some s /\
    recordList s = docViews docA /\
    filename s = "a.json" /\ iterCalls s = 0%nat.
Proof.
  apply (OpenSimpleJSONFile_reads_document jsonGrowCap twoDocs "a.json" docA).
  - exact saneGrowth_jsonGrowCap.
  - reflexivity.
Defined.

Lemma OpenMultipleSimpleJSONFiles_concat_witness :
  recordList <$> OpenMultipleSimpleJSONFiles jsonGrowCap twoDocs
                   ["a.json"; "b.json"]
  = (fun rss => concat rss)
      <$> mapM (fun name =>
                  recordList <$> OpenSimpleJSONFile jsonGrowCap twoDocs name)
            ["a.json"; "b.json"].
Proof.
  apply (OpenMultipleSimpleJSONFiles_concat jsonGrowCap twoDocs
           ["a.json"; "b.json"]).
  exact saneGrowth_jsonGrowCap.
Defined.

Lemma OpenMultipleEncodedJSONFiles_one_document_witness :
  OpenMultipleEncodedJSONFiles jsonGrowCap twoDocs ["a.json"; "b.json"]
    = OpenMultipleSimpleJSONFiles jsonGrowCap twoDocs ["a.json"; "b.json"].
Proof.
  apply (OpenMultipleEncodedJSONFiles_one_document jsonGrowCap twoDocs
           ["a.json"; "b.json"]).
  repeat constructor; eexists; reflexivity.
Defined.

Lemma OpenEncodedJSONFile_extends_OpenSimpleJSONFile_witness :
  is_Some (OpenEncodedJSONFile jsonGrowCap twoDocs "encoded.json") /\
  (forall s, OpenSimpleJSONFile jsonGrowCap twoDocs "encoded.json" = Some s ->
     OpenEncodedJSONFile jsonGrowCap twoDocs "encoded.json" = Some s) /\
  (is_Some (OpenSimpleJSONFile jsonGrowCap twoDocs "encoded.json")
   <-> length [Some docA; Some docB] = 1%nat) /\
  ([Some docA; Some docB] = [] ->
   OpenEncodedJSONFile jsonGrowCap twoDocs "encoded.json"
     = Some (mkSource "encoded.json" [] emptyHeap 0)).
Proof.
  apply (OpenEncodedJSONFile_extends_OpenSimpleJSONFile jsonGrowCap twoDocs
           "encoded.json" [Some docA; Some docB]).
  - reflexivity.
  - repeat constructor; by eexists.
Defined.

(** *** Going through the records *)

Section Iteration.

Context {C P M : Type} {parsers : Parsers C P M}.

(** What [GetNewCid] makes of a record whose five parsed fields parse. *)
Definition parseRecord (h : Heap) (pr : EncapsulatedJSONProviderRecord)
  : option (TrackableCid C P M) :=
  match cidParse (rec_CID pr), peerDecode (rec_ID pr),
        peerDecode (rec_Creator pr), ParseDuration (rec_ProvideTime pr),
        ParseTime (rec_PublicationTime pr) with
  | Some newCid, Some newPid, Some newCreator, Some newProvideTime,
    Some newPublicationTime =>
      Some (NewTrackableCid C P M newPid newCid newCreator
              (multiaddresses (sliceStrings h (rec_Addresses pr)))
              newPublicationTime newProvideTime (rec_UserAgent pr))
  | _, _, _, _, _ => None
  end.

(** What a caller gets from a record: nothing from an empty one. *)
Definition readRecord (h : Heap) (pr : EncapsulatedJSONProviderRecord)
  : option (TrackableCid C P M) :=
  if isZeroRecord pr then None else parseRecord h pr.

(** [n] calls of [GetNewCid], one after the other: what each returned, the
    source after the last, and the diagnostics written. *)
Fixpoint GetNewCids (n : nat) (s : JsonFileCIDSource)
  : list (option (TrackableCid C P M)) * JsonFileCIDSource * list Diagnostic :=
  match n with
  | O => ([], s, [])
  | S n' =>
      let '(r, s1, log1) := GetNewCid s in
      let '(rs, s2, log2) := GetNewCids n' s1 in
      (r :: rs, s2, log1 ++ log2)
  end.

(** The records the iterator has not returned yet. *)
Definition pending (s : JsonFileCIDSource)
  : list EncapsulatedJSONProviderRecord :=
  drop (iterCalls s) (records s).

Lemma parseRecord_None (h : Heap) (pr : EncapsulatedJSONProviderRecord) :
  parseRecord h pr = None -> malformedField pr.
Proof.
  unfold parseRecord, malformedField.
  destruct (cidParse (rec_CID pr)); [|by left].
  destruct (peerDecode (rec_ID pr)); [|by right; left].
  destruct (peerDecode (rec_Creator pr)); [|by right; right; left].
  destruct (ParseDuration (rec_ProvideTime pr));
    [|by right; right; right; left].
  destruct (ParseTime (rec_PublicationTime pr)); [done|].
  by right; right; right; right.
Qed.

Lemma parseRecord_Some (h : Heap) (pr : EncapsulatedJSONProviderRecord)
    (rest : list EncapsulatedJSONProviderRecord) (t : TrackableCid C P M) :
  isZeroRecord pr = false ->
  parseRecord h pr = Some t ->
  getNewCidFrom h (pr :: rest) = (Some t, 1%nat, []).
Proof.
  intros Hnz. unfold parseRecord.
  destruct (cidParse (rec_CID pr)) eqn:H1; [|done].
  destruct (peerDecode (rec_ID pr)) eqn:H2; [|done].
  destruct (peerDecode (rec_Creator pr)) eqn:H3; [|done].
  destruct (ParseDuration (rec_ProvideTime pr)) eqn:H4; [|done].
  destruct (ParseTime (rec_PublicationTime pr)) eqn:H5; [|done].
  intros [= <-]. by apply getNewCidFrom_keep.
Qed.

(** One call of [GetNewCid] over records none of which is empty: it returns
    the first that parses and leaves the iterator behind it, with one
    diagnostic for each record it passed. *)
Lemma getNewCidFrom_first_parsed (h : Heap)
    (rest : list EncapsulatedJSONProviderRecord) :
  Forall (fun pr => isZeroRecord pr = false) rest ->
  let r := getNewCidFrom h rest in
  r.1.1 = head (omap (parseRecord h) rest) /\
  omap (parseRecord h) (drop r.1.2 rest) = tail (omap (parseRecord h) rest) /\
  r.1.2 = S (length r.2).
Proof.
  induction 1 as [|pr rest Hnz _ IH]; cbn zeta; [done|].
  cbn zeta in IH.
  change (omap (parseRecord h) (pr :: rest))
    with (match parseRecord h pr with
          | Some t => t :: omap (parseRecord h) rest
          | None => omap (parseRecord h) rest
          end).
  destruct (parseRecord h pr) as [t|] eqn:Hparse.
  - by rewrite (parseRecord_Some h pr rest t Hnz Hparse).
  - destruct (getNewCidFrom_skip h pr rest Hnz (parseRecord_None _ _ Hparse))
      as [d ->].
    destruct (getNewCidFrom h rest) as [[r n] log]. cbn [fst snd] in *.
    destruct IH as (Hr & Hrest & Hn). cbn [drop length].
    split; [done|]. split; [done|]. lia.
Qed.

Lemma GetNewCid_first_parsed (s : JsonFileCIDSource) :
  Forall (fun pr => isZeroRecord pr = false) (pending s) ->
  let r := GetNewCid s in
  r.1.1 = head (omap (parseRecord (heap s)) (pending s)) /\
  omap (parseRecord (heap s)) (pending r.1.2)
    = tail (omap (parseRecord (heap s)) (pending s)) /\
  Forall (fun pr => isZeroRecord pr = false) (pending r.1.2) /\
  heap r.1.2 = heap s.
Proof.
  intros Hnz. cbn zeta. unfold GetNewCid.
  pose proof (getNewCidFrom_first_parsed (heap s) (pending s) Hnz) as H.
  cbn zeta in H. unfold pending in H at 1 2 3.
  destruct (getNewCidFrom (heap s) (drop (iterCalls s) (records s)))
    as [[r n] log].
  cbn [fst snd] in *. destruct H as (Hr & Hrest & Hn).
  unfold pending at 2 4. cbn [iterCalls records].
  rewrite <- drop_drop. fold (pending s).
  split; [exact Hr|]. split; [exact Hrest|]. split; [|done].
  by apply Forall_drop.
Qed.

(** X21.  On a source whose remaining records are not empty, calls of
    [GetNewCid] return the records whose five fields parse, in the order of
    the file and each once, whatever lies between them; after the last of
    them every call returns the error "end of provider records". *)
Theorem GetNewCids_returns_parsed_records (n : nat) :
  forall s : JsonFileCIDSource,
  Forall (fun pr => isZeroRecord pr = false) (pending s) ->
  (GetNewCids n s).1.1
    = take n ((Some <$> omap (parseRecord (heap s)) (pending s))
              ++ replicate n None).
Proof.
  induction n as [|n IH]; intros s Hnz; [done|].
  cbn [GetNewCids].
  pose proof (GetNewCid_first_parsed s Hnz) as H. cbn zeta in H.
  destruct (GetNewCid s) as [[r s1] log1]. cbn [fst snd] in H.
  destruct H as (Hr & Hrest & Hnz1 & Hheap).
  specialize (IH s1 Hnz1). rewrite Hheap, Hrest in IH.
  destruct (GetNewCids n s1) as [[rs s2] log2]. cbn [fst snd] in *.
  rewrite IH, Hr.
  destruct (omap (parseRecord (heap s)) (pending s)) as [|g good].
  - cbn. done.
  - rewrite fmap_cons. cbn [head tail app firstn]. f_equal.
    rewrite !take_app, !take_replicate. do 2 f_equal. lia.
Qed.

(** X22.  An empty record in the list ends a call of [GetNewCid] as the end
    of the list does, with the error and without a diagnostic, whatever
    comes behind it; the iterator has moved past it, so the next call goes
    on with the record behind the empty one. *)
Theorem GetNewCid_stops_at_empty_record (s : JsonFileCIDSource)
    (pr : EncapsulatedJSONProviderRecord) :
  records s !! iterCalls s = Some pr ->
  isZeroRecord pr = true ->
  GetNewCid s = (None, skipRecord s, []) /\
  pending (skipRecord s) = drop 1 (pending s) /\
  (GetNewCids 2 s).1.1 = [None; (GetNewCid (skipRecord s)).1.1].
Proof.
  intros Hpr Hz.
  assert (Hcall : GetNewCid s = (None, skipRecord s, [])).
  { unfold GetNewCid. rewrite (drop_S _ _ _ Hpr). cbn [getNewCidFrom].
    rewrite Hz. unfold skipRecord.
    replace (iterCalls s + 1)%nat with (S (iterCalls s)) by lia. done. }
  split; [exact Hcall|]. split.
  - unfold pending, skipRecord. cbn [iterCalls records].
    rewrite drop_drop. f_equal. lia.
  - cbn [GetNewCids]. rewrite Hcall.
    destruct (GetNewCid (skipRecord s)) as [[r s1] log1]. done.
Qed.

End Iteration.

(** A file with a record whose CID does not parse, between two that
    parse. *)
Definition threeRecords : FileSystem :=
  fun _ =>
    Some [Some (Val [jrec "cidA" "peerA" "kubo" [];
                     jrec "not-a-cid" "peerB" "kubo" [];
                     jrec "cidC" "peerC" "kubo" []])].

Definition threeRecordsSource : JsonFileCIDSource :=
  default (mkSource EmptyString [] emptyHeap 0)
    (OpenSimpleJSONFile jsonGrowCap threeRecords "three.json").

Definition emptyFirstSource : JsonFileCIDSource :=
  default (mkSource EmptyString [] emptyHeap 0)
    (OpenSimpleJSONFile jsonGrowCap someFiles "empty-first.json").

(** The CIDs of the records that calls of [GetNewCid] returned. *)
Definition returnedCids
    (rs : list (option (TrackableCid string string string)))
  : list (option string) :=
  fmap (M := list) (fmap (M := option) tc_CID) rs.

Lemma GetNewCids_returns_parsed_records_witness :
  returnedCids (GetNewCids (parsers := fakeParsers) 4 threeRecordsSource).1.1
    = [Some "cidA"; Some "cidC"; None; None] /\
  (GetNewCids (parsers := fakeParsers) 4 threeRecordsSource).1.1
    = take 4 ((Some <$> omap (parseRecord (parsers := fakeParsers)
                                (heap threeRecordsSource))
                          (pending threeRecordsSource))
              ++ replicate 4 None).
Proof.
  split; [vm_compute; reflexivity|].
  apply (GetNewCids_returns_parsed_records (parsers := fakeParsers) 4
           threeRecordsSource).
  repeat constructor.
Defined.

Lemma GetNewCid_stops_at_empty_record_witness :
  returnedCids (GetNewCids (parsers := fakeParsers) 2 emptyFirstSource).1.1
    = [None; Some "cidB"] /\
  GetNewCid (parsers := fakeParsers) emptyFirstSource
    = (None, skipRecord emptyFirstSource, []) /\
  pending (skipRecord emptyFirstSource) = drop 1 (pending emptyFirstSource) /\
  (GetNewCids (parsers := fakeParsers) 2 emptyFirstSource).1.1
    = [None; (GetNewCid (parsers := fakeParsers)
                (skipRecord emptyFirstSource)).1.1].
Proof.
  split; [vm_compute; reflexivity|].
  apply (GetNewCid_stops_at_empty_record (parsers := fakeParsers)
           emptyFirstSource zeroRecord); vm_compute; reflexivity.
Defined.

(** *** What an encoded file keeps of its documents *)

(** The six strings of a record. *)
Definition recStrings (r : EncapsulatedJSONProviderRecord)
  : list string :=
  [rec_CID r; rec_ID r; rec_Creator r; rec_ProvideTime r;
   rec_PublicationTime r; rec_UserAgent r].

Definition viewStrings (v : RecordView) : list string :=
  [v_CID v; v_ID v; v_Creator v; v_ProvideTime v; v_PublicationTime v;
   v_UserAgent v].

Definition hasValue {A : Type} (f : JField A) : bool :=
  match f with
  | Val _ => true
  | _ => false
  end.

(** The JSON record gives a string for each of the six string members. *)
Definition complete (j : JRecord) : bool :=
  hasValue (jCID j) && hasValue (jID j) && hasValue (jCreator j)
  && hasValue (jProvideTime j) && hasValue (jPublicationTime j)
  && hasValue (jUserAgent j).

(** The document is well-formed, has its array of records, and its records
    are complete. *)
Definition completeDoc (d : option JDoc) : bool :=
  match d with
  | Some (Val js) => forallb complete js
  | _ => false
  end.

(** The records of the documents of a stream, one document after the
    other. *)
Fixpoint streamRecords (content : list (option JDoc)) : list JRecord :=
  match content with
  | [] => []
  | Some (Val js) :: rest => js ++ streamRecords rest
  | _ :: rest => streamRecords rest
  end.

Section EncodedFacts.

Variable growCap : nat -> nat.

Lemma decodeRecord_strings (j : JRecord)
    (old : EncapsulatedJSONProviderRecord) (h : Heap) :
  complete j = true ->
  recStrings (decodeRecord growCap j old h).1 = viewStrings (jView j).
Proof.
  destruct j as [c i cr pt pu ua ad].
  unfold complete, decodeRecord, jView. cbn. intros Hc.
  repeat (apply andb_true_iff in Hc as [Hc ?]).
  destruct (decodeStrings growCap ad (rec_Addresses old) h).
  by destruct c, i, cr, pt, pu, ua.
Qed.

Lemma storeRecords_strings (js : list JRecord) :
  forall (i : nat) (sl : list EncapsulatedJSONProviderRecord) (h : Heap),
  forallb complete js = true ->
  (i <= length sl)%nat ->
  exists new,
    take (i + length js) (storeRecords growCap i js sl h).1
      = take i sl ++ new /\
    recStrings <$> new = (fun j => viewStrings (jView j)) <$> js.
Proof.
  induction js as [|j js IH]; intros i sl h Hc Hi.
  - exists []. simpl. by rewrite Nat.add_0_r, app_nil_r.
  - cbn [forallb] in Hc. apply andb_true_iff in Hc as [Hj Hc].
    cbn [storeRecords].
    pose proof (decodeRecord_strings j (default zeroRecord (sl !! i)) h Hj)
      as Hstr.
    destruct (decodeRecord growCap j (default zeroRecord (sl !! i)) h)
      as [r h1].
    cbn [fst] in Hstr.
    set (sl' := if decide (i < length sl)%nat then <[i := r]> sl
                else sl ++ [r]).
    assert (Hsl' : take (S i) sl' = take i sl ++ [r] /\
                   (S i <= length sl')%nat).
    { unfold sl'. destruct (decide (i < length sl)%nat) as [Hlt|Hge].
      - rewrite length_insert. split; [|lia].
        rewrite (take_S_r _ _ r) by (by apply list_lookup_insert_eq).
        by rewrite take_insert_ge by lia.
      - rewrite length_app. simpl. split; [|lia].
        assert (i = length sl) as -> by lia.
        rewrite take_ge by (rewrite length_app; simpl; lia).
        by rewrite take_ge by lia. }
    destruct Hsl' as [Htake Hlen].
    destruct (IH (S i) sl' h1 Hc Hlen) as (new & Hnew & Hstrs).
    exists (r :: new). split.
    + cbn [length]. replace (i + S (length js))%nat
        with (S i + length js)%nat by lia.
      by rewrite Hnew, Htake, <- app_assoc.
    + by rewrite !fmap_cons, Hstr, Hstrs.
Qed.

Lemma decodeDoc_strings (js : list JRecord) (t : RecordsTarget) (h : Heap) :
  forallb complete js = true ->
  recStrings <$> targetRecords (decodeDoc growCap (Val js) t h).1
    = (fun j => viewStrings (jView j)) <$> js.
Proof.
  intros Hc. destruct js as [|j js]; [done|].
  unfold decodeDoc.
  destruct (storeRecords_strings (j :: js) 0 (slots t) h Hc)
    as (new & Hnew & Hstrs); [lia|].
  destruct (storeRecords growCap 0 (j :: js) (slots t) h) as [sl h'].
  cbn [fst] in *. unfold targetRecords. cbn [tlen slots].
  change (0 + length (j :: js))%nat with (length (j :: js)) in Hnew.
  by rewrite Hnew.
Qed.

Lemma decodeStream_strings (content : list (option JDoc)) :
  forall (t : RecordsTarget)
         (filtered : list EncapsulatedJSONProviderRecord) (h : Heap),
  forallb completeDoc content = true ->
  exists rs h',
    decodeStream growCap content t filtered h = Some (filtered ++ rs, h') /\
    recStrings <$> rs
      = (fun j => viewStrings (jView j)) <$> streamRecords content.
Proof.
  induction content as [|d content IH]; intros t filtered h Hc.
  - exists [], h. simpl. by rewrite app_nil_r.
  - cbn [forallb] in Hc. apply andb_true_iff in Hc as [Hd Hc].
    destruct d as [[| |js]|]; try done. cbn [completeDoc] in Hd.
    cbn [decodeStream streamRecords].
    pose proof (decodeDoc_strings js t h Hd) as Hdoc.
    destruct (decodeDoc growCap (Val js) t h) as [t' h1]. cbn [fst] in Hdoc.
    destruct (IH t' (filtered ++ targetRecords t') h1 Hc)
      as (rs & h' & Hrun & Hstrs).
    exists (targetRecords t' ++ rs), h'. split.
    + by rewrite Hrun, <- app_assoc.
    + by rewrite !fmap_app, Hdoc, Hstrs.
Qed.

(** X25.  From a file of well-formed documents whose records give all six
    string members, [OpenEncodedJSONFile] returns as many records as the
    documents hold, in their order, each with the CID, ID, Creator,
    ProvideTime, PublicationTime and UserAgent that its JSON gives, whatever
    the capacity policy of the decoder: what a later document can change in
    a record of an earlier one is its addresses only. *)
Theorem OpenEncodedJSONFile_keeps_strings (fs : FileSystem) (name : string)
    (content : list (option JDoc)) :
  fs name = Some content ->
  forallb completeDoc content = true ->
  exists s,
    OpenEncodedJSONFile growCap fs name = Some s /\
    viewStrings <$> recordList s
      = (fun j => viewStrings (jView j)) <$> streamRecords content.
Proof.
  intros Hfs Hc. unfold OpenEncodedJSONFile. rewrite Hfs.
  destruct (decodeStream_strings content zeroTarget [] emptyHeap Hc)
    as (rs & h & -> & Hstrs).
  eexists. split; [reflexivity|].
  unfold recordList. cbn [records heap app].
  rewrite <- Hstrs, <- list_fmap_compose. done.
Qed.

End EncodedFacts.

Lemma OpenEncodedJSONFile_keeps_strings_witness :
  exists s,
    OpenEncodedJSONFile jsonGrowCap twoDocs "encoded.json" = Some s /\
    viewStrings <$> recordList s
      = (fun j => viewStrings (jView j))
          <$> streamRecords [Some docA; Some docB].
Proof.
  apply (OpenEncodedJSONFile_keeps_strings jsonGrowCap twoDocs
           "encoded.json" [Some docA; Some docB]); reflexivity.
Defined.

End CidSource.

(** ** The loops that draw CIDs from a source: [generateCids], [readCIDs] *)

Module Tracker.
Import Models.

(** What the loops use of a [CidSource]: [GetNewCid], whose result is [None]
    when it returns an error, and the test [reflect.DeepEqual(_, Undef)] on
    a value it returned. *)
Class Source (Src T : Type) := {
  GetNewCid : Src -> option T * Src;
  isUndef : T -> bool;
}.

Section Loops.

Context {Src T C : Type} {source : Source Src T}.

(** The field [CID] of what the source returns. *)
Variable cidOf : T -> C.

(** The loop of [generateCids] with [rem] iterations left: an error is
    logged and the iteration is spent. *)
Fixpoint generateLoop (rem : nat) (s : Src) (cidChannel : list C)
  : Src * list C :=
  match rem with
  | O => (s, cidChannel)
  | S rem' =>
      let '(r, s') := GetNewCid s in
      match r with
      | None => generateLoop rem' s' cidChannel
      | Some t => generateLoop rem' s' (cidChannel ++ [cidOf t])
      end
  end.

(** [for i := 0; i < cidNumber; i++] *)
Definition generateCids (cidNumber : Z) (s : Src) (cidChannel : list C)
  : Src * list C :=
  generateLoop (Z.to_nat cidNumber) s cidChannel.

(** The loop of [readCIDs], for [fuel] iterations at most: whether it was
    left through its [break], the source, and the channel.  An error is
    logged and the loop goes on; the test for [Undef] comes after it. *)
Fixpoint readCIDs (fuel : nat) (s : Src) (channel : list T)
  : bool * Src * list T :=
  match fuel with
  | O => (false, s, channel)
  | S fuel' =>
      let '(r, s') := GetNewCid s in
      match r with
      | None => readCIDs fuel' s' channel
      | Some t =>
          if isUndef t then (true, s', channel)
          else readCIDs fuel' s' (channel ++ [t])
      end
  end.

End Loops.

(** [JsonFileCIDSource] as a source; [undef] is the test for [Undef]. *)
Definition jsonSource {C P M : Type} {parsers : CidSource.Parsers C P M}
    (undef : CidSource.TrackableCid C P M -> bool)
  : Source CidSource.JsonFileCIDSource (CidSource.TrackableCid C P M) := {|
  GetNewCid := fun s =>
    let '(r, s', _) := CidSource.GetNewCid s in (r, s');
  isUndef := undef;
|}.

Section JsonFileSource.

Import CidSource.

Context {C P M : Type} {parsers : Parsers C P M}.
Variable undef : TrackableCid C P M -> bool.

Lemma generateLoop_json (rem : nat) :
  forall (s : JsonFileCIDSource) (cidChannel : list C),
  Forall (fun pr => isZeroRecord pr = false) (pending s) ->
  (generateLoop (source := jsonSource undef) tc_CID rem s cidChannel).2
    = cidChannel
      ++ (tc_CID <$> take rem (omap (parseRecord (heap s)) (pending s))).
Proof.
  induction rem as [|rem IH]; intros s cidChannel Hnz.
  { simpl. by rewrite app_nil_r. }
  cbn [generateLoop Tracker.GetNewCid jsonSource].
  pose proof (GetNewCid_first_parsed s Hnz) as H. cbn zeta in H.
  destruct (CidSource.GetNewCid s) as [[r s1] log1]. cbn [fst snd] in *.
  destruct H as (Hr & Hrest & Hnz1 & Hheap).
  destruct (omap (parseRecord (heap s)) (pending s)) as [|g good];
    cbn [head tail] in Hr, Hrest; subst r; cbn [fst snd].
  - rewrite IH by done. by rewrite Hheap, Hrest, !take_nil.
  - rewrite IH by done. rewrite Hheap, Hrest. cbn [firstn].
    by rewrite fmap_cons, <- app_assoc.
Qed.

(** X23.  [generateCids] over a JSON file source whose remaining records
    are not empty sends the CIDs of the first [cidNumber] records that
    parse, in the order of the file; when fewer parse it sends them all and
    spends its other iterations on the error of the source; with a
    [cidNumber] that is not positive it sends nothing. *)
Theorem generateCids_sends_first_parsed (cidNumber : Z)
    (s : JsonFileCIDSource) (cidChannel : list C) :
  Forall (fun pr => isZeroRecord pr = false) (pending s) ->
  (generateCids (source := jsonSource undef) tc_CID cidNumber s
     cidChannel).2
    = cidChannel
      ++ (tc_CID <$> take (Z.to_nat cidNumber)
                      (omap (parseRecord (heap s)) (pending s))) /\
  (cidNumber <= 0 ->
   generateCids (source := jsonSource undef) tc_CID cidNumber s cidChannel
     = (s, cidChannel)).
Proof.
  intros Hnz. unfold generateCids. split; [by apply generateLoop_json|].
  intros Hneg. replace (Z.to_nat cidNumber) with 0%nat by lia. done.
Qed.

(** A record that [GetNewCid] returns has a CID that [cid.Parse] gave. *)
Lemma getNewCidFrom_parsed_cid (h : Heap)
    (rest : list EncapsulatedJSONProviderRecord) (t : TrackableCid C P M) :
  (getNewCidFrom h rest).1.1 = Some t ->
  exists str, cidParse str = Some (tc_CID t).
Proof.
  induction rest as [|pr rest IH]; [done|]. cbn [getNewCidFrom].
  destruct (isZeroRecord pr); [done|].
  destruct (getNewCidFrom h rest) as [[r n] log]. cbn [fst snd] in IH.
  destruct (cidParse (rec_CID pr)) eqn:H1; [|exact IH].
  destruct (peerDecode (rec_ID pr)); [|exact IH].
  destruct (peerDecode (rec_Creator pr)); [|exact IH].
  destruct (ParseDuration (rec_ProvideTime pr)); [|exact IH].
  destruct (ParseTime (rec_PublicationTime pr)); [|exact IH].
  intros [= <-]. by exists (rec_CID pr).
Qed.

(** One call of [GetNewCid] passes some records, at least one unless none
    is left, and returns what a caller can read from them: one record or
    none. *)
Lemma getNewCidFrom_readRecord (h : Heap)
    (rest : list EncapsulatedJSONProviderRecord) :
  let r := getNewCidFrom h rest in
  omap (readRecord h) (take r.1.2 rest)
    = match r.1.1 with Some t => [t] | None => [] end /\
  (1 <= r.1.2)%nat.
Proof.
  induction rest as [|pr rest IH]; cbn zeta; [done|].
  cbn zeta in IH.
  assert (Hcons : forall n,
            omap (readRecord h) (take (S n) (pr :: rest))
            = match readRecord h pr with
              | Some t => t :: omap (readRecord h) (take n rest)
              | None => omap (readRecord h) (take n rest)
              end) by reflexivity.
  destruct (isZeroRecord pr) eqn:Hz.
  - cbn [getNewCidFrom]. rewrite Hz. cbn [fst snd]. rewrite Hcons.
    unfold readRecord at 1. rewrite Hz. done.
  - destruct (parseRecord h pr) as [t|] eqn:Hparse.
    + rewrite (parseRecord_Some h pr rest t Hz Hparse). cbn [fst snd].
      rewrite Hcons. unfold readRecord at 1. rewrite Hz, Hparse. done.
    + destruct (getNewCidFrom_skip h pr rest Hz (parseRecord_None _ _ Hparse))
        as [d ->].
      destruct (getNewCidFrom h rest) as [[r n] log]. cbn [fst snd] in *.
      destruct IH as [Hread Hn]. rewrite Hcons.
      unfold readRecord at 1. rewrite Hz, Hparse. split; [done|lia].
Qed.

Lemma readCIDs_json (fuel : nat) :
  (forall t, undef t = true -> forall str, cidParse str <> Some (tc_CID t)) ->
  forall (s : JsonFileCIDSource) (channel : list (TrackableCid C P M)),
  let r := readCIDs (source := jsonSource undef) fuel s channel in
  r.1.1 = false /\
  exists k,
    (fuel <= k)%nat /\
    r.2 = channel ++ omap (readRecord (heap s)) (take k (pending s)).
Proof.
  intros Hundef. induction fuel as [|fuel IH]; intros s channel; cbn zeta.
  { split; [done|]. exists 0%nat. split; [done|]. simpl.
    by rewrite app_nil_r. }
  cbn [readCIDs Tracker.GetNewCid isUndef jsonSource].
  unfold CidSource.GetNewCid. fold (pending s).
  pose proof (getNewCidFrom_readRecord (heap s) (pending s)) as Hread.
  pose proof (getNewCidFrom_parsed_cid (heap s) (pending s)) as Hcid.
  cbn zeta in Hread.
  destruct (getNewCidFrom (heap s) (pending s)) as [[r n] log].
  cbn [fst snd] in *. destruct Hread as [Hread Hn].
  set (s1 := mkSource (filename s) (records s) (heap s) (iterCalls s + n)).
  assert (Hpending : pending s1 = drop n (pending s)).
  { unfold pending, s1. cbn [iterCalls records]. by rewrite drop_drop. }
  specialize (IH s1). cbn zeta in IH.
  destruct r as [t|].
  - destruct (undef t) eqn:Ht.
    { destruct (Hcid t eq_refl) as [str Hstr]. by destruct (Hundef t Ht str). }
    destruct (IH (channel ++ [t])) as [Hret (k & Hk & Hch)].
    split; [exact Hret|]. exists (n + k)%nat. split; [lia|].
    rewrite Hch, Hpending. change (heap s1) with (heap s).
    rewrite <- app_assoc. f_equal.
    rewrite <- take_take_drop, omap_app, Hread. done.
  - destruct (IH channel) as [Hret (k & Hk & Hch)].
    split; [exact Hret|]. exists (n + k)%nat. split; [lia|].
    rewrite Hch, Hpending. change (heap s1) with (heap s). f_equal.
    rewrite <- take_take_drop, omap_app, Hread. done.
Qed.

(** X24.  When no string parses to the CID of a value that is equal to
    [Undef], [readCIDs] over a JSON file source never leaves its loop,
    however many iterations it is given: the source reports its end by an
    error, which the loop logs before it tests for [Undef].  By the time it
    has made as many iterations as there are records left it has sent every
    record that is not empty and whose fields parse, in the order of the
    file, those behind an empty record too; every iteration after that is
    spent on the error. *)
Theorem readCIDs_never_returns (fuel : nat) (s : JsonFileCIDSource)
    (channel : list (TrackableCid C P M)) :
  (forall t, undef t = true -> forall str, cidParse str <> Some (tc_CID t)) ->
  (readCIDs (source := jsonSource undef) fuel s channel).1.1 = false /\
  ((length (pending s) <= fuel)%nat ->
   (readCIDs (source := jsonSource undef) fuel s channel).2
     = channel ++ omap (readRecord (heap s)) (pending s)).
Proof.
  intros Hundef.
  destruct (readCIDs_json fuel Hundef s channel) as [Hret (k & Hk & Hch)].
  split; [exact Hret|]. intros Hlen. rewrite Hch.
  by rewrite take_ge by lia.
Qed.

End JsonFileSource.

(** [Undef] for the examples: the value whose CID is the empty string. *)
Definition fakeUndef (t : CidSource.TrackableCid string string string) : bool :=
  String.eqb (CidSource.tc_CID t) EmptyString.

Lemma generateCids_sends_first_parsed_witness :
  (generateCids (source := jsonSource (parsers := CidSource.fakeParsers)
                             fakeUndef)
     CidSource.tc_CID 5 CidSource.threeRecordsSource []).2
    = ["cidA"; "cidC"] /\
  (generateCids (source := jsonSource (parsers := CidSource.fakeParsers)
                             fakeUndef)
     CidSource.tc_CID 5 CidSource.threeRecordsSource []).2
    = [] ++ (CidSource.tc_CID
               <$> take (Z.to_nat 5)
                     (omap (CidSource.parseRecord
                              (parsers := CidSource.fakeParsers)
                              (CidSource.heap CidSource.threeRecordsSource))
                        (CidSource.pending CidSource.threeRecordsSource))) /\
  (5 <= 0 ->
   generateCids (source := jsonSource (parsers := CidSource.fakeParsers)
                             fakeUndef)
     CidSource.tc_CID 5 CidSource.threeRecordsSource []
     = (CidSource.threeRecordsSource, [])).
Proof.
  split; [vm_compute; reflexivity|].
  apply (generateCids_sends_first_parsed
           (parsers := CidSource.fakeParsers) fakeUndef 5
           CidSource.threeRecordsSource []).
  repeat constructor.
Defined.

Lemma fakeUndef_not_parsed (t : CidSource.TrackableCid string string string) :
  fakeUndef t = true ->
  forall str, CidSource.fakeCid str <> Some (CidSource.tc_CID t).
Proof.
  unfold fakeUndef. intros Ht%String.eqb_eq str. rewrite Ht.
  unfold CidSource.fakeCid. destruct (String.prefix "cid" str) eqn:Hp; [|done].
  intros [= ->]. done.
Qed.

(** The file with an empty record in front of a good one: ten iterations
    send the good record and do not end the loop. *)
Lemma readCIDs_never_returns_witness :
  CidSource.tc_CID
    <$> (readCIDs (source := jsonSource (parsers := CidSource.fakeParsers)
                               fakeUndef)
           10 CidSource.emptyFirstSource []).2
    = ["cidB"] /\
  (readCIDs (source := jsonSource (parsers := CidSource.fakeParsers)
                          fakeUndef)
     10 CidSource.emptyFirstSource []).1.1 = false /\
  ((length (CidSource.pending CidSource.emptyFirstSource) <= 10)%nat ->
   (readCIDs (source := jsonSource (parsers := CidSource.fakeParsers)
                           fakeUndef)
      10 CidSource.emptyFirstSource []).2
     = [] ++ omap (CidSource.readRecord (parsers := CidSource.fakeParsers)
                     (CidSource.heap CidSource.emptyFirstSource))
               (CidSource.pending CidSource.emptyFirstSource)).
Proof.
  split; [vm_compute; reflexivity|].
  apply (readCIDs_never_returns (parsers := CidSource.fakeParsers) fakeUndef
           10 CidSource.emptyFirstSource []).
  exact fakeUndef_not_parsed.
Defined.

End Tracker.
